(** * Parallel file encrypter with CPU-style chunk scheduling

    A shallow embedding of [scheduler.py] (class [Task], class
    [TaskScheduler]) and [encryption.py] (class [FileEncryption]) together
    with the properties of the chunk pipeline: dispatch order of the three
    scheduling policies, the chunk framing format, padding, collection of the
    worker results and reassembly of the output file.

    Conventions of the embedding.
    - Python [int] is [Z]; Python [float] is the binary64 type [float] of the
      kernel, so that the quantum arithmetic of Round Robin rounds exactly as
      it does in the interpreter; [bytes] is [list byte]; [str] is [string].
    - Everything the code reads from its environment is a field of [World]:
      the file system, the wall clock read by [time.time()], the entropy read
      by [secrets.token_bytes], and the choices of the thread scheduler that
      interleaves the worker threads.  The [TaskScheduler] object handed to
      the pipeline lives in the world as well: the caller and the pipeline
      share it, and its [Task] objects are mutated in place.
    - A computation is a function [World -> outcome A * World]: it returns,
      raises a Python exception, or does not return ([Stuck]). *)

From Stdlib Require Import ZArith Floats.
From Stdlib.Strings Require Import Byte.
From stdpp Require Import gmap strings pretty list sorting.

Local Open Scope Z_scope.

Abbreviation bytes := (list byte).

(** ** Python values *)

(** A number that is an [int] or a [float] at run time
    ([Task.remaining_time] starts as the [int] size and becomes a [float]
    once Round Robin has subtracted a slice from it). *)
Inductive pynum :=
  | PyInt (z : Z)
  | PyFloat (f : float).

(** Conversion [int -> float]: round to nearest, ties to even; an integer
    beyond the range of the floats rounds to an infinity. *)
Definition float_of_Z (z : Z) : float :=
  SF2Prim (SpecFloat.binary_normalize prec emax z 0 false).

(** [min(a, b)] on floats: the first argument unless the second is
    strictly smaller. *)
Definition py_min (a b : float) : float :=
  if PrimFloat.ltb b a then b else a.

(** Exceptions raised by the code or by the libraries it calls. *)
Inductive exn :=
  | ValueError (msg : string)
  | IndexError (msg : string)
  | OverflowError (msg : string)
  | FileNotFoundError (path : string)
  | IsADirectoryError (path : string).

(** [str(e)] as stored in the ['error'] field of a failed result. *)
Definition exn_str (e : exn) : string :=
  match e with
  | ValueError m | IndexError m | OverflowError m => m
  | FileNotFoundError m | IsADirectoryError m => m
  end.

Inductive stuck :=
  | OutOfFuel        (* the model ran out of loop fuel *)
  | BlockedForever.  (* a blocking [Queue.get] that nothing will ever feed *)

Inductive outcome (A : Type) :=
  | Ok (a : A)
  | Raise (e : exn)
  | Stuck (why : stuck).
Arguments Ok {A} a.
Arguments Raise {A} e.
Arguments Stuck {A} why.

(** [float(z)], the conversion that [z / 1000.0] applies to an integer:
    an integer beyond the range of the floats raises [OverflowError]. *)
Definition py_float (z : Z) : outcome float :=
  if PrimFloat.is_infinity (float_of_Z z)
  then Raise (OverflowError "int too large to convert to float")
  else Ok (float_of_Z z).

(** The float operand that [x / 1000.0] and [x - y] compute with. *)
Definition pynum_to_float (x : pynum) : outcome float :=
  match x with
  | PyInt z => py_float z
  | PyFloat f => Ok f
  end.

(** [int(x)] on a float: truncation toward zero. *)
Definition int_of_float (f : float) : outcome Z :=
  match Prim2SF f with
  | SpecFloat.S754_zero _ => Ok 0
  | SpecFloat.S754_finite s m e =>
      let a := if 0 <=? e then Z.pos m * 2 ^ e else Z.pos m / 2 ^ (- e) in
      Ok (if s then - a else a)
  | SpecFloat.S754_infinity _ =>
      Raise (OverflowError "cannot convert float infinity to integer")
  | SpecFloat.S754_nan =>
      Raise (ValueError "cannot convert float NaN to integer")
  end.

(** [sorted(l, key=...)]: Python's sort is stable and only compares keys
    with [<].  A stable sort has a single possible result, computed here by
    insertion from the right: an element goes in front of the first element
    that is not strictly smaller than it. *)
Section py_sorted.
Context {A : Type} (lt : A -> A -> bool).

Fixpoint insert_sorted (x : A) (l : list A) : list A :=
  match l with
  | [] => [x]
  | y :: l' => if lt y x then y :: insert_sorted x l' else x :: y :: l'
  end.

Definition py_sorted (l : list A) : list A := foldr insert_sorted [] l.
End py_sorted.

(** ** scheduler.py: data *)

(** class Task *)
Record Task := mkTask {
  task_id : Z;
  size : Z;
  arrival_time : float;
  start_time : option float;
  end_time : option float;
  remaining_time : pynum
}.

(** One dictionary of the list returned by [schedule_tasks]; the keys
    ['quantum'] and ['remaining'] exist only in Round Robin entries. *)
Record Entry := mkEntry {
  entry_task_id : Z;
  entry_size : Z;
  entry_algorithm : string;
  entry_quantum : option Z;
  entry_remaining : option pynum;
  entry_scheduled_at : float
}.

(** class TaskScheduler *)
Record TaskScheduler := mkTaskScheduler {
  algorithm : string;
  time_quantum : option Z;
  tasks : list Task;
  completed_tasks : list Task
}.

(** [TaskScheduler.__init__] *)
Definition TaskScheduler_init (alg : string) (quantum : option Z) : TaskScheduler :=
  {| algorithm := alg; time_quantum := quantum; tasks := []; completed_tasks := [] |}.

(** ** The world *)

(** What an observer of a run can see of the worker pool. *)
Inductive event :=
  | EvThreadStart (worker_id : nat)    (* [worker.start()] *)
  | EvEnqueue (chunk_id : Z)           (* [task_queue.put((chunk_id, ...))] *)
  | EvProcess (worker_id : nat) (chunk_id : Z)  (* a worker ran the cipher on a chunk *)
  | EvThreadExit (worker_id : nat).    (* a worker took the [None] sentinel *)

Record World := mkWorld {
  fs : gmap string bytes;        (* the regular files, by path *)
  sched : TaskScheduler;         (* the scheduler object *)
  clock : nat -> float;          (* k-th reading of [time.time()] *)
  ticks : nat;                   (* readings taken so far *)
  entropy : nat -> bytes;        (* k-th draw of [secrets.token_bytes] *)
  draws : nat;                   (* draws taken so far *)
  interleave : list nat;         (* which worker thread moves next *)
  trace : list event             (* pool events, oldest first *)
}.

Definition set_fs (f : gmap string bytes) (w : World) : World :=
  mkWorld f (sched w) (clock w) (ticks w) (entropy w) (draws w) (interleave w) (trace w).
Definition set_sched (s : TaskScheduler) (w : World) : World :=
  mkWorld (fs w) s (clock w) (ticks w) (entropy w) (draws w) (interleave w) (trace w).
Definition set_ticks (n : nat) (w : World) : World :=
  mkWorld (fs w) (sched w) (clock w) n (entropy w) (draws w) (interleave w) (trace w).
Definition set_draws (n : nat) (w : World) : World :=
  mkWorld (fs w) (sched w) (clock w) (ticks w) (entropy w) n (interleave w) (trace w).
Definition set_interleave (l : list nat) (w : World) : World :=
  mkWorld (fs w) (sched w) (clock w) (ticks w) (entropy w) (draws w) l (trace w).
Definition set_trace (t : list event) (w : World) : World :=
  mkWorld (fs w) (sched w) (clock w) (ticks w) (entropy w) (draws w) (interleave w) t.

(** ** Computations *)

Definition M (A : Type) : Type := World -> outcome A * World.

Definition ret {A} (a : A) : M A := fun w => (Ok a, w).

Definition bind {A B} (m : M A) (k : A -> M B) : M B :=
  fun w =>
    match m w with
    | (Ok a, w') => k a w'
    | (Raise e, w') => (Raise e, w')
    | (Stuck s, w') => (Stuck s, w')
    end.

Definition raise {A} (e : exn) : M A := fun w => (Raise e, w).
Definition stuck_here {A} (s : stuck) : M A := fun w => (Stuck s, w).

(** Lift a pure result that may be an exception. *)
Definition lift {A} (o : outcome A) : M A := fun w => (o, w).

(** [try: m except Exception as e: h e] *)
Definition try_except {A} (m : M A) (h : exn -> M A) : M A :=
  fun w =>
    match m w with
    | (Raise e, w') => h e w'
    | r => r
    end.

Notation "x <- m ;; k" := (bind m (fun x => k))
  (at level 100, m at level 99, right associativity).
Notation "m ;;; k" := (bind m (fun _ => k))
  (at level 100, right associativity).

(** [for x in l: body x], threading an accumulator. *)
Fixpoint for_fold {A B} (body : B -> A -> M B) (acc : B) (l : list A) : M B :=
  match l with
  | [] => ret acc
  | x :: l' => acc' <- body acc x ;; for_fold body acc' l'
  end.

(** [[f(x) for x in l]] *)
Fixpoint forM {A B} (f : A -> M B) (l : list A) : M (list B) :=
  match l with
  | [] => ret []
  | x :: l' => y <- f x ;; ys <- forM f l' ;; ret (y :: ys)
  end.

(** [time.time()] *)
Definition time_time : M float :=
  fun w => (Ok (clock w (ticks w)), set_ticks (S (ticks w)) w).

(** [secrets.token_bytes(n)]: always [n] bytes, whatever the entropy
    source holds. *)
Definition token_bytes (n : nat) : M bytes :=
  fun w => (Ok (take n (entropy w (draws w) ++ replicate n x00)),
            set_draws (S (draws w)) w).

Definition emit (e : event) : M unit :=
  fun w => (Ok tt, set_trace (trace w ++ [e]) w).

Definition get_sched : M TaskScheduler := fun w => (Ok (sched w), w).
Definition put_sched (s : TaskScheduler) : M unit := fun w => (Ok tt, set_sched s w).

(** ** scheduler.py: operations *)

(** [Task.__init__]: [arrival_time or time.time()] takes the argument only
    when it is given and non-zero. *)
Definition Task_init (tid sz : Z) (arrival : option float) : M Task :=
  at_ <- match arrival with
         | Some t => if PrimFloat.eqb t 0%float then time_time else ret t
         | None => time_time
         end ;;
  ret {| task_id := tid; size := sz; arrival_time := at_;
         start_time := None; end_time := None; remaining_time := PyInt sz |}.

(** [Task.__lt__] *)
Definition Task_lt (a b : Task) : bool := size a <? size b.

(** [TaskScheduler.add_task] *)
Definition add_task (tid sz : Z) : M unit :=
  task <- Task_init tid sz None ;;
  s <- get_sched ;;
  put_sched {| algorithm := algorithm s; time_quantum := time_quantum s;
               tasks := tasks s ++ [task]; completed_tasks := completed_tasks s |}.

(** The loop that turns the sorted tasks into schedule entries, shared by
    FCFS and SJF. *)
Definition plain_entry (alg : string) (task : Task) : M Entry :=
  now <- time_time ;;
  ret {| entry_task_id := task_id task; entry_size := size task;
         entry_algorithm := alg; entry_quantum := None;
         entry_remaining := None; entry_scheduled_at := now |}.

(** [TaskScheduler._schedule_fcfs] *)
Definition _schedule_fcfs : M (list Entry) :=
  s <- get_sched ;;
  let sorted_tasks :=
    py_sorted (fun a b => PrimFloat.ltb (arrival_time a) (arrival_time b)) (tasks s) in
  forM (plain_entry "FCFS") sorted_tasks.

(** [TaskScheduler._schedule_sjf] *)
Definition _schedule_sjf : M (list Entry) :=
  s <- get_sched ;;
  let sorted_tasks := py_sorted (fun a b => size a <? size b) (tasks s) in
  forM (plain_entry "SJF") sorted_tasks.

(** The [Task] objects are shared between [self.tasks] and the ready
    queue: [self.tasks.copy()] copies the list, not the tasks.  A reference
    to a task is its position in [self.tasks]. *)
Definition deref_task (r : nat) : M Task :=
  s <- get_sched ;;
  match tasks s !! r with
  | Some t => ret t
  | None => raise (IndexError "dangling task reference")
  end.

Definition set_remaining_time (r : nat) (x : pynum) : M unit :=
  s <- get_sched ;;
  put_sched {| algorithm := algorithm s; time_quantum := time_quantum s;
               tasks := alter (fun t => mkTask (task_id t) (size t) (arrival_time t)
                                          (start_time t) (end_time t) x) r (tasks s);
               completed_tasks := completed_tasks s |}.

(** The [while ready_queue:] loop of [_schedule_round_robin].  The two
    divisions by [1000.0] convert their integer operand to a float and raise
    [OverflowError] when it is beyond the range of the floats. *)
Fixpoint round_robin_loop (fuel : nat) (quantum : Z) (ready_queue : list nat)
    (scheduled_tasks : list Entry) (current_time : float) : M (list Entry) :=
  match ready_queue with
  | [] => ret scheduled_tasks
  | r :: rest =>
      match fuel with
      | O => stuck_here OutOfFuel
      | S fuel' =>
          task <- deref_task r ;;
          quantum_ <- lift (py_float quantum) ;;
          remaining_ <- lift (pynum_to_float (remaining_time task)) ;;
          let execution_time :=
            py_min (PrimFloat.div quantum_ 1000%float)
                   (PrimFloat.div remaining_ 1000%float) in
          sz <- lift (int_of_float (PrimFloat.mul execution_time 1000%float)) ;;
          now <- time_time ;;
          let entry :=
            {| entry_task_id := task_id task; entry_size := sz;
               entry_algorithm := "Round Robin"; entry_quantum := Some quantum;
               entry_remaining := Some (remaining_time task);
               entry_scheduled_at := now |} in
          let remaining :=
            PrimFloat.sub remaining_ (PrimFloat.mul execution_time 1000%float) in
          set_remaining_time r (PyFloat remaining) ;;;
          round_robin_loop fuel' quantum
            (if PrimFloat.ltb 0%float remaining then rest ++ [r] else rest)
            (scheduled_tasks ++ [entry])
            (PrimFloat.add current_time execution_time)
      end
  end.

(** [TaskScheduler._schedule_round_robin] *)
Definition _schedule_round_robin (fuel : nat) : M (list Entry) :=
  s <- get_sched ;;
  match time_quantum s with
  | None | Some 0 =>
      raise (ValueError "Time quantum must be specified for Round Robin scheduling")
  | Some quantum =>
      round_robin_loop fuel quantum (seq 0 (length (tasks s))) [] 0%float
  end.

(** [TaskScheduler.schedule_tasks] *)
Definition schedule_tasks (fuel : nat) : M (list Entry) :=
  s <- get_sched ;;
  if String.eqb (algorithm s) "FCFS" then _schedule_fcfs
  else if String.eqb (algorithm s) "SJF" then _schedule_sjf
  else if String.eqb (algorithm s) "Round Robin" then _schedule_round_robin fuel
  else raise (ValueError ("Unknown scheduling algorithm: " +:+ algorithm s)).


(** ** scheduler.py: the simulated execution and its metrics *)

(** One dictionary of the list returned by [simulate_execution]. *)
Record Slot := mkSlot {
  slot_task_id : Z;
  slot_start_time : float;
  slot_end_time : float;
  slot_duration : float;
  slot_size : Z;
  slot_algorithm : string
}.

(** The value of code that can end in the [StopIteration] that [next]
    raises on an exhausted generator. *)
Inductive or_stop (A : Type) :=
  | Returned (a : A)
  | StopIteration.
Arguments Returned {A} a.
Arguments StopIteration {A}.

(** [next(t for t in self.tasks if t.task_id == task_id)]: the first
    registered task that has the id, if there is one. *)
Definition first_with_id (ts : list Task) (tid : Z) : option Task :=
  List.find (fun t => task_id t =? tid) ts.

(** The [for task_info in scheduled_tasks:] loop of [simulate_execution]. *)
Fixpoint simulate_loop (s : TaskScheduler) (scheduled_tasks : list Entry)
    (current_time : float) : outcome (or_stop (list Slot)) :=
  match scheduled_tasks with
  | [] => Ok (Returned [])
  | task_info :: rest =>
      let task_id_ := entry_task_id task_info in
      match first_with_id (tasks s) task_id_ with
      | None => Ok StopIteration
      | Some original_task =>
          match py_float (size original_task) with
          | Ok sz =>
              let execution_time := PrimFloat.div sz 1000%float in
              let start_time_ := current_time in
              let end_time_ := PrimFloat.add current_time execution_time in
              match simulate_loop s rest end_time_ with
              | Ok (Returned timeline) =>
                  Ok (Returned ({| slot_task_id := task_id_;
                                   slot_start_time := start_time_;
                                   slot_end_time := end_time_;
                                   slot_duration := execution_time;
                                   slot_size := size original_task;
                                   slot_algorithm := algorithm s |} :: timeline))
              | r => r
              end
          | Raise e => Raise e
          | Stuck why => Stuck why
          end
      end
  end.

(** [TaskScheduler.simulate_execution] *)
Definition simulate_execution (fuel : nat) : M (or_stop (list Slot)) :=
  scheduled_tasks <- schedule_tasks fuel ;;
  s <- get_sched ;;
  lift (simulate_loop s scheduled_tasks 0%float).

(** [ZeroDivisionError], raised by [/], [//] and [%] on a zero divisor. *)
Inductive arith_exn := ZeroDivisionError.

(** [a / b] on floats. *)
Definition py_truediv (a b : float) : arith_exn + float :=
  if PrimFloat.eqb b 0%float then inl ZeroDivisionError else inr (PrimFloat.div a b).

(** The dictionary returned by [calculate_metrics]. *)
Record Metrics := mkMetrics {
  average_turnaround_time : float;
  average_waiting_time : float;
  average_response_time : float;
  throughput : float;
  total_execution_time : float
}.

(** The three running totals of [calculate_metrics]; they start from the
    integer 0, which the first addition converts to a float. *)
Definition metrics_totals (execution_timeline : list Slot) : float * float * float :=
  foldl (fun totals task_exec =>
           let '(total_turnaround_time, total_waiting_time, total_response_time) := totals in
           let turnaround_time := slot_end_time task_exec in
           let waiting_time := PrimFloat.sub turnaround_time (slot_duration task_exec) in
           let response_time := slot_start_time task_exec in
           (PrimFloat.add total_turnaround_time turnaround_time,
            PrimFloat.add total_waiting_time waiting_time,
            PrimFloat.add total_response_time response_time))
        (0%float, 0%float, 0%float) execution_timeline.

(** [TaskScheduler.calculate_metrics]; [None] is the empty dictionary
    returned for an empty timeline. *)
Definition calculate_metrics (execution_timeline : list Slot)
    : arith_exn + option Metrics :=
  match last execution_timeline with
  | None => inr None
  | Some last_exec =>
      let '(total_turnaround_time, total_waiting_time, total_response_time) :=
        metrics_totals execution_timeline in
      let num_tasks := float_of_Z (Z.of_nat (length execution_timeline)) in
      match py_truediv total_turnaround_time num_tasks with
      | inl e => inl e
      | inr avg_turnaround =>
      match py_truediv total_waiting_time num_tasks with
      | inl e => inl e
      | inr avg_waiting =>
      match py_truediv total_response_time num_tasks with
      | inl e => inl e
      | inr avg_response =>
      match py_truediv num_tasks (slot_end_time last_exec) with
      | inl e => inl e
      | inr per_second =>
          inr (Some {| average_turnaround_time := avg_turnaround;
                       average_waiting_time := avg_waiting;
                       average_response_time := avg_response;
                       throughput := per_second;
                       total_execution_time := slot_end_time last_exec |})
      end end end end
  end.

(** * encryption.py *)

(** ** The cryptography library

    [cryptography.hazmat] is not part of the program.  Its two primitives
    are taken as an interface with the contract the program relies on:
    PBKDF2 returns as many bytes as asked, and AES-CBC on whole blocks keeps
    the length and is undone by decryption under the same key and IV. *)
Class CryptoBackend := {
  pbkdf2_hmac_sha256 : bytes -> bytes -> Z -> nat -> bytes;
  aes_cbc_encrypt : bytes -> bytes -> bytes -> bytes;
  aes_cbc_decrypt : bytes -> bytes -> bytes -> bytes;
  pbkdf2_length : forall password salt iterations len,
    length (pbkdf2_hmac_sha256 password salt iterations len) = len;
  aes_cbc_encrypt_length : forall key iv data,
    (length data mod 16 = 0)%nat ->
    length (aes_cbc_encrypt key iv data) = length data;
  aes_cbc_decrypt_length : forall key iv data,
    (length data mod 16 = 0)%nat ->
    length (aes_cbc_decrypt key iv data) = length data;
  aes_cbc_decrypt_encrypt : forall key iv data,
    length key = 32%nat -> length iv = 16%nat -> (length data mod 16 = 0)%nat ->
    aes_cbc_decrypt key iv (aes_cbc_encrypt key iv data) = data
}.

(** [Cipher(algorithms.AES(key), modes.CBC(iv), ...)]: the constructors
    reject a key that is not 128, 192 or 256 bits long and an IV that is not
    one block long; the messages give the size of the key in bits and the
    size of the IV in bytes. *)
Definition Cipher (key iv : bytes) : outcome unit :=
  if negb (bool_decide (length key ∈ [16; 24; 32]%nat)) then
    Raise (ValueError ("Invalid key size (" +:+ pretty (8 * length key)%nat +:+ ") for AES."))
  else if negb (length iv =? 16)%nat then
    Raise (ValueError ("Invalid IV size (" +:+ pretty (length iv) +:+ ") for CBC."))
  else Ok tt.

(** [update(data) + finalize()] of a CBC context: [finalize] rejects
    a partial last block. *)
Definition update_finalize (f : bytes -> bytes) (data : bytes) : outcome bytes :=
  if negb (length data mod 16 =? 0)%nat then
    Raise (ValueError "The length of the provided data is not a multiple of the block length.")
  else Ok (f data).

(** [bytes(l)] for a list of integers. *)
Fixpoint py_bytes (l : list Z) : outcome bytes :=
  match l with
  | [] => Ok []
  | z :: l' =>
      match (if z <? 0 then None else Byte.of_N (Z.to_N z)), py_bytes l' with
      | Some b, Ok bs => Ok (b :: bs)
      | None, _ => Raise (ValueError "bytes must be in range(0, 256)")
      | _, r => r
      end
  end.

(** [l[:stop]] *)
Definition slice_to {A} (l : list A) (stop : Z) : list A :=
  if stop <? 0 then take (Z.to_nat (Z.of_nat (length l) + stop)) l
  else take (Z.to_nat stop) l.

(** [n.to_bytes(4, byteorder='big')] *)
Definition to_bytes4 (n : Z) : outcome bytes :=
  if (n <? 0) || (2 ^ 32 <=? n) then
    Raise (OverflowError "int too big to convert")
  else
    py_bytes [n / 2 ^ 24; (n / 2 ^ 16) mod 256; (n / 2 ^ 8) mod 256; n mod 256].

(** [int.from_bytes(b, byteorder='big')] *)
Definition from_bytes (b : bytes) : Z :=
  foldl (fun acc x => acc * 256 + Z.of_N (Byte.to_N x)) 0 b.

(** [password.encode()]: a [string] already is its sequence of bytes. *)
Definition str_encode (s : string) : bytes :=
  (fun a => match Byte.of_N (Ascii.N_of_ascii a) with Some b => b | None => x00 end)
    <$> String.list_ascii_of_string s.

Section encryption.
Context `{CryptoBackend}.

(** [FileEncryption._derive_key] *)
Definition _derive_key (password : string) (salt : bytes) : bytes :=
  pbkdf2_hmac_sha256 (str_encode password) salt 100000 32.

(** [FileEncryption._encrypt_chunk] *)
Definition _encrypt_chunk (chunk_data key : bytes) : M bytes :=
  iv <- token_bytes 16 ;;
  lift (Cipher key iv) ;;;
  let padding_length := 16 - Z.of_nat (length chunk_data) mod 16 in
  padding <- lift (py_bytes (replicate (Z.to_nat padding_length) padding_length)) ;;
  let padded_data := chunk_data ++ padding in
  encrypted_data <- lift (update_finalize (aes_cbc_encrypt key iv) padded_data) ;;
  ret (iv ++ encrypted_data).

(** The last two lines of [_decrypt_chunk]:
    [padding_length = decrypted_data[-1]] and
    [return decrypted_data[:-padding_length]]. *)
Definition remove_padding (decrypted_data : bytes) : outcome bytes :=
  match last decrypted_data with
  | None => Raise (IndexError "index out of range")
  | Some b =>
      let padding_length := Z.of_N (Byte.to_N b) in
      Ok (slice_to decrypted_data (- padding_length))
  end.

(** [FileEncryption._decrypt_chunk] *)
Definition _decrypt_chunk (chunk_data key : bytes) : M bytes :=
  let iv := take 16 chunk_data in
  let encrypted_data := drop 16 chunk_data in
  lift (Cipher key iv) ;;;
  decrypted_data <- lift (update_finalize (aes_cbc_decrypt key iv) encrypted_data) ;;
  lift (remove_padding decrypted_data).
End encryption.

(** ** The worker pool *)

(** The tuple [(chunk_id, chunk_data, time.time())] put on the task queue. *)
Record QTask := mkQTask {
  q_chunk_id : Z;
  q_chunk_data : bytes;
  q_start_time : float
}.

(** The dictionary a worker puts on the result queue. *)
Inductive WorkResult :=
  | Success (chunk_id : Z) (data : bytes) (worker_id : nat) (start_time end_time : float)
  | Failure (chunk_id : Z) (error : string) (worker_id : nat).

Definition result_chunk_id (r : WorkResult) : Z :=
  match r with
  | Success i _ _ _ _ | Failure i _ _ => i
  end.

(** Where a worker thread stands in [_worker_process]. *)
Inductive WorkerState :=
  | Waiting                                     (* in [task_queue.get] *)
  | Working (t : QTask) (actual_start : float)  (* between [get] and [put] *)
  | Exited.                                     (* after the sentinel *)

Record Pool := mkPool {
  task_queue : list (option QTask);   (* [None] is the shutdown signal *)
  result_queue : list WorkResult;
  workers : list WorkerState
}.

Section pool.
Context `{CryptoBackend}.

(** The body of the inner [try] of [_worker_process], with its
    [except Exception] handler. *)
Definition process_task (operation : string) (key : bytes) (worker_id : nat)
    (t : QTask) (actual_start : float) : M WorkResult :=
  emit (EvProcess worker_id (q_chunk_id t)) ;;;
  try_except
    (result_data <- (if String.eqb operation "encrypt"
                     then _encrypt_chunk (q_chunk_data t) key
                     else _decrypt_chunk (q_chunk_data t) key) ;;
     end_time_ <- time_time ;;
     ret (Success (q_chunk_id t) result_data worker_id actual_start end_time_))
    (fun e => ret (Failure (q_chunk_id t) (exn_str e) worker_id)).

(** One move of worker [i]: a waiting worker takes the head of the task
    queue (and waits on if there is none), a working one finishes its
    task and puts the result. *)
Definition worker_step (operation : string) (key : bytes) (i : nat) (p : Pool) : M Pool :=
  match workers p !! i with
  | Some Waiting =>
      match task_queue p with
      | [] => ret p
      | None :: q =>
          emit (EvThreadExit i) ;;;
          ret (mkPool q (result_queue p) (<[i := Exited]> (workers p)))
      | Some t :: q =>
          actual_start <- time_time ;;
          ret (mkPool q (result_queue p) (<[i := Working t actual_start]> (workers p)))
      end
  | Some (Working t actual_start) =>
      r <- process_task operation key i t actual_start ;;
      ret (mkPool (task_queue p) (result_queue p ++ [r]) (<[i := Waiting]> (workers p)))
  | Some Exited | None => ret p
  end.

(** The worker threads run in the order the thread scheduler picks.  Once
    its choices are used up, every worker finishes the task it holds and
    the first worker empties the queue: all the tasks that were put on the
    queue get processed, whatever the interleaving. *)
Definition run_workers (operation : string) (key : bytes) (p : Pool) : M Pool :=
  choices <- (fun w => (Ok (interleave w), set_interleave [] w)) ;;
  p1 <- for_fold (fun p i => worker_step operation key i p) p choices ;;
  p2 <- for_fold (fun p i =>
                    match workers p !! i with
                    | Some (Working _ _) => worker_step operation key i p
                    | _ => ret p
                    end) p1 (seq 0 (length (workers p1))) ;;
  for_fold (fun p _ => p' <- worker_step operation key 0 p ;;
                       worker_step operation key 0 p') p2 (task_queue p2).
End pool.

(** ** The two pipelines *)

(** One dictionary of [gantt_data]. *)
Record Gantt := mkGantt {
  gantt_chunk_id : Z;
  gantt_worker : nat;
  gantt_start : float;
  gantt_end : float
}.

(** [open(path, 'rb')] followed by reading the whole file. *)
Definition read_file (path : string) : M bytes :=
  fun w =>
    match fs w !! path with
    | Some data => (Ok data, w)
    | None => (Raise (FileNotFoundError path), w)
    end.

(** The slash (character 47) and the dot (character 46). *)
Definition slash : Ascii.ascii := Eval vm_compute in Ascii.ascii_of_nat 47.
Definition dot : Ascii.ascii := Eval vm_compute in Ascii.ascii_of_nat 46.

(** The last component of a path: what follows its last slash. *)
Definition last_component (path : string) : list Ascii.ascii :=
  foldl (fun name c => if Ascii.eqb c slash then [] else name ++ [c])
    [] (String.list_ascii_of_string path).

(** A path that can name a new file: its last component is not empty (the
    path itself is not empty and does not end in a slash) and is neither of
    the two directory entries [.] and [..]. *)
Definition names_a_file (path : string) : bool :=
  negb (bool_decide (last_component path ∈ [[]; [dot]; [dot; dot]])).

(** [path] can be opened for writing in [w]: a file of that name exists,
    or the name can be given to a new file. *)
Definition writable (w : World) (path : string) : Prop :=
  is_Some (fs w !! path) \/ names_a_file path = true.

#[global] Instance writable_dec (w : World) (path : string) : Decision (writable w path).
Proof. unfold writable. apply _. Defined.

(** [open(path, 'wb')] empties the file when there is one and creates it
    when [path] can name a file.  It raises [FileNotFoundError] for the empty
    path, and [IsADirectoryError] for a path that names a directory (it ends
    in a slash, or in one of the entries [.] and [..]).  The file system of
    the model holds regular files only. *)
Definition open_wb (path : string) : M unit :=
  fun w =>
    if bool_decide (writable w path)
    then (Ok tt, set_fs (<[path := []]> (fs w)) w)
    else if String.eqb path EmptyString then (Raise (FileNotFoundError path), w)
    else (Raise (IsADirectoryError path), w).

(** [f.write(data)] on a file opened by [open_wb]. *)
Definition file_write (path : string) (data : bytes) : M unit :=
  fun w => (Ok tt, set_fs (<[path := default [] (fs w !! path) ++ data]> (fs w)) w).

(** [f.read(n)] for a count [n] that is not negative, at the current
    position: the next [n] bytes, or what is left of the file when that is
    less (at the end, [b'']), together with the bytes after them. *)
Definition read_n (n : nat) (rest : bytes) : bytes * bytes :=
  (take n rest, drop n rest).

(** [f.read(n)] for any count: [-1] reads to the end of the file, and a
    count below [-1] is refused. *)
Definition file_read (n : Z) (rest : bytes) : outcome (bytes * bytes) :=
  if n <? -1 then Raise (ValueError "read length must be non-negative or -1")
  else if n <? 0 then Ok (rest, [])
  else Ok (read_n (Z.to_nat n) rest).

(** The [while True:] loop that splits the input in [encrypt_file_parallel].
    Every turn but the last consumes at least one byte, so the loop
    takes at most one turn more than there are bytes. *)
Fixpoint read_chunks_loop (turns : nat) (chunk_size : Z) (rest : bytes) (chunk_id : Z)
    : outcome (list (Z * bytes)) :=
  match turns with
  | O => Ok []
  | S turns' =>
      match file_read chunk_size rest with
      | Ok (chunk_data, rest') =>
          match chunk_data with
          | [] => Ok []
          | _ =>
              match read_chunks_loop turns' chunk_size rest' (chunk_id + 1) with
              | Ok chunks => Ok ((chunk_id, chunk_data) :: chunks)
              | r => r
              end
          end
      | Raise e => Raise e
      | Stuck why => Stuck why
      end
  end.

Definition read_chunks (chunk_size : Z) (data : bytes) : outcome (list (Z * bytes)) :=
  read_chunks_loop (S (length data)) chunk_size data 0.

(** [for chunk_id, chunk_data in chunks: scheduler.add_task(chunk_id, len(chunk_data))] *)
Definition register_chunks (chunks : list (Z * bytes)) : M unit :=
  for_fold (fun _ c => add_task c.1 (Z.of_nat (length c.2))) tt chunks.

(** [l[i]] with Python's negative indices. *)
Definition py_index {A} (l : list A) (i : Z) : outcome A :=
  let k := if i <? 0 then Z.of_nat (length l) + i else i in
  match (if k <? 0 then None else l !! Z.to_nat k) with
  | Some x => Ok x
  | None => Raise (IndexError "list index out of range")
  end.

(** The loop that starts the worker threads. *)
Definition start_workers (max_workers : Z) : M (list WorkerState) :=
  forM (fun i => emit (EvThreadStart i) ;;; ret Waiting) (seq 0 (Z.to_nat max_workers)).

(** [for task_info in scheduled_tasks: ... task_queue.put(...)] *)
Definition dispatch (chunks : list (Z * bytes)) (scheduled_tasks : list Entry)
    : M (list (option QTask)) :=
  for_fold (fun q task_info =>
              let chunk_id := entry_task_id task_info in
              c <- lift (py_index chunks chunk_id) ;;
              now <- time_time ;;
              emit (EvEnqueue chunk_id) ;;;
              ret (q ++ [Some (mkQTask chunk_id c.2 now)]))
           [] scheduled_tasks.

(** The body of the collection loop: a success is stored under its chunk
    id and recorded for the Gantt chart, a failure is dropped. *)
Definition collect_result (start_time : float) (acc : gmap Z bytes * list Gantt)
    (result : WorkResult) : gmap Z bytes * list Gantt :=
  match result with
  | Success chunk_id data worker_id st en =>
      (<[chunk_id := data]> acc.1,
       acc.2 ++ [mkGantt chunk_id worker_id
                   (PrimFloat.sub st start_time) (PrimFloat.sub en start_time)])
  | Failure _ _ _ => acc
  end.

(** [for _ in range(len(chunks)): result = result_queue.get() ...]: the
    loop blocks for good when fewer results than chunks ever arrive. *)
Definition collect (n : nat) (start_time : float) (results_in : list WorkResult)
    : M (gmap Z bytes * list Gantt) :=
  if (length results_in <? n)%nat then stuck_here BlockedForever
  else ret (foldl (collect_result start_time) (∅, []) (take n results_in)).

(** [for _ in workers: task_queue.put(None)] and [worker.join()]: every
    worker takes one sentinel and leaves its loop. *)
Definition shutdown (p : Pool) : M unit :=
  for_fold (fun _ i =>
              match workers p !! i with
              | Some Exited | None => ret tt
              | Some _ => emit (EvThreadExit i)
              end) tt (seq 0 (length (workers p))).

Section pipelines.
Context `{CryptoBackend}.

(** The part shared by both pipelines, from "Start worker threads" to
    the [join] of the workers. *)
Definition run_scheduled (fuel : nat) (operation : string) (key : bytes)
    (max_workers : Z) (chunks : list (Z * bytes)) : M (gmap Z bytes * list Gantt) :=
  workers_ <- start_workers max_workers ;;
  scheduled_tasks <- schedule_tasks fuel ;;
  start_time_ <- time_time ;;
  queue <- dispatch chunks scheduled_tasks ;;
  pool <- run_workers operation key (mkPool queue [] workers_) ;;
  collected <- collect (length chunks) start_time_ (result_queue pool) ;;
  shutdown pool ;;;
  ret collected.

(** [FileEncryption.encrypt_file_parallel] (without a progress bar) *)
Definition encrypt_file_parallel (fuel : nat) (input_file password : string)
    (chunk_size max_workers : Z) : M (string * list Gantt * nat) :=
  salt <- token_bytes 16 ;;
  let key := _derive_key password salt in
  data <- read_file input_file ;;
  chunks <- lift (read_chunks chunk_size data) ;;
  match chunks with
  | [] => raise (ValueError "File is empty")
  | _ =>
      register_chunks chunks ;;;
      collected <- run_scheduled fuel "encrypt" key max_workers chunks ;;
      let '(results, gantt_data) := collected in
      let output_file := input_file +:+ ".enc" in
      open_wb output_file ;;;
      file_write output_file salt ;;;
      count <- lift (to_bytes4 (Z.of_nat (length chunks))) ;;
      file_write output_file count ;;;
      for_fold (fun _ i =>
                  match results !! Z.of_nat i with
                  | Some chunk_data =>
                      len <- lift (to_bytes4 (Z.of_nat (length chunk_data))) ;;
                      file_write output_file len ;;;
                      file_write output_file chunk_data
                  | None => ret tt
                  end) tt (seq 0 (length chunks)) ;;;
      ret (output_file, gantt_data, length chunks)
  end.

(** The [for i in range(chunk_count):] loop that reads the frames.  The
    count of every read is not negative: it is 4, or what [int.from_bytes]
    decoded as an unsigned integer. *)
Fixpoint read_frames (count : nat) (i : Z) (rest : bytes) : list (Z * bytes) :=
  match count with
  | O => []
  | S count' =>
      let '(len_bytes, rest1) := read_n 4 rest in
      let chunk_length := from_bytes len_bytes in
      let '(chunk_data, rest2) := read_n (Z.to_nat chunk_length) rest1 in
      (i, chunk_data) :: read_frames count' (i + 1) rest2
  end.

(** [input_file.endswith('.enc')] and [input_file[:-4]] *)
Definition decrypted_name (input_file : string) : string :=
  let n := String.length input_file in
  if (4 <=? n)%nat && String.eqb (String.substring (n - 4) 4 input_file) ".enc"
  then String.substring 0 (n - 4) input_file
  else input_file +:+ ".dec".

(** [FileEncryption.decrypt_file_parallel] (without a progress bar) *)
Definition decrypt_file_parallel (fuel : nat) (input_file password : string)
    (chunk_size max_workers : Z) : M (string * list Gantt * nat) :=
  data <- read_file input_file ;;
  let '(salt, rest) := read_n 16 data in
  let key := _derive_key password salt in
  let '(count_bytes, rest1) := read_n 4 rest in
  let chunk_count := from_bytes count_bytes in
  let chunks := read_frames (Z.to_nat chunk_count) 0 rest1 in
  register_chunks chunks ;;;
  collected <- run_scheduled fuel "decrypt" key max_workers chunks ;;
  let '(results, gantt_data) := collected in
  let output_file := decrypted_name input_file in
  open_wb output_file ;;;
  for_fold (fun _ i =>
              match results !! Z.of_nat i with
              | Some chunk_data => file_write output_file chunk_data
              | None => ret tt
              end) tt (seq 0 (length chunks)) ;;;
  ret (output_file, gantt_data, length chunks).
End pipelines.

(** * utils.py *)

(** [a // b] and [a % b] on integers: the quotient is rounded toward minus
    infinity and the remainder has the sign of the divisor, as [Z.div] and
    [Z.modulo] do. *)
Definition py_floordiv (a b : Z) : arith_exn + Z :=
  if b =? 0 then inl ZeroDivisionError else inr (a / b).
Definition py_mod (a b : Z) : arith_exn + Z :=
  if b =? 0 then inl ZeroDivisionError else inr (a mod b).

(** The dictionary returned by [chunk_file_info]. *)
Record ChunkInfo := mkChunkInfo {
  total_chunks : Z;
  info_chunk_size : Z;
  last_chunk_size : Z;
  total_size : Z;
  estimated_memory_usage : Z;
  chunks_per_worker : Z
}.

(** [chunk_file_info] *)
Definition chunk_file_info (file_size chunk_size : Z) : arith_exn + ChunkInfo :=
  match py_floordiv (file_size + chunk_size - 1) chunk_size with
  | inl e => inl e
  | inr num_chunks =>
      match py_mod file_size chunk_size with
      | inl e => inl e
      | inr m =>
          let last_chunk_size := if negb (m =? 0) then m else chunk_size in
          match (if 4 <=? num_chunks then py_floordiv num_chunks 4 else inr 1) with
          | inl e => inl e
          | inr per_worker =>
              inr {| total_chunks := num_chunks;
                     info_chunk_size := chunk_size;
                     last_chunk_size := last_chunk_size;
                     total_size := file_size;
                     estimated_memory_usage := num_chunks * chunk_size * 2;
                     chunks_per_worker := per_worker |}
          end
      end
  end.

(** A [str] as the list of its characters, for the functions that work
    character by character. *)
Abbreviation chars := (list Ascii.ascii).

(** The dictionary returned by [validate_password_strength]. *)
Record Strength := mkStrength {
  score : Z;
  max_score : Z;
  strength : string;
  feedback : list string;
  is_valid : bool
}.

(** [any(p(c) for c in s)] *)
Definition py_any (p : Ascii.ascii -> bool) (s : string) : bool :=
  existsb p (String.list_ascii_of_string s).

(** [c in "!@#$%^&*()_+-=[]{}|;:,.<>?"] *)
Definition is_special (c : Ascii.ascii) : bool :=
  existsb (Ascii.eqb c) (String.list_ascii_of_string "!@#$%^&*()_+-=[]{}|;:,.<>?").

(** One of the five checks of [validate_password_strength]: a point when
    it passes, a line of feedback when it does not. *)
Definition score_check (passed : bool) (message : string) (acc : Z * list string)
    : Z * list string :=
  if passed then (acc.1 + 1, acc.2) else (acc.1, acc.2 ++ [message]).

Section validate_password_strength.
(** [str.islower], [str.isupper] and [str.isdigit] on one character. *)
Variables (islower isupper isdigit : Ascii.ascii -> bool).

(** [validate_password_strength] *)
Definition validate_password_strength (password : string) : Strength :=
  let acc := score_check (8 <=? String.length password)%nat
               "Password should be at least 8 characters long" (0, []) in
  let has_lower := py_any islower password in
  let has_upper := py_any isupper password in
  let has_digit := py_any isdigit password in
  let has_special := py_any is_special password in
  let acc := score_check has_lower "Include lowercase letters" acc in
  let acc := score_check has_upper "Include uppercase letters" acc in
  let acc := score_check has_digit "Include numbers" acc in
  let acc := score_check has_special "Include special characters" acc in
  let score := acc.1 in
  let strength :=
    if score <=? 2 then "Weak"
    else if score <=? 3 then "Medium"
    else if score <=? 4 then "Strong"
    else "Very Strong" in
  {| score := score; max_score := 5; strength := strength; feedback := acc.2;
     is_valid := 3 <=? score |}.
End validate_password_strength.

(** [s.replace(old, new)] for single characters. *)
Definition str_replace (old new : Ascii.ascii) (s : chars) : chars :=
  (fun c => if Ascii.eqb c old then new else c) <$> s.

(** [s.lstrip(set)], [s.rstrip(set)] and [s.strip(set)] *)
Fixpoint str_lstrip (set : chars) (s : chars) : chars :=
  match s with
  | [] => []
  | c :: s' => if bool_decide (c ∈ set) then str_lstrip set s' else s
  end.
Definition str_rstrip (set : chars) (s : chars) : chars :=
  reverse (str_lstrip set (reverse s)).
Definition str_strip (set : chars) (s : chars) : chars :=
  str_rstrip set (str_lstrip set s).

(** The nine characters that [sanitize_filename] replaces: the angle
    brackets, the colon, the double quote (character 34), both slashes, the
    bar, the question mark and the star. *)
Definition invalid_chars : chars :=
  String.list_ascii_of_string "<>:" ++ [Ascii.ascii_of_nat 34] ++
  String.list_ascii_of_string "/\|?*".

(** The replacement character, [_], and the characters that are stripped,
    the space and the dot. *)
Definition underscore : Ascii.ascii := Ascii.ascii_of_nat 95.
Definition space_and_dot : chars := String.list_ascii_of_string " .".

(** [sanitize_filename] up to the length check. *)
Definition cleaned_filename (filename : chars) : chars :=
  let filename := foldl (fun f char => str_replace char underscore f) filename invalid_chars in
  let filename := str_strip space_and_dot filename in
  match filename with
  | [] => String.list_ascii_of_string "file"
  | _ => filename
  end.

Section sanitize_filename.
(** [os.path.splitext] *)
Variable splitext : chars -> chars * chars.

(** [sanitize_filename] *)
Definition sanitize_filename (filename : chars) : chars :=
  let filename := cleaned_filename filename in
  if (255 <? length filename)%nat then
    let '(name, ext) := splitext filename in
    let max_name_length := 255 - Z.of_nat (length ext) in
    slice_to name max_name_length ++ ext
  else filename.
End sanitize_filename.

(** * Properties of the scheduler *)

(** ** The sort *)

Section py_sorted_facts.
Context {A : Type} (lt : A -> A -> bool).

Lemma insert_sorted_perm (x : A) (l : list A) :
  insert_sorted lt x l ≡ₚ x :: l.
Proof.
  induction l as [|y l IH]; simpl; [done|].
  destruct (lt y x); [|done].
  rewrite IH. apply Permutation_swap.
Qed.

Lemma py_sorted_perm (l : list A) : py_sorted lt l ≡ₚ l.
Proof.
  induction l as [|x l IH]; simpl; [done|].
  by rewrite insert_sorted_perm, IH.
Qed.

Lemma py_sorted_length (l : list A) : length (py_sorted lt l) = length l.
Proof. by rewrite py_sorted_perm. Qed.

(** A list in which no element is strictly smaller than its predecessor
    is returned as it is. *)
Lemma py_sorted_already (l : list A) :
  Sorted (fun a b => lt b a = false) l -> py_sorted lt l = l.
Proof.
  induction 1 as [|x l Hs IH Hhd]; simpl; [done|].
  rewrite IH. destruct Hhd as [|y l' Hxy]; simpl; [done|].
  by rewrite Hxy.
Qed.
End py_sorted_facts.

(** Sorting commutes with a map that respects the comparison. *)
Lemma py_sorted_map {A B : Type} (ltA : A -> A -> bool) (ltB : B -> B -> bool)
    (f : A -> B) (l : list A) :
  (forall a a', ltA a a' = ltB (f a) (f a')) ->
  f <$> py_sorted ltA l = py_sorted ltB (f <$> l).
Proof.
  intros Hf. unfold py_sorted. induction l as [|x l IH]; csimpl; [done|].
  rewrite <- IH. generalize (foldr (insert_sorted ltA) [] l). clear IH.
  intros s. induction s as [|y s IHs]; csimpl; [done|].
  rewrite <- Hf. destruct (ltA y x); csimpl; [|done].
  by rewrite IHs.
Qed.

(** Stability, on a list whose elements carry their original position:
    after sorting by an integer key, the elements are in the lexicographic
    order of (key, position). *)
Section stable.
Context {A : Type} (key : A -> Z).

Definition key_then_pos (p q : nat * A) : Prop :=
  key p.2 < key q.2 \/ (key p.2 = key q.2 /\ (p.1 < q.1)%nat).

Definition lt_key (p q : nat * A) : bool := key p.2 <? key q.2.

Lemma insert_sorted_stable (x : nat * A) (l : list (nat * A)) :
  Forall (fun q => (x.1 < q.1)%nat) l ->
  StronglySorted key_then_pos l ->
  StronglySorted key_then_pos (insert_sorted lt_key x l).
Proof.
  intros Hpos Hs. induction Hs as [|y l Hs IH Hy]; simpl.
  - repeat constructor.
  - apply Forall_cons in Hpos as [Hxy Hpos].
    unfold lt_key at 1. destruct (Z.ltb_spec (key y.2) (key x.2)) as [Hlt|Hge].
    + constructor; [by apply IH|].
      rewrite insert_sorted_perm. constructor; [by left|done].
    + assert (key_then_pos x y) as Hxy'.
      { unfold key_then_pos. destruct (decide (key x.2 = key y.2)); [right|left]; lia. }
      constructor; [by constructor|].
      constructor; [done|].
      eapply Forall_impl; [exact Hy|].
      intros z Hyz. unfold key_then_pos in *. lia.
Qed.

Lemma py_sorted_stable (l : list (nat * A)) :
  StronglySorted (fun p q => (p.1 < q.1)%nat) l ->
  StronglySorted key_then_pos (py_sorted lt_key l).
Proof.
  induction 1 as [|x l Hs IH Hx]; simpl; [constructor|].
  apply insert_sorted_stable; [|done].
  by rewrite py_sorted_perm.
Qed.
End stable.

(** The list paired with its positions. *)
Definition indexed {A : Type} (l : list A) : list (nat * A) :=
  zip (seq 0 (length l)) l.

Lemma indexed_snd {A : Type} (l : list A) : (indexed l).*2 = l.
Proof. unfold indexed. apply snd_zip. by rewrite length_seq. Qed.

Lemma indexed_fst {A : Type} (l : list A) : (indexed l).*1 = seq 0 (length l).
Proof. unfold indexed. apply fst_zip. by rewrite length_seq. Qed.

Lemma indexed_lookup {A : Type} (l : list A) (p : nat * A) :
  p ∈ indexed l -> l !! p.1 = Some p.2.
Proof.
  unfold indexed. intros [i Hi]%list_elem_of_lookup.
  apply lookup_zip_with_Some in Hi as (k & a & -> & Hk & Ha).
  simpl. apply lookup_seq in Hk as [-> _]. done.
Qed.

Lemma indexed_positions_sorted {A : Type} (l : list A) :
  StronglySorted (fun p q : nat * A => (p.1 < q.1)%nat) (indexed l).
Proof.
  unfold indexed. generalize 0%nat as start.
  induction l as [|x l IH]; intros start; simpl; constructor; [apply IH|].
  apply Forall_forall. intros [i y] Hq%elem_of_zip_l. simpl.
  apply elem_of_seq in Hq. lia.
Qed.

(** ** Running computations *)

Lemma bind_ok {A B} (m : M A) (k : A -> M B) (w w' : World) (a : A) :
  m w = (Ok a, w') -> bind m k w = k a w'.
Proof. unfold bind. by intros ->. Qed.

Lemma bind_raise {A B} (m : M A) (k : A -> M B) (w w' : World) (e : exn) :
  m w = (Raise e, w') -> bind m k w = (Raise e, w').
Proof. unfold bind. by intros ->. Qed.

Lemma set_ticks_same (w : World) : set_ticks (ticks w) w = w.
Proof. by destruct w. Qed.

(** ** Entries of FCFS and SJF *)

(** What the entry loop of FCFS and SJF returns on the tasks [l] when it
    starts at clock reading [t0]. *)
Definition plain_entries (alg : string) (clk : nat -> float) (t0 : nat)
    (l : list Task) : list Entry :=
  imap (fun k t => mkEntry (task_id t) (size t) alg None None (clk (t0 + k)%nat)) l.

Lemma plain_entries_ids alg clk t0 l :
  entry_task_id <$> plain_entries alg clk t0 l = task_id <$> l.
Proof.
  unfold plain_entries. revert t0. induction l as [|t l IH]; intros t0; [done|].
  rewrite imap_cons. csimpl. f_equal.
  rewrite <- (IH (S t0)). f_equal. apply imap_ext. intros k x _. simpl.
  do 2 f_equal. lia.
Qed.

Lemma forM_plain_entry (alg : string) (l : list Task) (w : World) :
  forM (plain_entry alg) l w =
  (Ok (plain_entries alg (clock w) (ticks w) l), set_ticks (ticks w + length l) w).
Proof.
  revert w. induction l as [|t l IH]; intros w.
  - simpl. unfold ret. by rewrite Nat.add_0_r, set_ticks_same.
  - cbn [forM]. unfold bind at 1. unfold plain_entry at 1, bind, time_time, ret.
    rewrite IH. destruct w as [f s c n e d i tr]; simpl. f_equal.
    + f_equal. unfold plain_entries. rewrite imap_cons, Nat.add_0_r. f_equal.
      apply imap_ext. intros k x _. simpl. do 2 f_equal. lia.
    + unfold set_ticks; simpl. f_equal. lia.
Qed.

Lemma schedule_fcfs_eq (w : World) :
  _schedule_fcfs w =
  (Ok (plain_entries "FCFS" (clock w) (ticks w)
         (py_sorted (fun a b => PrimFloat.ltb (arrival_time a) (arrival_time b))
            (tasks (sched w)))),
   set_ticks (ticks w + length (tasks (sched w))) w).
Proof.
  unfold _schedule_fcfs, bind, get_sched. rewrite forM_plain_entry.
  by rewrite py_sorted_length.
Qed.

Lemma schedule_sjf_eq (w : World) :
  _schedule_sjf w =
  (Ok (plain_entries "SJF" (clock w) (ticks w)
         (py_sorted (fun a b => size a <? size b) (tasks (sched w)))),
   set_ticks (ticks w + length (tasks (sched w))) w).
Proof.
  unfold _schedule_sjf, bind, get_sched. rewrite forM_plain_entry.
  by rewrite py_sorted_length.
Qed.

Lemma schedule_tasks_fcfs (fuel : nat) (w : World) :
  algorithm (sched w) = "FCFS" -> schedule_tasks fuel w = _schedule_fcfs w.
Proof. intros H. unfold schedule_tasks, bind, get_sched. by rewrite H. Qed.

Lemma schedule_tasks_sjf (fuel : nat) (w : World) :
  algorithm (sched w) = "SJF" -> schedule_tasks fuel w = _schedule_sjf w.
Proof. intros H. unfold schedule_tasks, bind, get_sched. by rewrite H. Qed.

(** Neither policy touches anything but the clock. *)
Lemma schedule_tasks_plain_frame (fuel : nat) (w : World) :
  algorithm (sched w) = "FCFS" \/ algorithm (sched w) = "SJF" ->
  exists entries,
    schedule_tasks fuel w =
      (Ok entries, set_ticks (ticks w + length (tasks (sched w))) w) /\
    entry_task_id <$> entries ≡ₚ task_id <$> tasks (sched w).
Proof.
  intros [H|H].
  - rewrite schedule_tasks_fcfs, schedule_fcfs_eq by done.
    eexists; split; [done|]. by rewrite plain_entries_ids, py_sorted_perm.
  - rewrite schedule_tasks_sjf, schedule_sjf_eq by done.
    eexists; split; [done|]. by rewrite plain_entries_ids, py_sorted_perm.
Qed.

(** ** Registration *)

(** The task that [add_task] creates at clock reading [k]. *)
Definition new_task (clk : nat -> float) (k : nat) (tid sz : Z) : Task :=
  mkTask tid sz (clk k) None None (PyInt sz).

Definition with_tasks (s : TaskScheduler) (l : list Task) : TaskScheduler :=
  mkTaskScheduler (algorithm s) (time_quantum s) l (completed_tasks s).

Lemma add_task_eq (tid sz : Z) (w : World) :
  add_task tid sz w =
  (Ok tt,
   set_sched (with_tasks (sched w) (tasks (sched w) ++ [new_task (clock w) (ticks w) tid sz]))
     (set_ticks (S (ticks w)) w)).
Proof. done. Qed.

(** ** Registration of the chunks *)

Definition chunk_tasks (clk : nat -> float) (t0 : nat) (chunks : list (Z * bytes))
    : list Task :=
  imap (fun k c => new_task clk (t0 + k) c.1 (Z.of_nat (length c.2))) chunks.

Lemma chunk_tasks_ids clk t0 chunks : task_id <$> chunk_tasks clk t0 chunks = chunks.*1.
Proof.
  unfold chunk_tasks. revert t0. induction chunks as [|c l IH]; intros t0; [done|].
  rewrite imap_cons. csimpl. f_equal.
  rewrite <- (IH (S t0)). f_equal. apply imap_ext. intros k x _. simpl.
  unfold new_task. do 2 f_equal. lia.
Qed.

Lemma register_chunks_eq (chunks : list (Z * bytes)) (w : World) :
  register_chunks chunks w =
  (Ok tt,
   set_sched (with_tasks (sched w)
                (tasks (sched w) ++ chunk_tasks (clock w) (ticks w) chunks))
     (set_ticks (ticks w + length chunks) w)).
Proof.
  unfold register_chunks. revert w. induction chunks as [|c l IH]; intros w.
  - simpl. unfold ret. f_equal. destruct w as [f [a q ts cs] c n e d i tr].
    unfold set_sched, set_ticks, with_tasks; simpl.
    by rewrite app_nil_r, Nat.add_0_r.
  - cbn [for_fold]. unfold bind at 1. rewrite add_task_eq, IH.
    f_equal. destruct w as [f [a q ts cs] ck n e d i tr].
    unfold set_sched, set_ticks, with_tasks, chunk_tasks; simpl.
    rewrite <- app_assoc. simpl. f_equal; [|lia].
    f_equal. f_equal. rewrite Nat.add_0_r. f_equal.
    apply imap_ext. intros k x _. simpl. f_equal. lia.
Qed.

(** ** C8: first come, first served *)

(** The wall clock did not go back between two successive readings among
    the [n] readings that follow reading [t0]. *)
Definition clock_steady (clk : nat -> float) (t0 n : nat) : Prop :=
  forall k, (S k < n)%nat -> PrimFloat.ltb (clk (t0 + S k)%nat) (clk (t0 + k)%nat) = false.

Lemma chunk_tasks_sorted clk t0 chunks :
  clock_steady clk t0 (length chunks) ->
  Sorted (fun a b => PrimFloat.ltb (arrival_time b) (arrival_time a) = false)
    (chunk_tasks clk t0 chunks).
Proof.
  unfold chunk_tasks. revert t0. induction chunks as [|c l IH]; intros t0 Hck; [constructor|].
  rewrite imap_cons. constructor.
  - erewrite imap_ext; [apply (IH (S t0))|].
    + intros k Hk. specialize (Hck (S k)). simpl in Hck.
      rewrite !Nat.add_succ_r in Hck. simpl. rewrite Nat.add_succ_r. apply Hck. lia.
    + intros k x _. simpl. f_equal. lia.
  - destruct l as [|c' l]; [constructor|]. rewrite imap_cons. constructor. simpl.
    specialize (Hck 0%nat). simpl in Hck. rewrite !Nat.add_0_r in *. apply Hck. lia.
Qed.

(** C8.  When the chunks 0..N-1 are registered in this order with a fresh
    FCFS scheduler, and the wall clock does not go back while they are
    registered, [schedule_tasks] returns the dispatch order 0..N-1. *)
Theorem fcfs_dispatch_order (fuel : nat) (w : World) (chunks : list (Z * bytes)) :
  algorithm (sched w) = "FCFS" ->
  tasks (sched w) = [] ->
  chunks.*1 = Z.of_nat <$> seq 0 (length chunks) ->
  clock_steady (clock w) (ticks w) (length chunks) ->
  exists entries w',
    (register_chunks chunks ;;; schedule_tasks fuel) w = (Ok entries, w') /\
    entry_task_id <$> entries = Z.of_nat <$> seq 0 (length chunks).
Proof.
  intros Halg Hfresh Hids Hck.
  unfold bind. rewrite register_chunks_eq.
  rewrite schedule_tasks_fcfs, schedule_fcfs_eq by done.
  do 2 eexists; split; [done|].
  rewrite plain_entries_ids. simpl. rewrite Hfresh. simpl.
  rewrite py_sorted_already by by apply chunk_tasks_sorted.
  by rewrite chunk_tasks_ids.
Qed.

(** ** C7: shortest job first *)

Lemma StronglySorted_fmap_elem {A B : Type} (f : A -> B) (R1 : relation A)
    (R2 : relation B) (l : list A) :
  (forall x y, x ∈ l -> y ∈ l -> R1 x y -> R2 (f x) (f y)) ->
  StronglySorted R1 l -> StronglySorted R2 (f <$> l).
Proof.
  intros Hf Hs. induction Hs as [|x l Hs IH Hx]; csimpl; constructor.
  - apply IH. intros y z Hy Hz. apply Hf; by right.
  - apply Forall_fmap, Forall_forall. intros y Hy. simpl.
    apply Hf; [by left|by right|]. by eapply Forall_forall in Hx.
Qed.

(** Position [i] is served before position [j]: its task is smaller, or
    as large and registered earlier. *)
Definition sjf_precedes (ts : list Task) (i j : nat) : Prop :=
  exists a b, ts !! i = Some a /\ ts !! j = Some b /\
    (size a < size b \/ (size a = size b /\ (i < j)%nat)).

(** The order in which SJF serves the positions of [self.tasks]. *)
Definition sjf_positions (ts : list Task) : list nat :=
  (py_sorted (lt_key size) (indexed ts)).*1.

Lemma sjf_positions_perm ts : sjf_positions ts ≡ₚ seq 0 (length ts).
Proof. unfold sjf_positions. by rewrite py_sorted_perm, indexed_fst. Qed.

Lemma sjf_positions_sorted ts : StronglySorted (sjf_precedes ts) (sjf_positions ts).
Proof.
  unfold sjf_positions.
  apply (StronglySorted_fmap_elem fst (key_then_pos size)).
  - intros p q Hp Hq Hpq. rewrite py_sorted_perm in Hp, Hq.
    exists p.2, q.2. by rewrite !indexed_lookup.
  - apply py_sorted_stable, indexed_positions_sorted.
Qed.

Lemma sjf_positions_tasks ts :
  Forall2 (fun t i => ts !! i = Some t)
    (py_sorted (fun a b => size a <? size b) ts) (sjf_positions ts).
Proof.
  unfold sjf_positions.
  rewrite <- (indexed_snd ts) at 1.
  rewrite <- (py_sorted_map (lt_key size) _ snd) by done.
  apply Forall2_fmap, Forall_Forall2_diag, Forall_forall.
  intros p Hp. rewrite py_sorted_perm in Hp. by apply indexed_lookup.
Qed.

(** C7.  SJF returns the registered tasks by ascending size, tasks of equal
    size in registration order: the positions it serves are a permutation of
    all positions, each one preceding all the later ones in the order
    "smaller, or as large and registered earlier", and the entries carry the
    ids of the tasks at these positions.  Sizes 500, 100, 900 registered in
    this order under the ids 0, 1, 2 are dispatched in the order 1, 0, 2. *)
Theorem sjf_dispatch_order :
  (forall (fuel : nat) (w : World),
     algorithm (sched w) = "SJF" ->
     exists entries w' order,
       schedule_tasks fuel w = (Ok entries, w') /\
       order ≡ₚ seq 0 (length (tasks (sched w))) /\
       StronglySorted (sjf_precedes (tasks (sched w))) order /\
       Forall2 (fun e i => exists t, tasks (sched w) !! i = Some t /\
                                     entry_task_id e = task_id t /\
                                     entry_size e = size t)
         entries order) /\
  (forall (fuel : nat) (w : World),
     algorithm (sched w) = "SJF" ->
     tasks (sched w) = [] ->
     exists entries w',
       (add_task 0 500 ;;; add_task 1 100 ;;; add_task 2 900 ;;; schedule_tasks fuel) w
         = (Ok entries, w') /\
       entry_task_id <$> entries = [1; 0; 2]).
Proof.
  split.
  - intros fuel w Halg.
    rewrite schedule_tasks_sjf, schedule_sjf_eq by done.
    eexists _, _, (sjf_positions (tasks (sched w))).
    split; [done|]. split; [apply sjf_positions_perm|].
    split; [apply sjf_positions_sorted|].
    pose proof (sjf_positions_tasks (tasks (sched w))) as Hts.
    unfold plain_entries. revert Hts. generalize (ticks w) as t0.
    generalize (sjf_positions (tasks (sched w))) as order.
    induction (py_sorted _ _) as [|t l IH]; intros order t0 Hts.
    + apply Forall2_nil_inv_l in Hts as ->. constructor.
    + apply Forall2_cons_inv_l in Hts as (i & order' & Hi & Hts & ->).
      rewrite imap_cons. constructor; [by exists t|].
      erewrite imap_ext; [apply (IH order' (S t0) Hts)|].
      intros k x _. simpl. do 2 f_equal. lia.
  - intros fuel w Halg Hfresh.
    unfold bind. rewrite !add_task_eq.
    rewrite schedule_tasks_sjf, schedule_sjf_eq by done.
    do 2 eexists; split; [done|].
    rewrite plain_entries_ids. simpl. by rewrite Hfresh.
Qed.

(** * Properties of the pipelines *)

(** ** Computations that return *)

(** [m] started in [w] returns a value and a world that satisfy [Q]. *)
Definition returns {A} (m : M A) (w : World) (Q : A -> World -> Prop) : Prop :=
  exists a w', m w = (Ok a, w') /\ Q a w'.

(** What no step of the worker pool changes: the files and the scheduler. *)
Definition same_store (w w' : World) : Prop :=
  fs w' = fs w /\ sched w' = sched w.

Lemma same_store_refl w : same_store w w.
Proof. done. Qed.

Lemma same_store_trans w1 w2 w3 :
  same_store w1 w2 -> same_store w2 w3 -> same_store w1 w3.
Proof. intros [? ?] [? ?]. split; congruence. Qed.

Lemma returns_ret {A} (a : A) w (Q : A -> World -> Prop) :
  Q a w -> returns (ret a) w Q.
Proof. intros HQ. by exists a, w. Qed.

Lemma returns_bind {A B} (m : M A) (k : A -> M B) w (Q : B -> World -> Prop) :
  returns m w (fun a w1 => returns (k a) w1 Q) -> returns (bind m k) w Q.
Proof.
  intros (a & w1 & Hm & b & w2 & Hk & HQ).
  exists b, w2. split; [|done]. by rewrite (bind_ok _ _ _ _ _ Hm).
Qed.

Lemma returns_mono {A} (m : M A) w (Q Q' : A -> World -> Prop) :
  returns m w Q -> (forall a w', Q a w' -> Q' a w') -> returns m w Q'.
Proof. intros (a & w' & Hm & HQ) Himp. exists a, w'. eauto. Qed.

Lemma returns_for_fold {A B} (body : B -> A -> M B) (l : list A)
    (Inv : nat -> B -> World -> Prop) (acc : B) (w : World) :
  (forall k x b w1, l !! k = Some x -> Inv k b w1 ->
     returns (body b x) w1 (Inv (S k))) ->
  Inv 0%nat acc w ->
  returns (for_fold body acc l) w (Inv (length l)).
Proof.
  revert Inv acc w. induction l as [|x l IH]; intros Inv acc w Hstep H0.
  - by apply returns_ret.
  - cbn [for_fold]. apply returns_bind.
    eapply returns_mono; [apply (Hstep 0%nat x acc w); done|].
    intros b w1 H1. apply (IH (fun k => Inv (S k))); [|done].
    intros k y b' w2 Hk. apply (Hstep (S k)). done.
Qed.

Lemma returns_forM {A B} (f : A -> M B) (l : list A) (P : A -> B -> Prop) (w : World) :
  (forall x w1, x ∈ l -> same_store w w1 ->
     returns (f x) w1 (fun y w2 => same_store w1 w2 /\ P x y)) ->
  returns (forM f l) w (fun ys w' => same_store w w' /\ Forall2 P l ys).
Proof.
  revert w. induction l as [|x l IH]; intros w Hf.
  - apply returns_ret. split; [done|constructor].
  - cbn [forM]. apply returns_bind.
    eapply returns_mono; [apply Hf; [by left|done]|].
    intros y w1 [Hs Hy]. apply returns_bind.
    eapply returns_mono.
    + apply IH. intros z w2 Hz Hs2. apply Hf; [by right|].
      by eapply same_store_trans.
    + intros ys w2 [Hs2 Hys]. apply returns_ret.
      split; [by eapply same_store_trans|by constructor].
Qed.

Lemma returns_time_time w (Q : float -> World -> Prop) :
  (forall t w', same_store w w' -> Q t w') -> returns time_time w Q.
Proof. intros HQ. eexists _, _. split; [done|]. by apply HQ. Qed.

Lemma returns_emit e w (Q : unit -> World -> Prop) :
  (forall w', same_store w w' -> Q tt w') -> returns (emit e) w Q.
Proof. intros HQ. eexists _, _. split; [done|]. by apply HQ. Qed.


(** ** One chunk *)

Lemma byte_of_small (z : Z) :
  0 <= z < 256 ->
  exists b, Byte.of_N (Z.to_N z) = Some b /\ Z.of_N (Byte.to_N b) = z.
Proof.
  intros Hz. destruct (Byte.of_N (Z.to_N z)) as [b|] eqn:Hb.
  - exists b. split; [done|]. apply Byte.to_of_N in Hb. lia.
  - apply Byte.of_N_None_iff in Hb. lia.
Qed.

Lemma py_bytes_replicate (n : nat) (z : Z) (b : byte) :
  0 <= z -> Byte.of_N (Z.to_N z) = Some b ->
  py_bytes (replicate n z) = Ok (replicate n b).
Proof.
  intros Hz Hb. induction n as [|n IH]; simpl; [done|].
  destruct (Z.ltb_spec z 0); [lia|]. by rewrite Hb, IH.
Qed.

(** The padding [_encrypt_chunk] appends: [p] bytes of value [p], where
    [p = 16 - len % 16] is between 1 and 16. *)
Definition padding (chunk_data : bytes) : bytes :=
  let p := 16 - Z.of_nat (length chunk_data) mod 16 in
  replicate (Z.to_nat p) (default x00 (Byte.of_N (Z.to_N p))).

Lemma padding_length (chunk_data : bytes) :
  (1 <= length (padding chunk_data) <= 16)%nat /\
  ((length chunk_data + length (padding chunk_data)) mod 16 = 0)%nat.
Proof.
  unfold padding. rewrite length_replicate.
  pose proof (Z.mod_pos_bound (Z.of_nat (length chunk_data)) 16 eq_refl) as Hm.
  split; [lia|].
  apply Nat2Z.inj. rewrite Nat2Z.inj_mod, Nat2Z.inj_add, Z2Nat.id by lia.
  replace (Z.of_nat (length chunk_data) + (16 - Z.of_nat (length chunk_data) mod 16))
    with (Z.of_nat (length chunk_data) - Z.of_nat (length chunk_data) mod 16 + 1 * 16)
    by lia.
  rewrite Z.mod_add by lia.
  rewrite <- Zminus_mod_idemp_l, Z.sub_diag. done.
Qed.

Lemma Cipher_ok (key iv : bytes) :
  length key = 32%nat -> length iv = 16%nat -> Cipher key iv = Ok tt.
Proof. unfold Cipher. by intros -> ->. Qed.

Lemma update_finalize_ok (f : bytes -> bytes) (data : bytes) :
  (length data mod 16 = 0)%nat -> update_finalize f data = Ok (f data).
Proof. unfold update_finalize. by intros ->. Qed.

Section chunk.
Context `{CryptoBackend}.

(** What [_decrypt_chunk] computes; it reads nothing from the world. *)
Definition decrypt_chunk_result (key chunk_data : bytes) : outcome bytes :=
  match Cipher key (take 16 chunk_data) with
  | Ok _ =>
      match update_finalize (aes_cbc_decrypt key (take 16 chunk_data))
              (drop 16 chunk_data) with
      | Ok decrypted_data => remove_padding decrypted_data
      | Raise e => Raise e
      | Stuck s => Stuck s
      end
  | Raise e => Raise e
  | Stuck s => Stuck s
  end.

(** The payload of the result of a chunk: its bytes, or nothing when the
    worker caught an exception. *)
Definition decrypted (key chunk_data : bytes) : option bytes :=
  match decrypt_chunk_result key chunk_data with
  | Ok d => Some d
  | _ => None
  end.

Lemma decrypt_chunk_eq (chunk_data key : bytes) (w : World) :
  _decrypt_chunk chunk_data key w = (decrypt_chunk_result key chunk_data, w).
Proof.
  unfold _decrypt_chunk, decrypt_chunk_result, bind, lift.
  destruct (Cipher key (take 16 chunk_data)); [|done..].
  by destruct (update_finalize _ _).
Qed.

Lemma decrypt_chunk_result_not_stuck (key chunk_data : bytes) (s : stuck) :
  decrypt_chunk_result key chunk_data <> Stuck s.
Proof.
  unfold decrypt_chunk_result, Cipher, update_finalize, remove_padding.
  repeat case_match; congruence.
Qed.


End chunk.

(** ** The worker pool *)

(** The payload of a result: the bytes of a success, nothing for a
    failure. *)
Definition payload (r : WorkResult) : option bytes :=
  match r with
  | Success _ d _ _ _ => Some d
  | Failure _ _ _ => None
  end.

(** The task a worker holds. *)
Definition held_task (s : WorkerState) : option QTask :=
  match s with
  | Working t _ => Some t
  | _ => None
  end.

Definition held (ws : list WorkerState) : list QTask := omap held_task ws.
Definition queued (q : list (option QTask)) : list QTask := omap id q.

Lemma omap_insert_perm {A B} (f : A -> option B) (l : list A) (i : nat) (x y : A) :
  l !! i = Some x ->
  option_list (f x) ++ omap f (<[i := y]> l) ≡ₚ option_list (f y) ++ omap f l.
Proof.
  revert i. induction l as [|a l IH]; intros [|i] Hi; simplify_eq/=.
  - destruct (f x), (f y); simpl; try done. apply Permutation_swap.
  - specialize (IH i Hi).
    destruct (f a); simpl; [|done].
    rewrite <- !Permutation_middle. by constructor.
Qed.

Lemma held_take (ws : list WorkerState) (i : nat) (t : QTask) (st : float) :
  ws !! i = Some Waiting -> held (<[i := Working t st]> ws) ≡ₚ t :: held ws.
Proof. intros Hi. apply (omap_insert_perm held_task _ _ _ (Working t st)) in Hi. done. Qed.

Lemma held_finish (ws : list WorkerState) (i : nat) (t : QTask) (st : float) :
  ws !! i = Some (Working t st) -> t :: held (<[i := Waiting]> ws) ≡ₚ held ws.
Proof. intros Hi. apply (omap_insert_perm held_task _ _ _ Waiting) in Hi. done. Qed.

Lemma held_idle (ws : list WorkerState) :
  Forall (fun s => held_task s = None) ws -> held ws = [].
Proof.
  induction 1 as [|s ws Hs _ IH]; [done|].
  unfold held in *. simpl. by rewrite Hs.
Qed.

Section pool_facts.
Context `{CryptoBackend}.
Variables (operation : string) (key : bytes).

(** [R data out]: [out] is an acceptable payload for the chunk [data]. *)
Variable R : bytes -> option bytes -> Prop.

Definition answers (t : QTask) (r : WorkResult) : Prop :=
  result_chunk_id r = q_chunk_id t /\ R (q_chunk_data t) (payload r).

Hypothesis process_task_spec : forall i t st w,
  returns (process_task operation key i t st) w
    (fun r w' => same_store w w' /\ answers t r).

(** The tasks [q0] that were dispatched are on the queue, in the hands of
    a worker, or answered on the result queue; no worker has left, and no
    sentinel is on the queue. *)
Definition pool_inv (q0 : list QTask) (p : Pool) : Prop :=
  (exists done, Forall2 answers done (result_queue p) /\
                done ++ held (workers p) ++ queued (task_queue p) ≡ₚ q0) /\
  Forall (fun s => s <> Exited) (workers p) /\
  Forall is_Some (task_queue p).

Lemma worker_step_take (i : nat) (p : Pool) (t : QTask) (q : list (option QTask)) w :
  workers p !! i = Some Waiting -> task_queue p = Some t :: q ->
  returns (worker_step operation key i p) w
    (fun p' w' => same_store w w' /\
       exists st, p' = mkPool q (result_queue p) (<[i := Working t st]> (workers p))).
Proof.
  intros Hi Hq. unfold worker_step. rewrite Hi, Hq.
  apply returns_bind, returns_time_time. intros st w' Hs.
  apply returns_ret. eauto.
Qed.

Lemma worker_step_finish (i : nat) (p : Pool) (t : QTask) (st : float) w :
  workers p !! i = Some (Working t st) ->
  returns (worker_step operation key i p) w
    (fun p' w' => same_store w w' /\
       exists r, answers t r /\
         p' = mkPool (task_queue p) (result_queue p ++ [r])
                (<[i := Waiting]> (workers p))).
Proof.
  intros Hi. unfold worker_step. rewrite Hi.
  apply returns_bind. eapply returns_mono; [apply process_task_spec|].
  intros r w' [Hs Hr]. apply returns_ret. eauto.
Qed.

Lemma pool_inv_take q0 p i t q st :
  pool_inv q0 p -> workers p !! i = Some Waiting -> task_queue p = Some t :: q ->
  pool_inv q0 (mkPool q (result_queue p) (<[i := Working t st]> (workers p))).
Proof.
  intros ((done & Hdone & Hperm) & Halive & Htasks) Hi Hq.
  rewrite Hq in Hperm, Htasks. apply Forall_cons in Htasks as [_ Htasks].
  split; [|split]; simpl; [|by apply Forall_insert|done].
  exists done. split; [done|].
  rewrite held_take by done. rewrite <- Hperm.
  unfold queued. simpl. by rewrite <- !Permutation_middle.
Qed.

Lemma pool_inv_finish q0 p i t st r :
  pool_inv q0 p -> workers p !! i = Some (Working t st) -> answers t r ->
  pool_inv q0 (mkPool (task_queue p) (result_queue p ++ [r])
                 (<[i := Waiting]> (workers p))).
Proof.
  intros ((done & Hdone & Hperm) & Halive & Htasks) Hi Hr.
  split; [|split]; simpl; [|by apply Forall_insert|done].
  exists (done ++ [t]). split; [apply Forall2_app; [done|by constructor]|].
  rewrite <- Hperm, <- (held_finish _ _ _ _ Hi).
  rewrite <- !app_assoc. simpl. by rewrite <- !Permutation_middle.
Qed.

(** A move of any worker keeps the invariant and the number of workers. *)
Lemma worker_step_inv q0 (i : nat) (p : Pool) w :
  pool_inv q0 p ->
  returns (worker_step operation key i p) w
    (fun p' w' => same_store w w' /\ pool_inv q0 p' /\
                  length (workers p') = length (workers p)).
Proof.
  intros Hinv.
  destruct (workers p !! i) as [[|t st|]|] eqn:Hi.
  - destruct (task_queue p) as [|[t|] q] eqn:Hq.
    + unfold worker_step. rewrite Hi, Hq. by apply returns_ret.
    + eapply returns_mono; [by apply worker_step_take|].
      intros p' w' (Hs & st & ->). simpl. rewrite length_insert.
      split; [done|]. split; [|done]. by apply pool_inv_take.
    + destruct Hinv as (_ & _ & Htasks). rewrite Hq in Htasks.
      apply Forall_cons in Htasks as [[? ?] _]. done.
  - eapply returns_mono; [by apply (worker_step_finish i p t st)|].
    intros p' w' (Hs & r & Hr & ->). simpl. rewrite length_insert.
    split; [done|]. split; [|done]. by apply (pool_inv_finish q0 p i t st).
  - unfold worker_step. rewrite Hi. by apply returns_ret.
  - unfold worker_step. rewrite Hi. by apply returns_ret.
Qed.
(** The moves chosen by the thread scheduler. *)
Lemma interleaved_steps q0 (choices : list nat) (p : Pool) w :
  pool_inv q0 p ->
  returns (for_fold (fun p i => worker_step operation key i p) p choices) w
    (fun p' w' => same_store w w' /\ pool_inv q0 p' /\
                  length (workers p') = length (workers p)).
Proof.
  intros Hinv.
  apply (returns_for_fold _ _
           (fun _ p' w' => same_store w w' /\ pool_inv q0 p' /\
                           length (workers p') = length (workers p))); [|done].
  intros k i p' w1 _ (Hs & Hinv' & Hlen).
  eapply returns_mono; [by apply worker_step_inv|].
  intros p'' w2 (Hs2 & Hinv2 & Hlen2). split; [by eapply same_store_trans|].
  split; [done|congruence].
Qed.

(** Every worker finishes the task it holds. *)
Lemma finishing_steps q0 (p : Pool) w :
  pool_inv q0 p ->
  returns (for_fold (fun p i =>
                       match workers p !! i with
                       | Some (Working _ _) => worker_step operation key i p
                       | _ => ret p
                       end) p (seq 0 (length (workers p)))) w
    (fun p' w' => same_store w w' /\ pool_inv q0 p' /\
                  length (workers p') = length (workers p) /\
                  Forall (fun s => s = Waiting) (workers p')).
Proof.
  intros Hinv.
  eapply returns_mono.
  - apply (returns_for_fold _ _
             (fun k p' w' => same_store w w' /\ pool_inv q0 p' /\
                length (workers p') = length (workers p) /\
                Forall (fun s => s = Waiting) (take k (workers p')))).
    + intros k i p' w1 [-> Hk]%lookup_seq (Hs & Hinv' & Hlen & Hidle).
      change (0 + k)%nat with k.
      destruct (workers p' !! k) as [s|] eqn:Hi;
        [|apply lookup_ge_None in Hi; lia].
      destruct s as [|t st|].
      * apply returns_ret. do 3 (split; [done|]).
        rewrite (take_S_r _ _ _ Hi). apply Forall_app. by split; [|constructor].
      * eapply returns_mono; [by apply (worker_step_finish k p' t st)|].
        intros p'' w2 (Hs2 & r & Hr & ->). simpl.
        split; [by eapply same_store_trans|].
        split; [by apply (pool_inv_finish q0 p' k t st)|].
        rewrite length_insert. split; [done|].
        erewrite take_S_r; [|apply list_lookup_insert_eq; lia].
        rewrite take_insert. case_decide; [lia|].
        apply Forall_app. by split; [|constructor].
      * destruct Hinv' as (_ & Halive & _).
        rewrite Forall_lookup in Halive. by apply Halive in Hi.
    + do 3 (split; [done|]). constructor.
  - intros p' w' (Hs & Hinv' & Hlen & Hidle). do 3 (split; [done|]).
    rewrite length_seq, <- Hlen, firstn_all in Hidle. done.
Qed.

(** The first worker empties the queue. *)
Lemma draining_steps q0 (p : Pool) w :
  pool_inv q0 p ->
  (0 < length (workers p))%nat ->
  Forall (fun s => s = Waiting) (workers p) ->
  returns (for_fold (fun p _ => p' <- worker_step operation key 0 p ;;
                                worker_step operation key 0 p')
             p (task_queue p)) w
    (fun p' w' => same_store w w' /\ pool_inv q0 p' /\
                  workers p' = workers p /\ task_queue p' = []).
Proof.
  intros Hinv Hlen Hidle.
  assert (workers p !! 0%nat = Some Waiting) as H0.
  { destruct (workers p) as [|s ws]; [simpl in Hlen; lia|].
    apply Forall_cons in Hidle as [-> _]. done. }
  eapply returns_mono.
  - apply (returns_for_fold _ _
             (fun k p' w' => same_store w w' /\ pool_inv q0 p' /\
                workers p' = workers p /\ task_queue p' = drop k (task_queue p))).
    + intros k x p' w1 Hk (Hs & Hinv' & Hws & Hq).
      rewrite (drop_S _ _ _ Hk) in Hq.
      assert (exists t, x = Some t) as [t ->].
      { destruct Hinv' as (_ & _ & Htasks). rewrite Hq in Htasks.
        by apply Forall_cons in Htasks as [[t ->] _]; exists t. }
      apply returns_bind.
      eapply returns_mono;
        [apply (worker_step_take 0 p' t (drop (S k) (task_queue p))); congruence|].
      intros p1 w2 (Hs2 & st & ->).
      eapply returns_mono.
      { apply (worker_step_finish 0 _ t st). cbn [workers].
        apply list_lookup_insert_eq. rewrite Hws. done. }
      intros p2 w3 (Hs3 & r & Hr & ->). cbn [task_queue result_queue workers].
      assert (<[0%nat:=Waiting]> (<[0%nat:=Working t st]> (workers p')) = workers p)
        as Hback.
      { rewrite list_insert_insert_eq, Hws. by apply list_insert_id. }
      split; [eauto using same_store_trans|].
      split; [|by rewrite Hback].
      apply (pool_inv_finish q0 (mkPool _ _ _) 0 t st);
        cbn [task_queue result_queue workers]; [| |done].
      * apply pool_inv_take; [done|by rewrite Hws|done].
      * apply list_lookup_insert_eq. rewrite Hws. done.
    + by do 3 (split; [done|]).
  - intros p' w' (Hs & Hinv' & Hws & Hq). do 3 (split; [done|]).
    by rewrite Hq, drop_all.
Qed.

(** Whatever the interleaving, when the workers are through, every task
    that was dispatched has been answered on the result queue, once. *)
Lemma run_workers_spec q0 (p : Pool) w :
  pool_inv q0 p ->
  (0 < length (workers p))%nat ->
  returns (run_workers operation key p) w
    (fun p' w' => same_store w w' /\
       length (workers p') = length (workers p) /\
       Forall (fun s => s = Waiting) (workers p') /\
       exists done, Forall2 answers done (result_queue p') /\ done ≡ₚ q0).
Proof.
  intros Hinv Hlen. unfold run_workers.
  apply returns_bind. eexists _, _. split; [done|].
  apply returns_bind.
  eapply returns_mono; [by apply (interleaved_steps q0)|].
  intros p1 w1 (Hs1 & Hinv1 & Hlen1).
  apply returns_bind.
  eapply returns_mono; [by apply (finishing_steps q0)|].
  intros p2 w2 (Hs2 & Hinv2 & Hlen2 & Hidle2).
  eapply returns_mono; [apply (draining_steps q0); [done|lia|done]|].
  intros p3 w3 (Hs3 & ((done & Hdone & Hperm) & _ & _) & Hws3 & Hq3).
  split.
  { eapply same_store_trans; [|exact Hs3].
    eapply same_store_trans; [|exact Hs2].
    eapply same_store_trans; [|exact Hs1]. done. }
  rewrite Hws3. split; [lia|]. split; [done|].
  exists done. split; [done|].
  rewrite Hq3, Hws3, held_idle in Hperm.
  - by rewrite !app_nil_r in Hperm.
  - eapply Forall_impl; [exact Hidle2|]. by intros s ->.
Qed.
End pool_facts.

(** ** One task in a worker *)


Section process_task_facts.
Context `{CryptoBackend}.

(** A decryption worker answers a chunk with its plaintext, or with a
    failure when [_decrypt_chunk] raises. *)
Lemma process_task_decrypt (key : bytes) (i : nat) (t : QTask) (st : float) w :
  returns (process_task "decrypt" key i t st) w
    (fun r w' => same_store w w' /\
       answers (fun data out => out = decrypted key data) t r).
Proof.
  unfold process_task. change (String.eqb "decrypt" "encrypt") with false. cbv iota.
  apply returns_bind, returns_emit. intros w1 Hs1.
  unfold returns, try_except, bind. rewrite decrypt_chunk_eq. unfold decrypted.
  destruct (decrypt_chunk_result key (q_chunk_data t)) as [d|e|s] eqn:Hd.
  - eexists _, _. split; [done|]. split.
    + eapply same_store_trans; [exact Hs1|done].
    + unfold answers. simpl. by rewrite Hd.
  - eexists _, _. split; [done|]. split; [done|].
    unfold answers. simpl. by rewrite Hd.
  - by apply decrypt_chunk_result_not_stuck in Hd.
Qed.

End process_task_facts.

(** ** Dispatch and collection *)

(** The chunk ids are 0, 1, 2, ... in list order. *)
Definition well_numbered (chunks : list (Z * bytes)) : Prop :=
  chunks.*1 = Z.of_nat <$> seq 0 (length chunks).

(** A task on the queue carries the id and the bytes of one of the chunks. *)
Definition from_chunks (chunks : list (Z * bytes)) (t : QTask) : Prop :=
  exists k, q_chunk_id t = Z.of_nat k /\
            chunks !! k = Some (q_chunk_id t, q_chunk_data t).

Lemma well_numbered_lookup chunks (k : nat) c :
  well_numbered chunks -> chunks !! k = Some c -> c.1 = Z.of_nat k.
Proof.
  intros Hn Hk. assert (chunks.*1 !! k = Some c.1) as Hk1.
  { by rewrite list_lookup_fmap, Hk. }
  rewrite Hn, list_lookup_fmap in Hk1.
  destruct (seq 0 (length chunks) !! k) as [j|] eqn:Hj; simplify_eq/=.
  apply lookup_seq in Hj as [-> _]. done.
Qed.

Lemma well_numbered_elem chunks (i : Z) :
  well_numbered chunks -> i ∈ chunks.*1 ->
  exists k c, i = Z.of_nat k /\ chunks !! k = Some c /\ c.1 = i.
Proof.
  intros Hn [c [-> [k Hk]%list_elem_of_lookup]]%list_elem_of_fmap.
  exists k, c. split; [by eapply well_numbered_lookup|done].
Qed.

Lemma py_index_nat {A} (l : list A) (k : nat) (x : A) :
  l !! k = Some x -> py_index l (Z.of_nat k) = Ok x.
Proof.
  intros Hk. unfold py_index.
  assert ((Z.of_nat k <? 0) = false) as Hf by (apply Z.ltb_ge; lia).
  rewrite Hf. cbv zeta. by rewrite Hf, Nat2Z.id, Hk.
Qed.

Lemma start_workers_spec (max_workers : Z) w :
  returns (start_workers max_workers) w
    (fun ws w' => same_store w w' /\ ws = replicate (Z.to_nat max_workers) Waiting).
Proof.
  unfold start_workers. eapply returns_mono.
  - apply (returns_forM _ _ (fun _ s => s = Waiting)).
    intros i w1 _ _. apply returns_bind, returns_emit. intros w2 Hs.
    by apply returns_ret.
  - intros ws w' [Hs Hws]. split; [done|].
    symmetry. apply replicate_as_Forall. split.
    + apply Forall2_length in Hws. by rewrite length_seq in Hws.
    + clear Hs. induction Hws as [|i s l ws -> _ IH]; by constructor.
Qed.

Lemma shutdown_spec (p : Pool) w :
  returns (shutdown p) w (fun _ w' => same_store w w').
Proof.
  unfold shutdown. eapply returns_mono.
  - apply (returns_for_fold _ _ (fun _ _ w' => same_store w w')); [|done].
    intros k i [] w1 _ Hs.
    destruct (workers p !! i) as [[| |]|].
    + apply returns_emit. intros w2 Hs2. by eapply same_store_trans.
    + apply returns_emit. intros w2 Hs2. by eapply same_store_trans.
    + by apply returns_ret.
    + by apply returns_ret.
  - by intros [].
Qed.

Lemma dispatch_spec (chunks : list (Z * bytes)) (entries : list Entry) w :
  well_numbered chunks ->
  (forall e, e ∈ entries -> entry_task_id e ∈ chunks.*1) ->
  returns (dispatch chunks entries) w
    (fun q w' => same_store w w' /\
       exists ts, q = Some <$> ts /\
         q_chunk_id <$> ts = entry_task_id <$> entries /\
         Forall (from_chunks chunks) ts).
Proof.
  intros Hn Hids. unfold dispatch. eapply returns_mono.
  - apply (returns_for_fold _ _
             (fun k q w' => same_store w w' /\
                exists ts, q = Some <$> ts /\
                  q_chunk_id <$> ts = entry_task_id <$> take k entries /\
                  Forall (from_chunks chunks) ts)).
    + intros k e q w1 Hk (Hs & ts & -> & Hts & Hfrom).
      destruct (well_numbered_elem chunks (entry_task_id e) Hn) as (j & c & Hj & Hc & Hc1).
      { apply Hids. by eapply list_elem_of_lookup_2. }
      unfold bind at 1, lift. rewrite Hj, (py_index_nat _ _ _ Hc), <- Hj.
      apply returns_bind, returns_time_time. intros now w2 Hs2.
      apply returns_bind, returns_emit. intros w3 Hs3.
      apply returns_ret. split; [eauto using same_store_trans|].
      exists (ts ++ [mkQTask (entry_task_id e) c.2 now]).
      split; [by rewrite fmap_app|].
      split.
      * rewrite (take_S_r _ _ _ Hk), !fmap_app, Hts. done.
      * apply Forall_app. split; [done|]. constructor; [|done].
        exists j. simpl. split; [done|]. rewrite Hc, <- Hc1. by destruct c.
    + split; [done|]. by exists [].
  - intros q w' (Hs & ts & -> & Hts & Hfrom). split; [done|].
    exists ts. by rewrite firstn_all in Hts.
Qed.

Lemma collect_fold_other st (rs : list WorkResult) acc (i : Z) :
  i ∉ result_chunk_id <$> rs ->
  (foldl (collect_result st) acc rs).1 !! i = acc.1 !! i.
Proof.
  revert acc. induction rs as [|r rs IH]; intros acc Hi; [done|].
  rewrite fmap_cons, not_elem_of_cons in Hi. destruct Hi as [Hne Hi].
  simpl. rewrite IH by done.
  destruct r; simpl in *; [|done]. by rewrite lookup_insert_ne.
Qed.

(** When no chunk is answered twice, the dictionary built by the loop
    holds, for every result, exactly its payload. *)
Lemma collect_fold_lookup st (rs : list WorkResult) acc (r : WorkResult) :
  NoDup (result_chunk_id <$> rs) ->
  (forall i, i ∈ result_chunk_id <$> rs -> acc.1 !! i = None) ->
  r ∈ rs ->
  (foldl (collect_result st) acc rs).1 !! result_chunk_id r = payload r.
Proof.
  revert acc. induction rs as [|r0 rs IH]; intros acc Hnd Hacc Hr.
  { by apply elem_of_nil in Hr. }
  rewrite fmap_cons in Hnd. apply NoDup_cons in Hnd as [Hr0 Hnd].
  apply elem_of_cons in Hr as [->|Hr]; simpl.
  - rewrite collect_fold_other by done.
    destruct r0; simpl.
    + by rewrite lookup_insert_eq.
    + apply Hacc. rewrite fmap_cons. by left.
  - apply IH; [done| |done].
    intros i Hi. destruct r0; simpl.
    + rewrite lookup_insert_ne; [|intros <-; done].
      apply Hacc. rewrite fmap_cons. by right.
    + apply Hacc. rewrite fmap_cons. by right.
Qed.

Lemma queued_fmap_Some (ts : list QTask) : queued (Some <$> ts) = ts.
Proof. unfold queued. induction ts as [|t ts IH]; [done|]. csimpl. by rewrite IH. Qed.

(** ** A whole run under FCFS or SJF *)

Section run_scheduled_facts.
Context `{CryptoBackend}.
Variables (operation : string) (key : bytes).
Variable R : bytes -> option bytes -> Prop.

Hypothesis process_task_spec : forall i t st w,
  returns (process_task operation key i t st) w
    (fun r w' => same_store w w' /\ answers R t r).

Lemma answers_ids (done : list QTask) (rs : list WorkResult) :
  Forall2 (answers R) done rs -> result_chunk_id <$> rs = q_chunk_id <$> done.
Proof. induction 1 as [|t r done rs [Hid _] _ IH]; [done|]. csimpl. by rewrite Hid, IH. Qed.

(** With a fresh FCFS or SJF scheduler and at least one worker, the run
    returns, whatever the interleaving of the workers, and the dictionary
    of results holds for every chunk the payload of its single result. *)
Lemma run_scheduled_spec (fuel : nat) (max_workers : Z) (chunks : list (Z * bytes)) w :
  algorithm (sched w) = "FCFS" \/ algorithm (sched w) = "SJF" ->
  task_id <$> tasks (sched w) = chunks.*1 ->
  well_numbered chunks ->
  1 <= max_workers ->
  returns (run_scheduled fuel operation key max_workers chunks) w
    (fun res w' => same_store w w' /\
       forall k c, chunks !! k = Some c -> R c.2 (res.1 !! Z.of_nat k)).
Proof.
  intros Halg Htasks Hn Hw. unfold run_scheduled.
  apply returns_bind. eapply returns_mono; [apply start_workers_spec|].
  intros ws w1 [Hs1 ->].
  destruct (schedule_tasks_plain_frame fuel w1) as (entries & Hsched & Hperm).
  { destruct Hs1 as [_ ->]. done. }
  destruct Hs1 as [Hfs1 Hsc1]. rewrite Hsc1, Htasks in Hperm.
  apply returns_bind. eexists _, _. split; [exact Hsched|].
  apply returns_bind, returns_time_time. intros start w2 Hs2.
  apply returns_bind. eapply returns_mono.
  { apply dispatch_spec; [done|]. intros e He. rewrite <- Hperm.
    by apply list_elem_of_fmap_2. }
  intros q w3 (Hs3 & ts & -> & Hts & Hfrom).
  apply returns_bind. eapply returns_mono.
  { apply (run_workers_spec operation key R process_task_spec ts).
    - split; [|split]; cbn [task_queue result_queue workers].
      + exists []. split; [constructor|].
        rewrite held_idle, queued_fmap_Some; [done|]. by apply Forall_replicate.
      + by apply Forall_replicate.
      + apply Forall_fmap, Forall_true. by eexists.
    - cbn [workers]. rewrite length_replicate. lia. }
  intros p w4 (Hs4 & _ & _ & done & Hdone & Hdperm).
  assert (result_chunk_id <$> result_queue p ≡ₚ chunks.*1) as Hids.
  { rewrite (answers_ids _ _ Hdone), Hdperm, Hts. done. }
  assert (length (result_queue p) = length chunks) as Hlen.
  { rewrite <- (length_fmap result_chunk_id), Hids. by rewrite length_fmap. }
  apply returns_bind. unfold collect. rewrite Hlen, Nat.ltb_irrefl.
  apply returns_ret.
  apply returns_bind. eapply returns_mono; [apply shutdown_spec|].
  intros [] w5 Hs5. apply returns_ret.
  split.
  { assert (same_store w w1) as Hs1 by done.
    assert (same_store w1 (set_ticks (ticks w1 + length (tasks (sched w1))) w1))
      as Hs1' by done.
    eauto 10 using same_store_trans. }
  intros k c Hk.
  rewrite <- Hlen, firstn_all.
  assert (Z.of_nat k ∈ q_chunk_id <$> done) as [t [Hid Ht]]%list_elem_of_fmap.
  { rewrite <- (answers_ids _ _ Hdone), Hids.
    rewrite <- (well_numbered_lookup _ _ _ Hn Hk). apply list_elem_of_fmap_2.
    by eapply list_elem_of_lookup_2. }
  assert (q_chunk_data t = c.2) as Hdata.
  { rewrite Hdperm in Ht. rewrite Forall_forall in Hfrom.
    destruct (Hfrom t Ht) as (k' & Hk' & Hc).
    assert (k' = k) as -> by lia. rewrite Hk in Hc. by simplify_eq. }
  apply list_elem_of_lookup in Ht as [j Hj].
  destruct (Forall2_lookup_l _ _ _ _ _ Hdone Hj) as (r & Hr & Hrid & Hrr).
  rewrite Hid, <- Hrid, <- Hdata.
  rewrite collect_fold_lookup; [done| | |by eapply list_elem_of_lookup_2].
  - rewrite Hids, Hn. apply NoDup_fmap_2; [apply _|apply NoDup_seq].
  - intros i _. apply lookup_empty.
Qed.
End run_scheduled_facts.

(** ** Files *)


Lemma open_wb_eq path w :
  writable w path ->
  open_wb path w = (Ok tt, set_fs (<[path := []]> (fs w)) w).
Proof. intros Hopen. unfold open_wb. by rewrite bool_decide_true. Qed.


Lemma returns_open_wb path w (Q : unit -> World -> Prop) :
  writable w path ->
  (forall w', fs w' = <[path := []]> (fs w) -> sched w' = sched w -> Q tt w') ->
  returns (open_wb path) w Q.
Proof.
  intros Hopen HQ. eexists _, _. split; [by apply open_wb_eq|]. by apply HQ.
Qed.

Lemma returns_file_write path data old w (Q : unit -> World -> Prop) :
  fs w !! path = Some old ->
  (forall w', fs w' = <[path := old ++ data]> (fs w) -> sched w' = sched w -> Q tt w') ->
  returns (file_write path data) w Q.
Proof.
  intros Hold HQ. eexists _, _. split; [done|]. apply HQ; [|done].
  simpl. by rewrite Hold.
Qed.

(** The loop that writes the results in chunk-id order, for a body that
    writes [frame i d] for the result [d] of chunk [i] and nothing for a
    missing result. *)
Lemma write_loop_spec (path : string) (lookup_result : nat -> option bytes)
    (body : bytes -> M unit) (frame : bytes -> bytes) (n : nat) (base : bytes)
    (m : gmap string bytes) w :
  fs w = <[path := base]> m ->
  (forall i d old w1 (Q : unit -> World -> Prop),
     (i < n)%nat -> lookup_result i = Some d -> fs w1 !! path = Some old ->
     (forall w2, fs w2 = <[path := old ++ frame d]> (fs w1) -> sched w2 = sched w1 ->
                 Q tt w2) ->
     returns (body d) w1 Q) ->
  returns (for_fold (fun _ i => match lookup_result i with
                                | Some d => body d
                                | None => ret tt
                                end) tt (seq 0 n)) w
    (fun _ w' =>
       fs w' = <[path := base ++ concat ((fun i => from_option frame [] (lookup_result i))
                                           <$> seq 0 n)]> m /\
       sched w' = sched w).
Proof.
  intros Hfs Hbody. eapply returns_mono.
  - apply (returns_for_fold _ _
             (fun k _ w' =>
                fs w' = <[path := base ++ concat ((fun i => from_option frame []
                                                     (lookup_result i)) <$> seq 0 k)]> m /\
                sched w' = sched w)).
    + intros k i [] w1 [-> Hk]%lookup_seq [Hfs1 Hsc1]. change (0 + k)%nat with k.
      rewrite seq_S, fmap_app, concat_app. simpl. rewrite app_nil_r, app_assoc.
      destruct (lookup_result k) as [d|] eqn:Hd; simpl.
      * eapply Hbody; [done..| |].
        { rewrite Hfs1. apply lookup_insert_eq. }
        intros w2 Hfs2 Hsc2. split; [|congruence].
        by rewrite Hfs2, Hfs1, insert_insert_eq.
      * apply returns_ret. by rewrite app_nil_r.
    + simpl. by rewrite app_nil_r.
  - intros [] w'. by rewrite length_seq.
Qed.

Lemma fmap_seq_by_lookup {A B} (l : list A) (f : nat -> B) (g : A -> B) :
  (forall k x, l !! k = Some x -> f k = g x) ->
  f <$> seq 0 (length l) = g <$> l.
Proof.
  intros Hfg. apply list_eq. intros k. rewrite !list_lookup_fmap.
  destruct (l !! k) as [x|] eqn:Hk; simpl.
  - rewrite (proj2 (lookup_seq 0 (length l) k k)); simpl.
    + f_equal. by apply Hfg.
    + split; [done|]. by eapply lookup_lt_Some.
  - rewrite (proj2 (lookup_ge_None (seq 0 (length l)) k)); [done|].
    rewrite length_seq. by apply lookup_ge_None.
Qed.

(** ** Reading *)

(** For a count that is not negative, [f.read] returns and [read_n] is what
    it returns; the counts that [int.from_bytes] decodes are of this kind. *)
Lemma file_read_count (n : Z) (rest : bytes) :
  0 <= n -> file_read n rest = Ok (read_n (Z.to_nat n) rest).
Proof.
  intros Hn. unfold file_read.
  destruct (Z.ltb_spec n (-1)); [lia|]. by destruct (Z.ltb_spec n 0); [lia|].
Qed.

Lemma from_bytes_nonneg (b : bytes) : 0 <= from_bytes b.
Proof.
  unfold from_bytes.
  enough (forall acc, 0 <= acc ->
            0 <= foldl (fun acc x => acc * 256 + Z.of_N (Byte.to_N x)) acc b) as Hall
    by by apply Hall.
  induction b as [|x b IH]; intros acc Hacc; [done|].
  simpl. apply IH. pose proof (N2Z.is_nonneg (Byte.to_N x)). lia.
Qed.

(** ** Decryption of a file *)

Lemma read_frames_length (count : nat) (i : Z) (rest : bytes) :
  length (read_frames count i rest) = count.
Proof.
  revert i rest. induction count as [|n IH]; intros i rest; [done|].
  cbn [read_frames read_n]. simpl. by rewrite IH.
Qed.

Lemma read_frames_ids (count : nat) (i : Z) (rest : bytes) :
  (read_frames count i rest).*1 = (fun k => i + Z.of_nat k) <$> seq 0 count.
Proof.
  revert i rest. induction count as [|n IH]; intros i rest; [done|].
  cbn [read_frames read_n].
  rewrite fmap_cons, IH. cbn [seq]. rewrite fmap_cons, <- fmap_S_seq, <- list_fmap_compose.
  f_equal; [simpl; lia|]. apply list_fmap_ext. intros _ k _. simpl. lia.
Qed.

Lemma read_frames_well_numbered (count : nat) (rest : bytes) :
  well_numbered (read_frames count 0 rest).
Proof. unfold well_numbered. by rewrite read_frames_ids, read_frames_length. Qed.

(** The frames of an encrypted file, as [decrypt_file_parallel] reads
    them after the salt. *)
Definition parse_frames (data : bytes) : list (Z * bytes) :=
  read_frames (Z.to_nat (from_bytes (take 4 (drop 16 data)))) 0 (drop 4 (drop 16 data)).

Section decrypt_facts.
Context `{CryptoBackend}.

(** What a decryption run writes: the plaintexts of the frames that
    decrypt, in frame order; a frame whose worker failed contributes
    nothing. *)
Definition decrypted_output (key : bytes) (chunks : list (Z * bytes)) : bytes :=
  concat ((fun c => default [] (decrypted key c.2)) <$> chunks).

Lemma decrypt_file_parallel_spec (fuel : nat) (input_file password : string)
    (chunk_size max_workers : Z) (data : bytes) w :
  fs w !! input_file = Some data ->
  algorithm (sched w) = "FCFS" \/ algorithm (sched w) = "SJF" ->
  tasks (sched w) = [] ->
  1 <= max_workers ->
  writable w (decrypted_name input_file) ->
  returns (decrypt_file_parallel fuel input_file password chunk_size max_workers) w
    (fun res w' =>
       res.1.1 = decrypted_name input_file /\
       res.2 = length (parse_frames data) /\
       fs w' = <[decrypted_name input_file :=
                   decrypted_output (_derive_key password (take 16 data))
                     (parse_frames data)]> (fs w)).
Proof.
  intros Hin Halg Hfresh Hw Hout. unfold decrypt_file_parallel.
  apply returns_bind. exists data, w. split; [unfold read_file; by rewrite Hin|].
  unfold read_n. cbv iota beta.
  fold (parse_frames data).
  set (key := _derive_key password (take 16 data)).
  set (chunks := parse_frames data).
  apply returns_bind. eexists _, _. split; [apply register_chunks_eq|].
  apply returns_bind. eapply returns_mono.
  { apply (run_scheduled_spec "decrypt" key (fun d out => out = decrypted key d)).
    - intros. apply process_task_decrypt.
    - exact Halg.
    - cbn [sched set_sched with_tasks tasks].
      rewrite Hfresh, app_nil_l. apply chunk_tasks_ids.
    - apply read_frames_well_numbered.
    - done. }
  intros [results gantt] w2 [[Hfs2 _] Hres]. simpl in Hfs2, Hres.
  apply returns_bind, returns_open_wb; [unfold writable; by rewrite Hfs2|].
  intros w3 Hfs3 _.
  apply returns_bind. eapply returns_mono.
  { apply (write_loop_spec (decrypted_name input_file)
             (fun i => results !! Z.of_nat i)
             (file_write (decrypted_name input_file)) id _ [] (fs w)).
    - by rewrite Hfs3, Hfs2.
    - intros i d old w4 Q _ _ Hold HQ. by apply (returns_file_write _ _ old). }
  intros [] w4 [Hfs4 _]. apply returns_ret. simpl.
  split; [done|]. split; [done|].
  rewrite Hfs4, app_nil_l. f_equal. unfold decrypted_output. f_equal.
  apply fmap_seq_by_lookup. intros k c Hk. by rewrite (Hres k c Hk).
Qed.
End decrypt_facts.

(** ** The four-byte integers of the file format *)

(** The four bytes of [n], or nothing when [n] does not fit. *)
Definition be32 (n : Z) : bytes :=
  match to_bytes4 n with
  | Ok b => b
  | _ => []
  end.


(** ** Splitting the input *)

Lemma read_chunks_loop_spec (turns : nat) (chunk_size : Z) (rest : bytes) (i : Z) :
  0 < chunk_size -> (length rest < turns)%nat ->
  exists chunks,
    read_chunks_loop turns chunk_size rest i = Ok chunks /\
    concat chunks.*2 = rest /\
    chunks.*1 = (fun k => i + Z.of_nat k) <$> seq 0 (length chunks) /\
    Forall (fun c => (1 <= length c.2 <= length rest)%nat /\
                     Z.of_nat (length c.2) <= chunk_size) chunks /\
    (length chunks <= length rest)%nat /\
    (rest <> [] -> chunks <> []).
Proof.
  intros Hcs. revert rest i. induction turns as [|t IH]; intros rest i Hlen; [lia|].
  cbn [read_chunks_loop]. unfold file_read, read_n.
  destruct (Z.ltb_spec chunk_size (-1)); [lia|].
  destruct (Z.ltb_spec chunk_size 0); [lia|].
  set (n := Z.to_nat chunk_size). assert (1 <= n)%nat as Hn by lia.
  destruct (take n rest) as [|b bs] eqn:Ht.
  - assert (rest = []) as ->.
    { destruct rest; [done|]. destruct n; [lia|]. done. }
    exists []. repeat split; (done || constructor).
  - assert (rest <> []) as Hne by (intros ->; by rewrite take_nil in Ht).
    assert (1 <= length rest)%nat as Hpos by (destruct rest; [done|simpl; lia]).
    destruct (IH (drop n rest) (i + 1)) as (chunks & -> & Hcat & Hids & Hall & Hle & _).
    { rewrite length_drop. lia. }
    rewrite length_drop in Hall, Hle.
    assert (length (b :: bs) <= n /\ length (b :: bs) <= length rest)%nat as [Hb1 Hb2].
    { rewrite <- Ht, length_take. lia. }
    eexists. split; [done|].
    split; [|split; [|split; [|split]]].
    + rewrite fmap_cons, concat_cons, Hcat. cbn [snd]. rewrite <- Ht. apply take_drop.
    + rewrite fmap_cons, Hids. cbn [length seq fst].
      rewrite fmap_cons, <- fmap_S_seq, <- list_fmap_compose.
      f_equal; [lia|]. apply list_fmap_ext. intros _ k _. simpl. lia.
    + constructor.
      * cbn [snd]. split; [simpl in *; lia|lia].
      * eapply Forall_impl; [exact Hall|]. intros c [? ?]. split; lia.
    + cbn [length]. lia.
    + done.
Qed.

(** For a positive chunk size the split returns: the chunks are numbered
    from 0, none is empty or longer than the chunk size, and together they
    are the input. *)
Lemma read_chunks_spec (chunk_size : Z) (data : bytes) :
  0 < chunk_size ->
  exists chunks,
    read_chunks chunk_size data = Ok chunks /\
    concat chunks.*2 = data /\
    well_numbered chunks /\
    Forall (fun c => (1 <= length c.2 <= length data)%nat /\
                     Z.of_nat (length c.2) <= chunk_size) chunks /\
    (length chunks <= length data)%nat /\
    (data <> [] -> chunks <> []).
Proof.
  intros Hcs. unfold read_chunks, well_numbered.
  destruct (read_chunks_loop_spec (S (length data)) chunk_size data 0 Hcs)
    as (chunks & Hread & Hcat & Hids & Hall & Hle & Hne); [lia|].
  exists chunks. repeat split; done.
Qed.


(** A chunk size below [-1] is refused by the first read. *)
Lemma read_chunks_refused (chunk_size : Z) (data : bytes) :
  chunk_size < -1 ->
  read_chunks chunk_size data =
    Raise (ValueError "read length must be non-negative or -1").
Proof.
  intros Hcs. unfold read_chunks. cbn [read_chunks_loop]. unfold file_read.
  by destruct (Z.ltb_spec chunk_size (-1)); [|lia].
Qed.

(** ** Encryption of a file *)

Section encrypt_facts.
Context `{CryptoBackend}.


(** The layout of an encrypted file. *)
Definition encode_file (salt : bytes) (frames : list bytes) : bytes :=
  salt ++ be32 (Z.of_nat (length frames)) ++
  concat ((fun f => be32 (Z.of_nat (length f)) ++ f) <$> frames).





End encrypt_facts.

(** ** Reading back what encryption wrote *)






Section round_trip_facts.
Context `{CryptoBackend}.


End round_trip_facts.

(** ** An empty input *)

Section empty_input_facts.
Context `{CryptoBackend}.


(** A chunk size below [-1] makes the first read raise, whatever the file
    holds. *)
Lemma encrypt_refused_chunk_size (fuel : nat) (input_file password : string)
    (chunk_size max_workers : Z) (data : bytes) (w : World) :
  fs w !! input_file = Some data ->
  chunk_size < -1 ->
  encrypt_file_parallel fuel input_file password chunk_size max_workers w =
    (Raise (ValueError "read length must be non-negative or -1"),
     set_draws (S (draws w)) w).
Proof.
  intros Hin Hcs. unfold encrypt_file_parallel, bind, token_bytes, read_file, lift. simpl.
  by rewrite Hin, read_chunks_refused.
Qed.
End empty_input_facts.

(** ** C1: round trip *)

(** The scheduler dispatches by FCFS or by SJF. *)
Definition plain_policy (s : TaskScheduler) : Prop :=
  algorithm s = "FCFS" \/ algorithm s = "SJF".

Section claims.
Context `{CryptoBackend}.

End claims.

(** * A reference backend and concrete runs *)

(** A stand-in for the cryptography library that meets the contract of
    [CryptoBackend]: the key is the password and salt cut or zero-filled to
    the length asked, and the cipher rotates every byte by an amount drawn
    from the key and the IV.  It makes the pipelines computable, so that
    concrete runs can be evaluated. *)
Definition rotate_byte (n : N) (b : byte) : byte :=
  default x00 (Byte.of_N ((Byte.to_N b + n) mod 256)).

Definition rotation (key iv : bytes) : N :=
  (foldr (fun b acc => Byte.to_N b + acc) 0 (key ++ iv) mod 256)%N.

Lemma rotate_byte_back (n : N) (b : byte) :
  (n < 256)%N -> rotate_byte (256 - n) (rotate_byte n b) = b.
Proof.
  intros Hn. unfold rotate_byte.
  pose proof (Byte.to_N_bounded b) as Hb.
  destruct (Byte.of_N ((Byte.to_N b + n) mod 256)) as [c|] eqn:Hc.
  2:{ apply Byte.of_N_None_iff in Hc.
      pose proof (N.mod_upper_bound (Byte.to_N b + n) 256). lia. }
  apply Byte.to_of_N in Hc. simpl. rewrite Hc.
  replace (((Byte.to_N b + n) mod 256 + (256 - n)) mod 256)%N with (Byte.to_N b).
  { by rewrite Byte.of_to_N. }
  destruct (decide (Byte.to_N b + n < 256)%N).
  - rewrite (N.mod_small (_ + n)) by lia.
    replace (Byte.to_N b + n + (256 - n))%N with (Byte.to_N b + 1 * 256)%N by lia.
    rewrite N.Div0.mod_add. rewrite N.mod_small; lia.
  - replace ((Byte.to_N b + n) mod 256)%N with (Byte.to_N b + n - 256)%N.
    + rewrite N.mod_small; lia.
    + replace (Byte.to_N b + n)%N with ((Byte.to_N b + n - 256) + 1 * 256)%N at 2 by lia.
      rewrite N.Div0.mod_add. rewrite N.mod_small; lia.
Qed.

#[refine] Instance reference_backend : CryptoBackend := {|
  pbkdf2_hmac_sha256 password salt iterations len :=
    take len (password ++ salt ++ replicate len x00);
  aes_cbc_encrypt key iv data := rotate_byte (rotation key iv) <$> data;
  aes_cbc_decrypt key iv data := rotate_byte (256 - rotation key iv) <$> data
|}.
Proof.
  - intros. rewrite length_take, !length_app, length_replicate. lia.
  - intros. by rewrite length_fmap.
  - intros. by rewrite length_fmap.
  - intros key iv data _ _ _. rewrite <- list_fmap_compose.
    rewrite <- (list_fmap_id data) at 2.
    apply list_fmap_ext. intros _ b _. simpl. apply rotate_byte_back.
    unfold rotation. by apply N.mod_upper_bound.
Defined.

(** A world for concrete runs: the clock advances by one second at every
    reading, every draw of entropy is sixteen bytes of value 7, and the trace
    is empty. *)
Definition demo_world (alg : string) (quantum : option Z) (files : gmap string bytes)
    (choices : list nat) : World :=
  mkWorld files (TaskScheduler_init alg quantum)
    (fun k => float_of_Z (Z.of_nat k)) 0 (fun _ => replicate 16 x07) 0 choices [].

(** The chunk ids that were put on the task queue, oldest first. *)
Definition enqueued (tr : list event) : list Z :=
  omap (fun e => match e with EvEnqueue i => Some i | _ => None end) tr.

(** The chunk ids that the workers processed, oldest first. *)
Definition processed (tr : list event) : list Z :=
  omap (fun e => match e with EvProcess _ i => Some i | _ => None end) tr.


(** * Round Robin: C2 and C9 *)

(** Neither FCFS nor SJF changes the scheduler, and a second call returns
    the same ids in the same order. *)
Lemma plain_schedule_repeatable (fuel : nat) (w : World) :
  plain_policy (sched w) ->
  exists first second w1 w2,
    schedule_tasks fuel w = (Ok first, w1) /\
    schedule_tasks fuel w1 = (Ok second, w2) /\
    sched w1 = sched w /\ sched w2 = sched w /\
    entry_task_id <$> first = entry_task_id <$> second /\
    (NoDup (task_id <$> tasks (sched w)) -> NoDup (entry_task_id <$> first)).
Proof.
  intros [Halg|Halg].
  - rewrite (schedule_tasks_fcfs _ _ Halg), schedule_fcfs_eq.
    eexists _, _, _, _. split; [done|].
    rewrite schedule_tasks_fcfs, schedule_fcfs_eq by done.
    split; [done|]. do 2 (split; [done|]).
    rewrite !plain_entries_ids. split; [done|].
    by rewrite py_sorted_perm.
  - rewrite (schedule_tasks_sjf _ _ Halg), schedule_sjf_eq.
    eexists _, _, _, _. split; [done|].
    rewrite schedule_tasks_sjf, schedule_sjf_eq by done.
    split; [done|]. do 2 (split; [done|]).
    rewrite !plain_entries_ids. split; [done|].
    by rewrite py_sorted_perm.
Qed.

(** The scheduler of the specification's own Round Robin scenario:
    quantum 200, tasks 0 and 1 of sizes 300 and 500. *)
Definition registered_300_500 : World :=
  ((add_task 0 300 ;;; add_task 1 500) (demo_world "Round Robin" (Some 200) ∅ [])).2.

Definition eight_bytes : bytes := [x01; x02; x03; x04; x05; x06; x07; x08].

(** A world with the file "f" of eight bytes and a Round-Robin scheduler of
    quantum 2. *)
Definition round_robin_8_bytes : World :=
  demo_world "Round Robin" (Some 2) {["f" := eight_bytes]} [].

(** C2 (evaluation of the code).  With quantum 200 and the sizes 300 and
    500, Round Robin returns one entry for every quantum slice, task 0 twice
    and task 1 three times; and an encryption of an 8-byte file in chunks of
    5 bytes under quantum 2 puts all five slices on the task queue, so that
    chunk 0 is processed three times and chunk 1 twice. *)
Theorem round_robin_dispatches_every_slice :
  (exists entries,
     (schedule_tasks 5 registered_300_500).1 = Ok entries /\
     entry_task_id <$> entries = [0; 1; 0; 1; 1] /\
     entry_size <$> entries = [200; 200; 100; 200; 100]) /\
  (exists gantt,
     (encrypt_file_parallel 5 "f" "pw" 5 1 round_robin_8_bytes).1 =
       Ok ("f.enc", gantt, 2%nat) /\
     enqueued (trace (encrypt_file_parallel 5 "f" "pw" 5 1 round_robin_8_bytes).2) =
       [0; 1; 0; 1; 0] /\
     processed (trace (encrypt_file_parallel 5 "f" "pw" 5 1 round_robin_8_bytes).2) =
       [0; 1; 0; 1; 0]).
Proof.
  split.
  - eexists. split; [vm_compute; reflexivity|]. split; reflexivity.
  - eexists. split; [vm_compute; reflexivity|]. split; vm_compute; reflexivity.
Qed.

(** C9 (evaluation of the code).  Round Robin decrements [remaining_time]
    on the registered [Task] objects themselves: after the first call both
    tasks have nothing left, and a second call on the same scheduler returns
    two entries instead of five. *)
Theorem round_robin_consumes_registered_tasks :
  exists first second,
    (schedule_tasks 5 registered_300_500).1 = Ok first /\
    (schedule_tasks 5 (schedule_tasks 5 registered_300_500).2).1 = Ok second /\
    remaining_time <$> tasks (sched registered_300_500) = [PyInt 300; PyInt 500] /\
    remaining_time <$> tasks (sched (schedule_tasks 5 registered_300_500).2) =
      [PyFloat 0; PyFloat 0] /\
    entry_task_id <$> first = [0; 1; 0; 1; 1] /\
    entry_task_id <$> second = [0; 1].
Proof.
  eexists _, _. split; [vm_compute; reflexivity|].
  split; [vm_compute; reflexivity|]. repeat split; vm_compute; reflexivity.
Qed.

(** * Padding, failures, configuration and short files *)

(** ** C5: removal of the padding *)

(** The padding of a decrypted buffer is not what [_encrypt_chunk] would
    have written: its last byte [p] is 0, or more than a block, or more than
    the buffer holds, or the last [p] bytes are not all [p]. *)
Definition bad_padding (decrypted_data : bytes) : Prop :=
  match last decrypted_data with
  | None => False
  | Some b =>
      let p := N.to_nat (Byte.to_N b) in
      p = 0%nat \/ (16 < p)%nat \/ (length decrypted_data < p)%nat \/
      ~ Forall (fun x => x = b) (drop (length decrypted_data - p) decrypted_data)
  end.

(** Sixteen decrypted bytes whose last byte is 0, is 17, and is 2 after a
    byte that is not 2. *)
Definition ends_in_0 : bytes := replicate 15 x41 ++ [x00].
Definition ends_in_17 : bytes := replicate 15 x41 ++ [x11].
Definition ends_in_5_2 : bytes := replicate 14 x41 ++ [x05; x02].

(** C5 (counterexample).  Badly padded buffers are accepted: the removal
    returns the empty byte string for a pad length of 0 or of 17, and strips
    two bytes although only the last one is 2. *)
Lemma remove_padding_accepts_bad_padding :
  (bad_padding ends_in_0 /\ remove_padding ends_in_0 = Ok []) /\
  (bad_padding ends_in_17 /\ remove_padding ends_in_17 = Ok []) /\
  (bad_padding ends_in_5_2 /\ remove_padding ends_in_5_2 = Ok (replicate 14 x41)).
Proof.
  repeat split; try reflexivity.
  - by left.
  - right. left. vm_compute. lia.
  - right. right. right. vm_compute. intros Hall.
    apply Forall_cons in Hall as [Hne _]. discriminate.
Qed.

(** C5 (amended).  Removal of the padding reads the last byte as the pad
    length [p] and, for [p >= 1], returns the buffer without its last [p]
    bytes (nothing is left when [p] exceeds the length); it checks neither
    [p] nor the bytes it drops, and fails only on an empty buffer, with
    [IndexError]. *)
Theorem remove_padding_unchecked :
  remove_padding [] = Raise (IndexError "index out of range") /\
  forall (decrypted_data : bytes) (b : byte),
    last decrypted_data = Some b ->
    (1 <= Byte.to_N b)%N ->
    remove_padding decrypted_data =
      Ok (take (length decrypted_data - N.to_nat (Byte.to_N b)) decrypted_data).
Proof.
  split; [done|]. intros d b Hlast Hp.
  unfold remove_padding. rewrite Hlast. unfold slice_to.
  destruct (Z.ltb_spec (- Z.of_N (Byte.to_N b)) 0); [|lia].
  do 2 f_equal. lia.
Qed.

(** C5 (amended), on a buffer of 16 bytes that ends in 17. *)
Lemma remove_padding_unchecked_witness :
  last ends_in_17 = Some x11 /\ (1 <= Byte.to_N x11)%N /\
  remove_padding ends_in_17 =
    Ok (take (length ends_in_17 - N.to_nat (Byte.to_N x11)) ends_in_17).
Proof.
  split; [reflexivity|]. split; [vm_compute; discriminate|].
  apply (proj2 remove_padding_unchecked); [reflexivity|vm_compute; discriminate].
Defined.

(** ** Runs that stop before the dispatch, and runs without chunks *)

Lemma forM_start_eq (first count : nat) (w : World) :
  forM (fun i => emit (EvThreadStart i) ;;; ret Waiting) (seq first count) w =
  (Ok (replicate count Waiting),
   set_trace (trace w ++ (EvThreadStart <$> seq first count)) w).
Proof.
  revert first w. induction count as [|n IH]; intros first w.
  - simpl. unfold ret. f_equal. destruct w. unfold set_trace. simpl.
    by rewrite app_nil_r.
  - cbn [seq forM].
    erewrite bind_ok; [|reflexivity].
    erewrite bind_ok; [|apply IH].
    unfold ret. f_equal.
    destruct w. unfold set_trace. simpl. by rewrite <- app_assoc.
Qed.

Lemma start_workers_eq (max_workers : Z) (w : World) :
  start_workers max_workers w =
  (Ok (replicate (Z.to_nat max_workers) Waiting),
   set_trace (trace w ++ (EvThreadStart <$> seq 0 (Z.to_nat max_workers))) w).
Proof. apply forM_start_eq. Qed.





Lemma for_fold_unchanged {A B} (body : B -> A -> M B) (acc : B) (l : list A) (w : World) :
  (forall x w1, body acc x w1 = (Ok acc, w1)) ->
  for_fold body acc l w = (Ok acc, w).
Proof.
  intros Hbody. induction l as [|x l IH]; [done|].
  cbn [for_fold]. unfold bind. by rewrite Hbody.
Qed.


Section idle_pool_facts.
Context `{CryptoBackend}.




End idle_pool_facts.

(** ** Concrete encrypted files *)

Definition demo_salt : bytes := replicate 16 x07.
Definition demo_key : bytes := _derive_key "pw" demo_salt.

(** The frame of a chunk under [demo_key], with the salt bytes as IV. *)
Definition demo_frame (chunk_data : bytes) : bytes :=
  demo_salt ++ aes_cbc_encrypt demo_key demo_salt (chunk_data ++ padding chunk_data).

(** An IV followed by a single byte: not a whole number of blocks. *)
Definition torn_frame : bytes := replicate 17 x00.


(** Two frames, the chunks "A" and "B"; each frame is 32 bytes long. *)
Definition two_frames : bytes := encode_file demo_salt [demo_frame [x41]; demo_frame [x42]].


Definition two_frames_fcfs : World :=
  demo_world "FCFS" None {["f.enc" := two_frames]} [].
Definition two_frames_round_robin : World :=
  demo_world "Round Robin" (Some 20) {["f.enc" := two_frames]} [0; 1; 0; 0; 0]%nat.

(** ** C3: failed chunks *)


Section failure_claims.
Context `{CryptoBackend}.

End failure_claims.


(** ** C4: the output under the three policies *)

Section invariance_facts.
Context `{CryptoBackend}.

(** Under FCFS and SJF the decrypted bytes depend on the file and the
    password only: not on the policy, the number of workers, their
    interleaving, the clock or the entropy (for an output name that can be
    opened for writing). *)
Lemma plain_policies_agree
    (fuel fuel' : nat) (input_file password : string)
    (chunk_size chunk_size' max_workers max_workers' : Z) (data : bytes) (w1 w2 : World) :
  fs w1 !! input_file = Some data -> fs w2 !! input_file = Some data ->
  plain_policy (sched w1) -> plain_policy (sched w2) ->
  tasks (sched w1) = [] -> tasks (sched w2) = [] ->
  1 <= max_workers -> 1 <= max_workers' ->
  writable w1 (decrypted_name input_file) -> writable w2 (decrypted_name input_file) ->
  exists res1 w1' res2 w2',
    decrypt_file_parallel fuel input_file password chunk_size max_workers w1 =
      (Ok res1, w1') /\
    decrypt_file_parallel fuel' input_file password chunk_size' max_workers' w2 =
      (Ok res2, w2') /\
    res1.1.1 = res2.1.1 /\ res1.2 = res2.2 /\
    fs w1' !! res1.1.1 = fs w2' !! res2.1.1.
Proof.
  intros Hin1 Hin2 Halg1 Halg2 Hf1 Hf2 Hw1 Hw2 Hout1 Hout2.
  destruct (decrypt_file_parallel_spec fuel input_file password chunk_size
              max_workers data w1 Hin1 Halg1 Hf1 Hw1 Hout1)
    as (res1 & w1' & Hdec1 & Hname1 & Hn1 & Hfs1).
  destruct (decrypt_file_parallel_spec fuel' input_file password chunk_size'
              max_workers' data w2 Hin2 Halg2 Hf2 Hw2 Hout2)
    as (res2 & w2' & Hdec2 & Hname2 & Hn2 & Hfs2).
  exists res1, w1', res2, w2'. do 2 (split; [done|]).
  split; [congruence|]. split; [congruence|].
  by rewrite Hname1, Hname2, Hfs1, Hfs2, !lookup_insert_eq.
Qed.
End invariance_facts.

(** C4 (evaluation of the code).  The same encrypted file of two chunks is
    decrypted to "AB" by FCFS with one worker, and to "A" alone by Round
    Robin with quantum 20 and two workers: each 32-byte frame is dispatched
    twice, worker 0 answers chunk 0 twice while worker 1 still holds chunk 1,
    and the collection loop stops after two results. *)
Theorem round_robin_changes_the_output :
  exists g1 g2,
    (decrypt_file_parallel 0 "f.enc" "pw" 16 1 two_frames_fcfs).1 =
      Ok ("f", g1, 2%nat) /\
    (decrypt_file_parallel 9 "f.enc" "pw" 16 2 two_frames_round_robin).1 =
      Ok ("f", g2, 2%nat) /\
    fs (decrypt_file_parallel 0 "f.enc" "pw" 16 1 two_frames_fcfs).2 !! "f" =
      Some [x41; x42] /\
    fs (decrypt_file_parallel 9 "f.enc" "pw" 16 2 two_frames_round_robin).2 !! "f" =
      Some [x41] /\
    enqueued (trace (decrypt_file_parallel 9 "f.enc" "pw" 16 2 two_frames_round_robin).2) =
      [0; 1; 0; 1] /\
    processed (trace (decrypt_file_parallel 9 "f.enc" "pw" 16 2 two_frames_round_robin).2) =
      [0; 0; 1; 1] /\
    gantt_chunk_id <$> g2 = [0; 0].
Proof.
  eexists _, _. split; [vm_compute; reflexivity|].
  split; [vm_compute; reflexivity|]. repeat split; vm_compute; reflexivity.
Qed.

(** ** C6: configuration errors *)




Section config_claims.
Context `{CryptoBackend}.

End config_claims.


(** ** C10: files shorter than the header *)



Section short_file_claims.
Context `{CryptoBackend}.


End short_file_claims.


(** * Instances of the theorems on concrete inputs *)

Definition three_chunks : list (Z * bytes) :=
  [(0, [x01; x02; x03]); (1, [x04]); (2, [x05; x06])].

(** C8, on three chunks and a clock that advances at every reading. *)
Lemma fcfs_dispatch_order_witness :
  exists entries w',
    (register_chunks three_chunks ;;; schedule_tasks 0)
      (demo_world "FCFS" None ∅ []) = (Ok entries, w') /\
    entry_task_id <$> entries = Z.of_nat <$> seq 0 (length three_chunks).
Proof.
  apply (fcfs_dispatch_order 0 (demo_world "FCFS" None ∅ []) three_chunks).
  - reflexivity.
  - reflexivity.
  - reflexivity.
  - intros k Hk. destruct k as [|[|k]].
    + vm_compute. reflexivity.
    + vm_compute. reflexivity.
    + simpl in Hk. lia.
Defined.

(** C7, on the sizes 500, 100, 900. *)
Lemma sjf_dispatch_order_witness :
  exists entries w',
    (add_task 0 500 ;;; add_task 1 100 ;;; add_task 2 900 ;;; schedule_tasks 0)
      (demo_world "SJF" None ∅ []) = (Ok entries, w') /\
    entry_task_id <$> entries = [1; 0; 2].
Proof.
  apply (proj2 sjf_dispatch_order 0%nat (demo_world "SJF" None ∅ [])).
  - reflexivity.
  - reflexivity.
Defined.





(** * Further properties of the code *)

(** ** The split of the input into chunks *)

(** The number of slices of [n] bytes that cover [len] bytes. *)
Definition slices (len n : nat) : nat := ((len + n - 1) / n)%nat.

(** The bytes of slice [k]. *)
Definition slice (n : nat) (data : bytes) (k : nat) : bytes :=
  take n (drop (k * n) data).

Lemma slices_0 (n : nat) : (1 <= n)%nat -> slices 0 n = 0%nat.
Proof. intros Hn. unfold slices. apply Nat.div_small. lia. Qed.

Lemma slices_step (len n : nat) :
  (1 <= n)%nat -> (1 <= len)%nat -> slices len n = S (slices (len - n) n).
Proof.
  intros Hn Hlen. unfold slices.
  destruct (decide (len <= n)%nat) as [Hle|Hgt].
  - replace (len - n)%nat with 0%nat by lia.
    rewrite (Nat.div_small (0 + n - 1)) by lia.
    symmetry. apply (Nat.div_unique _ _ _ (len - 1)); lia.
  - replace (len + n - 1)%nat with ((len - n + n - 1) + 1 * n)%nat by lia.
    rewrite Nat.div_add by lia. lia.
Qed.

(** The quotient and the remainder of the length give the number of
    slices. *)
Lemma slices_div_mod (len n : nat) :
  (1 <= n)%nat ->
  slices len n = (if decide (len mod n = 0)%nat then len / n else S (len / n))%nat.
Proof.
  intros Hn. unfold slices.
  pose proof (Nat.div_mod_eq len n) as Hdm.
  pose proof (Nat.mod_upper_bound len n ltac:(lia)) as Hr.
  case_decide as Hz.
  - symmetry. apply (Nat.div_unique _ _ _ (n - 1)); lia.
  - symmetry. apply (Nat.div_unique _ _ _ (len mod n - 1)); lia.
Qed.

Lemma slice_length (n : nat) (data : bytes) (k : nat) :
  length (slice n data k) = (n `min` (length data - k * n))%nat.
Proof. unfold slice. by rewrite length_take, length_drop. Qed.

Lemma read_chunks_loop_slices (turns : nat) (chunk_size : Z) (rest : bytes) (i : Z) :
  0 < chunk_size -> (length rest < turns)%nat ->
  read_chunks_loop turns chunk_size rest i =
    Ok ((fun k => (i + Z.of_nat k, slice (Z.to_nat chunk_size) rest k))
          <$> seq 0 (slices (length rest) (Z.to_nat chunk_size))).
Proof.
  intros Hcs. revert rest i. induction turns as [|t IH]; intros rest i Hlen; [lia|].
  cbn [read_chunks_loop]. unfold file_read, read_n.
  destruct (Z.ltb_spec chunk_size (-1)); [lia|].
  destruct (Z.ltb_spec chunk_size 0); [lia|].
  set (n := Z.to_nat chunk_size). assert (1 <= n)%nat as Hn by lia.
  destruct (take n rest) as [|b bs] eqn:Ht.
  - assert (rest = []) as ->.
    { destruct rest; [done|]. destruct n; [lia|]. done. }
    by rewrite slices_0.
  - assert (1 <= length rest)%nat as Hpos.
    { destruct rest; [by rewrite take_nil in Ht|simpl; lia]. }
    rewrite IH by (rewrite length_drop; lia).
    rewrite (slices_step (length rest)), length_drop by done.
    cbn [seq]. rewrite fmap_cons, <- fmap_S_seq, <- list_fmap_compose.
    f_equal. f_equal.
    + unfold slice. by rewrite Z.add_0_r, drop_0, Ht.
    + apply list_fmap_ext. intros _ k _. simpl. unfold slice.
      rewrite drop_drop.
      replace (i + 1 + Z.of_nat k) with (i + Z.of_nat (S k)) by lia.
      replace (n + k * n)%nat with (S k * n)%nat by lia. done.
Qed.

Lemma read_chunks_slices (chunk_size : Z) (data : bytes) :
  0 < chunk_size ->
  read_chunks chunk_size data =
    Ok ((fun k => (Z.of_nat k, slice (Z.to_nat chunk_size) data k))
          <$> seq 0 (slices (length data) (Z.to_nat chunk_size))).
Proof.
  intros Hcs. unfold read_chunks. rewrite read_chunks_loop_slices by (done || lia).
  reflexivity.
Qed.

(** [f.read(0)] returns no byte: the loop stops at once. *)
Lemma read_chunks_zero (data : bytes) : read_chunks 0 data = Ok [].
Proof. unfold read_chunks. cbn [read_chunks_loop file_read]. done. Qed.

(** [f.read(-1)] reads the whole file. *)
Lemma read_chunks_minus_one (data : bytes) :
  data <> [] -> read_chunks (-1) data = Ok [(0, data)].
Proof.
  intros Hne. unfold read_chunks. cbn [read_chunks_loop file_read].
  destruct data as [|b data]; [done|]. by cbn [length read_chunks_loop file_read].
Qed.

Section split_facts.
Context `{CryptoBackend}.

(** X1.  The read loop of [encrypt_file_parallel] cuts the input in
    consecutive slices: for a positive chunk size [n], chunk [k] holds the
    bytes [k*n .. k*n + n - 1] of the file (fewer for the last chunk), there
    are [ceil(len / n)] chunks, numbered from 0, and their concatenation is
    the file.  With chunk size 0 the first read returns nothing, so that
    every file, empty or not, is rejected with [ValueError("File is empty")]
    before anything else happens; with chunk size [-1] the first read
    returns the whole file, which becomes the single chunk 0; a chunk size
    below [-1] is refused by the first read, and the run raises the
    [ValueError] of [f.read] with the file system and the worker pool
    untouched. *)
Theorem input_is_split_into_slices :
  (forall (chunk_size : Z) (data : bytes),
     0 < chunk_size ->
     exists chunks,
       read_chunks chunk_size data = Ok chunks /\
       chunks = (fun k => (Z.of_nat k, slice (Z.to_nat chunk_size) data k))
                  <$> seq 0 (slices (length data) (Z.to_nat chunk_size)) /\
       concat chunks.*2 = data) /\
  (forall (fuel : nat) (input_file password : string) (max_workers : Z)
          (data : bytes) (w : World),
     fs w !! input_file = Some data ->
     exists w',
       encrypt_file_parallel fuel input_file password 0 max_workers w =
         (Raise (ValueError "File is empty"), w') /\
       fs w' = fs w /\ trace w' = trace w) /\
  (forall (data : bytes), data <> [] -> read_chunks (-1) data = Ok [(0, data)]) /\
  (forall (fuel : nat) (input_file password : string) (chunk_size max_workers : Z)
          (data : bytes) (w : World),
     fs w !! input_file = Some data ->
     chunk_size < -1 ->
     read_chunks chunk_size data =
       Raise (ValueError "read length must be non-negative or -1") /\
     exists w',
       encrypt_file_parallel fuel input_file password chunk_size max_workers w =
         (Raise (ValueError "read length must be non-negative or -1"), w') /\
       fs w' = fs w /\ trace w' = trace w).
Proof.
  split; [|split; [|split]].
  - intros chunk_size data Hcs.
    destruct (read_chunks_spec chunk_size data Hcs) as (chunks & Hread & Hcat & _).
    exists chunks. split; [done|]. split; [|done].
    rewrite read_chunks_slices in Hread by done. by injection Hread as <-.
  - intros fuel input_file password max_workers data w Hin.
    exists (set_draws (S (draws w)) w). split; [|done].
    unfold encrypt_file_parallel.
    erewrite bind_ok; [|reflexivity].
    erewrite bind_ok; [|unfold read_file; cbn [fs set_draws]; by rewrite Hin].
    by rewrite read_chunks_zero.
  - apply read_chunks_minus_one.
  - intros fuel input_file password chunk_size max_workers data w Hin Hcs.
    split; [by apply read_chunks_refused|].
    exists (set_draws (S (draws w)) w). split; [|done].
    by apply (encrypt_refused_chunk_size _ _ _ _ _ data).
Qed.
End split_facts.

(** ** One chunk through the cipher *)

(** The bytes that the next call of [secrets.token_bytes(16)] returns. *)
Definition next_iv (w : World) : bytes :=
  take 16 (entropy w (draws w) ++ replicate 16 x00).

Section chunk_facts.
Context `{CryptoBackend}.

Lemma encrypt_chunk_eq (chunk_data key : bytes) (w : World) :
  length key = 32%nat ->
  _encrypt_chunk chunk_data key w =
    (Ok (next_iv w ++ aes_cbc_encrypt key (next_iv w) (chunk_data ++ padding chunk_data)),
     set_draws (S (draws w)) w).
Proof.
  intros Hkey. unfold _encrypt_chunk, bind, token_bytes, lift, ret. fold (next_iv w).
  assert (length (next_iv w) = 16%nat) as Hiv.
  { unfold next_iv. rewrite length_take, length_app, length_replicate. lia. }
  pose proof (padding_length chunk_data) as [Hp Hmod].
  pose proof (Z.mod_pos_bound (Z.of_nat (length chunk_data)) 16 eq_refl) as Hm.
  destruct (byte_of_small (16 - Z.of_nat (length chunk_data) mod 16)) as (b & Hb & _); [lia|].
  rewrite Cipher_ok by done.
  rewrite (py_bytes_replicate _ _ b) by (done || lia).
  assert (padding chunk_data =
          replicate (Z.to_nat (16 - Z.of_nat (length chunk_data) mod 16)) b) as <-.
  { unfold padding. by rewrite Hb. }
  by rewrite update_finalize_ok by by rewrite length_app.
Qed.

(** Whatever the key, [_encrypt_chunk] returns or raises, and draws one
    IV. *)
Lemma encrypt_chunk_outcome (chunk_data key : bytes) (w : World) :
  (exists frame, _encrypt_chunk chunk_data key w = (Ok frame, set_draws (S (draws w)) w)) \/
  (exists e, _encrypt_chunk chunk_data key w = (Raise e, set_draws (S (draws w)) w)).
Proof.
  unfold _encrypt_chunk, bind, token_bytes, lift, ret.
  destruct (Cipher key _) as [[]|e|s] eqn:Hc.
  - pose proof (Z.mod_pos_bound (Z.of_nat (length chunk_data)) 16 eq_refl) as Hm.
    destruct (byte_of_small (16 - Z.of_nat (length chunk_data) mod 16)) as (b & Hb & _); [lia|].
    rewrite (py_bytes_replicate _ _ b) by (done || lia).
    destruct (update_finalize _ _) as [d|e|s] eqn:Hu; eauto.
    unfold update_finalize in Hu. by case_match.
  - eauto.
  - unfold Cipher in Hc. by repeat case_match.
Qed.

(** The length of the padded chunk, in blocks. *)
Lemma padded_blocks (chunk_data : bytes) :
  (length (chunk_data ++ padding chunk_data) = 16 * (length chunk_data / 16) + 16)%nat.
Proof.
  pose proof (padding_length chunk_data) as [Hp Hmod]. rewrite length_app.
  pose proof (Nat.div_mod_eq (length chunk_data) 16) as Hdm.
  pose proof (Nat.mod_upper_bound (length chunk_data) 16 ltac:(lia)) as Hr.
  apply Nat.Div0.div_exact in Hmod.
  assert ((length chunk_data + length (padding chunk_data)) / 16 =
          S (length chunk_data / 16))%nat as Hq.
  { symmetry.
    apply (Nat.div_unique _ _ _ (length chunk_data mod 16 + length (padding chunk_data) - 16));
      lia. }
  lia.
Qed.

(** X2.  Under a 256-bit key [_encrypt_chunk] always returns: the frame
    starts with the 16-byte IV it has just drawn, and is
    [16 * (len // 16) + 32] bytes long for a chunk of [len] bytes, that is
    the IV and the chunk padded to the next whole block, a whole block of
    padding when the chunk already ends on a block boundary.  Every chunk
    grows by 17 to 32 bytes; the only thing the call changes is the entropy
    source, by one draw. *)
Theorem encrypted_chunk_size (chunk_data key : bytes) (w : World) :
  length key = 32%nat ->
  exists frame w',
    _encrypt_chunk chunk_data key w = (Ok frame, w') /\
    take 16 frame = next_iv w /\
    length frame = (16 * (length chunk_data / 16) + 32)%nat /\
    (length chunk_data + 17 <= length frame <= length chunk_data + 32)%nat /\
    fs w' = fs w /\ sched w' = sched w /\ draws w' = S (draws w).
Proof.
  intros Hkey. rewrite encrypt_chunk_eq by done.
  assert (length (next_iv w) = 16%nat) as Hiv.
  { unfold next_iv. rewrite length_take, length_app, length_replicate. lia. }
  pose proof (padded_blocks chunk_data) as Hblocks.
  pose proof (padding_length chunk_data) as [Hp Hmod].
  assert (length (next_iv w ++ aes_cbc_encrypt key (next_iv w)
                                 (chunk_data ++ padding chunk_data)) =
          (16 * (length chunk_data / 16) + 32)%nat) as Hlen.
  { rewrite length_app, Hiv, aes_cbc_encrypt_length by by rewrite length_app. lia. }
  eexists _, _. split; [done|].
  split; [by rewrite take_app_length'|].
  split; [done|]. split; [|done].
  rewrite Hlen. rewrite length_app in Hblocks. lia.
Qed.

(** X3.  What [_decrypt_chunk] does with a frame under a 256-bit key, by
    the length of the frame alone.  Fewer than 16 bytes: [ValueError] (no
    whole IV).  Not a whole number of blocks: [ValueError].  Exactly 16
    bytes: [IndexError] (there is no last byte to read the pad length from).
    32 bytes or more in whole blocks: it returns, whatever the key and the
    bytes of the frame, a strict prefix of the decrypted blocks; a wrong key
    or a corrupted frame is never reported at this point.  The world is
    untouched in every case. *)
Theorem decrypt_chunk_outcomes (chunk_data key : bytes) (w : World) :
  length key = 32%nat ->
  exists o,
    _decrypt_chunk chunk_data key w = (o, w) /\
    ((length chunk_data < 16)%nat -> exists msg, o = Raise (ValueError msg)) /\
    ((length chunk_data mod 16 <> 0)%nat -> exists msg, o = Raise (ValueError msg)) /\
    (length chunk_data = 16%nat -> exists msg, o = Raise (IndexError msg)) /\
    ((32 <= length chunk_data)%nat -> (length chunk_data mod 16 = 0)%nat ->
     exists plain, o = Ok plain /\ (length plain < length chunk_data - 16)%nat /\
                   plain `prefix_of` aes_cbc_decrypt key (take 16 chunk_data)
                                       (drop 16 chunk_data)).
Proof.
  intros Hkey. rewrite decrypt_chunk_eq. eexists. split; [done|].
  unfold decrypt_chunk_result.
  pose proof (Nat.div_mod_eq (length chunk_data) 16) as Hdm.
  pose proof (Nat.mod_upper_bound (length chunk_data) 16 ltac:(lia)) as Hr.
  destruct (decide (length chunk_data < 16)%nat) as [Hshort|Hlong].
  - assert (exists msg, Cipher key (take 16 chunk_data) = Raise (ValueError msg))
      as [msg ->].
    { unfold Cipher. rewrite Hkey.
      rewrite (proj2 (Nat.eqb_neq _ _)) by (rewrite length_take; lia).
      eexists. reflexivity. }
    repeat split; intros; (lia || eauto).
  - rewrite Cipher_ok by (done || rewrite length_take; lia).
    assert ((length (drop 16 chunk_data)) mod 16 = length chunk_data mod 16)%nat as Hmod.
    { rewrite length_drop. symmetry.
      apply (Nat.mod_unique _ _ (length chunk_data / 16 - 1)); lia. }
    destruct (decide (length chunk_data mod 16 = 0)%nat) as [Hwhole|Htorn].
    + rewrite update_finalize_ok by lia.
      set (d := aes_cbc_decrypt key (take 16 chunk_data) (drop 16 chunk_data)).
      assert (length d = (length chunk_data - 16)%nat) as Hd.
      { unfold d. rewrite aes_cbc_decrypt_length by lia. apply length_drop. }
      unfold remove_padding.
      destruct (last d) as [b|] eqn:Hlast.
      * assert (1 <= length d)%nat as Hpos.
        { destruct d; [done|simpl; lia]. }
        repeat split; intros; try lia.
        eexists. split; [done|]. rewrite <- Hd. unfold slice_to.
        case_match; (split; [rewrite length_take; lia|apply prefix_take]).
      * apply last_None in Hlast. rewrite Hlast in Hd. simpl in Hd.
        repeat split; intros; (lia || eauto).
    + unfold update_finalize.
      rewrite (proj2 (Nat.eqb_neq _ _)) by lia. cbn [negb].
      repeat split; intros; (lia || eauto).
Qed.
End chunk_facts.

(** ** The worker threads *)

(** The ['worker_id'] of a result. *)
Definition result_worker_id (r : WorkResult) : nat :=
  match r with
  | Success _ _ i _ _ | Failure _ _ i => i
  end.

Lemma bind_returned {A B} (m : M A) (k : A -> M B) (w w' : World) (b : B) :
  bind m k w = (Ok b, w') -> exists a w1, m w = (Ok a, w1) /\ k a w1 = (Ok b, w').
Proof. unfold bind. destruct (m w) as [[a|e|s] w1]; [eauto|done..]. Qed.

(** A property of the accumulator that every turn of a loop keeps holds
    when the loop returns. *)
Lemma for_fold_preserves {A B} (body : B -> A -> M B) (P : B -> Prop)
    (l : list A) (acc : B) (w w' : World) (b : B) :
  (forall b0 x w1 b1 w2, P b0 -> body b0 x w1 = (Ok b1, w2) -> P b1) ->
  P acc -> for_fold body acc l w = (Ok b, w') -> P b.
Proof.
  intros Hbody. revert acc w. induction l as [|x l IH]; intros acc w Hacc Hrun.
  - cbn [for_fold] in Hrun. unfold ret in Hrun. by simplify_eq.
  - cbn [for_fold] in Hrun. apply bind_returned in Hrun as (b1 & w1 & Hx & Hrun).
    eapply IH; [|exact Hrun]. by eapply Hbody.
Qed.


(** There are [n] worker threads, and every result on the result queue
    was put there by one of them. *)
Definition known_workers (n : nat) (p : Pool) : Prop :=
  length (workers p) = n /\
  Forall (fun r => (result_worker_id r < n)%nat) (result_queue p).

Section worker_facts.
Context `{CryptoBackend}.
Variables (operation : string) (key : bytes).

(** A worker answers every task: what the cipher raises becomes a failed
    result. *)
Lemma process_task_answers (i : nat) (t : QTask) (st : float) (w : World) :
  exists r w',
    process_task operation key i t st w = (Ok r, w') /\
    result_chunk_id r = q_chunk_id t /\ result_worker_id r = i /\
    same_store w w' /\ trace w' = trace w ++ [EvProcess i (q_chunk_id t)].
Proof.
  unfold process_task. unfold bind at 1, emit.
  set (w1 := set_trace _ w). unfold try_except.
  destruct (String.eqb operation "encrypt").
  - destruct (encrypt_chunk_outcome (q_chunk_data t) key w1) as [[frame Hf]|[e He]].
    + rewrite (bind_ok _ _ _ _ _ Hf). eexists _, _. split; [reflexivity|]. done.
    + rewrite (bind_raise _ _ _ _ _ He). eexists _, _. split; [reflexivity|]. done.
  - unfold bind at 1. rewrite decrypt_chunk_eq.
    destruct (decrypt_chunk_result key (q_chunk_data t)) as [d|e|s] eqn:Hd.
    + eexists _, _. split; [reflexivity|]. done.
    + eexists _, _. split; [reflexivity|]. done.
    + by apply decrypt_chunk_result_not_stuck in Hd.
Qed.

Lemma process_task_returns (i : nat) (t : QTask) (st : float) (w : World) :
  returns (process_task operation key i t st) w
    (fun r w' => same_store w w' /\ answers (fun _ _ => True) t r).
Proof.
  destruct (process_task_answers i t st w) as (r & w' & Hrun & Hid & _ & Hs & _).
  exists r, w'. split; [done|]. by split.
Qed.

Lemma worker_step_known (n i : nat) (p p' : Pool) (w w' : World) :
  known_workers n p ->
  worker_step operation key i p w = (Ok p', w') ->
  known_workers n p'.
Proof.
  intros [Hlen Hres] Hstep. unfold worker_step in Hstep.
  destruct (workers p !! i) as [[|t st|]|] eqn:Hi.
  - destruct (task_queue p) as [|[t|] q].
    + unfold ret in Hstep. by simplify_eq/=.
    + apply bind_returned in Hstep as (st & w1 & _ & Hstep).
      unfold ret in Hstep. simplify_eq/=.
      split; cbn [workers result_queue]; [by rewrite length_insert|done].
    + apply bind_returned in Hstep as ([] & w1 & _ & Hstep).
      unfold ret in Hstep. simplify_eq/=.
      split; cbn [workers result_queue]; [by rewrite length_insert|done].
  - destruct (process_task_answers i t st w) as (r & w1 & Hrun & _ & Hworker & _).
    rewrite (bind_ok _ _ _ _ _ Hrun) in Hstep. unfold ret in Hstep. simplify_eq/=.
    split; cbn [workers result_queue]; [by rewrite length_insert|].
    apply Forall_app. split; [done|]. constructor; [|done].
    by eapply lookup_lt_Some.
  - unfold ret in Hstep. by simplify_eq/=.
  - unfold ret in Hstep. by simplify_eq/=.
Qed.

Lemma run_workers_known (n : nat) (p p' : Pool) (w w' : World) :
  known_workers n p ->
  run_workers operation key p w = (Ok p', w') ->
  known_workers n p'.
Proof.
  intros Hp Hrun. unfold run_workers in Hrun.
  apply bind_returned in Hrun as (choices & w1 & _ & Hrun).
  apply bind_returned in Hrun as (p1 & w2 & H1 & Hrun).
  apply bind_returned in Hrun as (p2 & w3 & H2 & H3).
  assert (known_workers n p1) as Hp1.
  { eapply for_fold_preserves; [|exact Hp|exact H1].
    intros b0 i w0 b1 w0' Hb0 Hstep. exact (worker_step_known n i b0 b1 w0 w0' Hb0 Hstep). }
  assert (known_workers n p2) as Hp2.
  { eapply for_fold_preserves; [|exact Hp1|exact H2].
    intros b0 i w0 b1 w0' Hb0 Hstep. cbv beta in Hstep.
    destruct (workers b0 !! i) as [[| |]|]; try (unfold ret in Hstep; by simplify_eq/=).
    exact (worker_step_known n i b0 b1 w0 w0' Hb0 Hstep). }
  eapply for_fold_preserves; [|exact Hp2|exact H3].
  intros b0 x w0 b1 w0' Hb0 Hstep. cbv beta in Hstep.
  apply bind_returned in Hstep as (b' & w0'' & Hs1 & Hs2).
  exact (worker_step_known n 0 b' b1 w0'' w0'
           (worker_step_known n 0 b0 b' w0 w0'' Hb0 Hs1) Hs2).
Qed.

(** The call of the cipher in the inner [try] of [_worker_process]. *)
Definition cipher_call (t : QTask) : M bytes :=
  if String.eqb operation "encrypt" then _encrypt_chunk (q_chunk_data t) key
  else _decrypt_chunk (q_chunk_data t) key.

(** X4.  A worker never lets an exception of the cipher escape: for every
    operation, key and task, processing the task returns one result
    dictionary.  When the call of [_encrypt_chunk] or [_decrypt_chunk]
    returns, the result is a success that carries the chunk id of the task,
    the bytes that the call returned, the id of the worker, the start time
    it was given and the next reading of the clock as its end time.  When
    the call raises, the result is a failure that carries the chunk id, the
    text of the exception and the id of the worker.  Files and scheduler are
    untouched, and the processing is the only pool event. *)
Theorem worker_turns_exceptions_into_failures
    (i : nat) (t : QTask) (st : float) (w : World) :
  exists r w',
    process_task operation key i t st w = (Ok r, w') /\
    match (cipher_call t (set_trace (trace w ++ [EvProcess i (q_chunk_id t)]) w)).1 with
    | Ok data => r = Success (q_chunk_id t) data i st (clock w (ticks w))
    | Raise e => r = Failure (q_chunk_id t) (exn_str e) i
    | Stuck _ => False
    end /\
    fs w' = fs w /\ sched w' = sched w /\
    trace w' = trace w ++ [EvProcess i (q_chunk_id t)].
Proof.
  unfold process_task, cipher_call. unfold bind at 1, emit.
  set (w0 := set_trace _ w). unfold try_except.
  destruct (String.eqb operation "encrypt").
  - destruct (encrypt_chunk_outcome (q_chunk_data t) key w0) as [[frame Hf]|[e He]].
    + rewrite (bind_ok _ _ _ _ _ Hf), Hf. eexists _, _. split; [reflexivity|]. done.
    + rewrite (bind_raise _ _ _ _ _ He), He. eexists _, _. split; [reflexivity|]. done.
  - unfold bind at 1. rewrite decrypt_chunk_eq. cbn [fst].
    destruct (decrypt_chunk_result key (q_chunk_data t)) as [d|e|s] eqn:Hd.
    + eexists _, _. split; [reflexivity|]. done.
    + eexists _, _. split; [reflexivity|]. done.
    + by apply decrypt_chunk_result_not_stuck in Hd.
Qed.

(** X5.  With at least one worker thread, whatever the operation, the key,
    the tasks on the queue (repeated chunk ids included) and the order in
    which the thread scheduler lets the workers move: the pool comes to
    rest, every worker waiting again, and the result queue holds exactly one
    result for every task that was put on the task queue, each put by one of
    the workers. *)
Theorem every_queued_task_is_answered_once (ts : list QTask) (n : nat) (w : World) :
  (1 <= n)%nat ->
  exists p' w',
    run_workers operation key (mkPool (Some <$> ts) [] (replicate n Waiting)) w = (Ok p', w') /\
    result_chunk_id <$> result_queue p' ≡ₚ q_chunk_id <$> ts /\
    Forall (fun r => (result_worker_id r < n)%nat) (result_queue p') /\
    workers p' = replicate n Waiting /\
    fs w' = fs w /\ sched w' = sched w.
Proof.
  intros Hn.
  destruct (run_workers_spec operation key (fun _ _ => True) process_task_returns ts
              (mkPool (Some <$> ts) [] (replicate n Waiting)) w)
    as (p' & w' & Hrun & [Hfs Hsched] & Hlen & Hidle & done & Hdone & Hperm).
  - split; [|split]; cbn [task_queue result_queue workers].
    + exists []. split; [constructor|].
      rewrite held_idle, queued_fmap_Some; [done|]. by apply Forall_replicate.
    + by apply Forall_replicate.
    + apply Forall_fmap, Forall_true. by eexists.
  - cbn [workers]. rewrite length_replicate. lia.
  - assert (known_workers n p') as [_ Hknown].
    { eapply run_workers_known; [|exact Hrun].
      split; cbn [workers result_queue]; [apply length_replicate|constructor]. }
    exists p', w'. split; [done|]. split; [|split; [done|split; [|done]]].
    + by rewrite (answers_ids _ _ _ Hdone), Hperm.
    + cbn [workers] in Hlen. rewrite length_replicate in Hlen.
      symmetry. apply replicate_as_Forall. split; [done|].
      eapply Forall_impl; [exact Hidle|]. by intros s ->.
Qed.
End worker_facts.

(** ** A pool without workers *)

Section no_worker_facts.
Context `{CryptoBackend}.

Lemma worker_step_nobody (operation : string) (key : bytes) (i : nat)
    (q : list (option QTask)) (rq : list WorkResult) (w : World) :
  worker_step operation key i (mkPool q rq []) w = (Ok (mkPool q rq []), w).
Proof. done. Qed.

(** Without worker threads nothing is taken from the task queue. *)
Lemma run_workers_nobody (operation : string) (key : bytes)
    (q : list (option QTask)) (w : World) :
  run_workers operation key (mkPool q [] []) w =
  (Ok (mkPool q [] []), set_interleave [] w).
Proof.
  unfold run_workers.
  erewrite bind_ok; [|reflexivity].
  erewrite bind_ok; [|apply for_fold_unchanged; intros; apply worker_step_nobody].
  rewrite (bind_ok _ _ _ (set_interleave [] w) (mkPool q [] [])); [|reflexivity].
  apply for_fold_unchanged. intros x w1. unfold bind.
  by rewrite !worker_step_nobody.
Qed.

(** A run with chunks and without workers puts the tasks on the queue and
    then waits for results that nobody produces. *)
Lemma run_scheduled_nobody (fuel : nat) (operation : string) (key : bytes)
    (max_workers : Z) (chunks : list (Z * bytes)) (w : World) :
  plain_policy (sched w) ->
  task_id <$> tasks (sched w) = chunks.*1 ->
  well_numbered chunks ->
  chunks <> [] ->
  max_workers <= 0 ->
  exists w',
    run_scheduled fuel operation key max_workers chunks w = (Stuck BlockedForever, w') /\
    same_store w w'.
Proof.
  intros Halg Htasks Hn Hne Hw. unfold run_scheduled.
  erewrite bind_ok; [|apply start_workers_eq].
  replace (Z.to_nat max_workers) with 0%nat by lia. cbn [replicate seq fmap list_fmap].
  set (w1 := set_trace _ w).
  destruct (schedule_tasks_plain_frame fuel w1) as (entries & Hsched & Hperm); [done|].
  erewrite bind_ok; [|exact Hsched].
  erewrite bind_ok; [|reflexivity].
  match goal with |- context [bind (dispatch chunks entries) _ ?w2] =>
    destruct (dispatch_spec chunks entries w2 Hn) as (q & w3 & Hq & Hs3 & _)
  end.
  { intros e He. rewrite <- Htasks.
    change (tasks (sched w)) with (tasks (sched w1)). rewrite <- Hperm.
    by apply list_elem_of_fmap_2. }
  erewrite bind_ok; [|exact Hq].
  erewrite bind_ok; [|apply run_workers_nobody].
  unfold collect. cbn [result_queue length].
  destruct chunks as [|c chunks]; [done|]. cbn [length Nat.ltb Nat.leb].
  eexists. split; [reflexivity|].
  destruct Hs3 as [Hfs3 Hsc3].
  split; cbn [fs sched set_interleave]; [by rewrite Hfs3|by rewrite Hsc3].
Qed.

(** X6.  With [max_workers <= 0] no worker thread is started, and a run that
    has at least one chunk never returns: the chunks are put on the task
    queue and the collection loop then blocks in [result_queue.get()] for
    good.  This holds for an encryption of a non-empty file and for a
    decryption of a file with at least one frame (fresh FCFS or SJF
    scheduler); no output file is written. *)
Theorem without_workers_the_run_blocks :
  (forall fuel input_file password chunk_size max_workers data w,
     fs w !! input_file = Some data ->
     data <> [] ->
     0 < chunk_size ->
     plain_policy (sched w) ->
     tasks (sched w) = [] ->
     max_workers <= 0 ->
     exists w',
       encrypt_file_parallel fuel input_file password chunk_size max_workers w =
         (Stuck BlockedForever, w') /\
       fs w' = fs w) /\
  (forall fuel input_file password chunk_size max_workers data w,
     fs w !! input_file = Some data ->
     parse_frames data <> [] ->
     plain_policy (sched w) ->
     tasks (sched w) = [] ->
     max_workers <= 0 ->
     exists w',
       decrypt_file_parallel fuel input_file password chunk_size max_workers w =
         (Stuck BlockedForever, w') /\
       fs w' = fs w).
Proof.
  split.
  - intros fuel input_file password chunk_size max_workers data w
      Hin Hne Hcs Halg Hfresh Hw.
    destruct (read_chunks_spec chunk_size data Hcs)
      as (chunks & Hread & _ & Hnum & _ & _ & Hsome).
    specialize (Hsome Hne).
    unfold encrypt_file_parallel.
    erewrite bind_ok; [|reflexivity].
    erewrite bind_ok; [|unfold read_file; cbn [fs set_draws]; by rewrite Hin].
    erewrite bind_ok; [|unfold lift; by rewrite Hread].
    destruct chunks as [|c0 cs0] eqn:Hchunks; [done|].
    erewrite bind_ok; [|apply register_chunks_eq].
    edestruct (run_scheduled_nobody fuel "encrypt") as (w' & Hrun & Hfs & _);
      [| | | |exact Hw|].
    5:{ unfold bind at 1. rewrite Hrun. exists w'. split; [done|]. by rewrite Hfs. }
    + exact Halg.
    + cbn [sched set_sched with_tasks tasks set_draws set_ticks].
      rewrite Hfresh, app_nil_l. apply chunk_tasks_ids.
    + done.
    + done.
  - intros fuel input_file password chunk_size max_workers data w
      Hin Hne Halg Hfresh Hw.
    unfold decrypt_file_parallel.
    erewrite bind_ok; [|unfold read_file; by rewrite Hin].
    unfold read_n. cbv iota beta.
    fold (parse_frames data).
    erewrite bind_ok; [|apply register_chunks_eq].
    edestruct (run_scheduled_nobody fuel "decrypt") as (w' & Hrun & Hfs & _);
      [| | | |exact Hw|].
    5:{ unfold bind at 1. rewrite Hrun. exists w'. split; [done|]. by rewrite Hfs. }
    + exact Halg.
    + cbn [sched set_sched with_tasks tasks set_ticks].
      rewrite Hfresh, app_nil_l. apply chunk_tasks_ids.
    + apply read_frames_well_numbered.
    + done.
Qed.
End no_worker_facts.

(** ** The Gantt chart *)





Section run_scheduled_gantt.
Context `{CryptoBackend}.
Variables (operation : string) (key : bytes).
Variable R : bytes -> option bytes -> Prop.

Hypothesis process_task_spec : forall i t st w,
  returns (process_task operation key i t st) w
    (fun r w' => same_store w w' /\ answers R t r).

End run_scheduled_gantt.

(** ** The encrypted file *)

Section encrypt_full.
Context `{CryptoBackend}.







Lemma chunk_tasks_sizes clk t0 chunks :
  (fun t => (task_id t, size t)) <$> chunk_tasks clk t0 chunks =
  (fun c : Z * bytes => (c.1, Z.of_nat (length c.2))) <$> chunks.
Proof.
  unfold chunk_tasks. rewrite fmap_imap.
  rewrite (imap_ext _ (const (fun c : Z * bytes => (c.1, Z.of_nat (length c.2))))) by done.
  by rewrite imap_const.
Qed.

End encrypt_full.

(** ** The Gantt chart of a decryption *)

Section decrypt_gantt.
Context `{CryptoBackend}.


End decrypt_gantt.

(** ** The file that a decryption writes *)





Section decrypt_output.
Context `{CryptoBackend}.



End decrypt_output.

(** ** Shortest job first on the chunks of a file *)

Section py_sorted_equal_keys.
Context {A : Type} (lt : A -> A -> bool).

Lemma insert_sorted_front (y : A) (l : list A) :
  Forall (fun z => lt z y = false) l -> insert_sorted lt y l = y :: l.
Proof. intros Hl. destruct Hl as [|z l Hz _]; simpl; [done|]. by rewrite Hz. Qed.

(** Elements none of which is smaller than another stay as they are. *)
Lemma py_sorted_all_equal (l : list A) :
  (forall y z, y ∈ l -> z ∈ l -> lt y z = false) -> py_sorted lt l = l.
Proof.
  intros Heq. induction l as [|y l IH]; [done|]. simpl.
  rewrite IH by (intros; apply Heq; by right).
  apply insert_sorted_front, Forall_forall. intros z Hz. apply Heq; [by right|by left].
Qed.

(** A last element that is smaller than all the others, none of which is
    smaller than another, moves to the front. *)
Lemma py_sorted_snoc_small (l : list A) (x : A) :
  Forall (fun y => lt x y = true) l ->
  (forall y z, y ∈ l -> z ∈ l -> lt y z = false) ->
  py_sorted lt (l ++ [x]) = x :: l.
Proof.
  intros Hx Heq. unfold py_sorted. rewrite foldr_app. simpl.
  induction l as [|y l IH]; [done|].
  apply Forall_cons in Hx as [Hxy Hx]. simpl.
  rewrite IH; [|done|intros; apply Heq; by right].
  simpl. rewrite Hxy. f_equal. apply insert_sorted_front.
  apply Forall_forall. intros z Hz. apply Heq; [by right|by left].
Qed.
End py_sorted_equal_keys.

(** The order in which SJF serves the chunks of a file of [len] bytes cut
    in slices of [n] bytes: the last chunk first when it is shorter than
    the others, the order of the chunks otherwise. *)
Definition sjf_chunk_order (len n : nat) : list Z :=
  if decide (len mod n = 0)%nat then Z.of_nat <$> seq 0 (slices len n)
  else Z.of_nat (pred (slices len n)) :: (Z.of_nat <$> seq 0 (pred (slices len n))).

(** The chunks before the last one are full. *)
Lemma full_slices (n : nat) (data : bytes) (count : nat) :
  (count * n <= length data)%nat ->
  Forall (fun p : Z * Z => p.2 = Z.of_nat n)
    ((fun k => (Z.of_nat k, Z.of_nat (length (slice n data k)))) <$> seq 0 count).
Proof.
  intros Hcount. apply Forall_fmap, Forall_forall.
  intros k Hk%elem_of_seq. simpl. rewrite slice_length. nia.
Qed.

Lemma sjf_split_order (chunk_size : Z) (data : bytes) (chunks : list (Z * bytes)) :
  0 < chunk_size ->
  read_chunks chunk_size data = Ok chunks ->
  (py_sorted (fun p q : Z * Z => p.2 <? q.2)
     ((fun c : Z * bytes => (c.1, Z.of_nat (length c.2))) <$> chunks)).*1 =
  sjf_chunk_order (length data) (Z.to_nat chunk_size).
Proof.
  intros Hcs Hread. rewrite read_chunks_slices in Hread by done. injection Hread as <-.
  set (n := Z.to_nat chunk_size). assert (1 <= n)%nat as Hn by lia.
  pose proof (Nat.div_mod_eq (length data) n) as Hdm.
  pose proof (Nat.mod_upper_bound (length data) n ltac:(lia)) as Hr.
  pose proof (slices_div_mod (length data) n Hn) as Hslices.
  rewrite <- list_fmap_compose. unfold sjf_chunk_order. rewrite Hslices.
  change ((fun c : Z * bytes => (c.1, Z.of_nat (length c.2))) ∘
          (fun k : nat => (Z.of_nat k, slice n data k)))
    with (fun k : nat => (Z.of_nat k, Z.of_nat (length (slice n data k)))).
  pose proof (full_slices n data (length data / n)) as Hfull.
  rewrite Forall_forall in Hfull. specialize (Hfull ltac:(lia)).
  case_decide as Hz.
  - rewrite py_sorted_all_equal.
    + by rewrite <- list_fmap_compose.
    + intros y z Hy Hz'. rewrite (Hfull y Hy), (Hfull z Hz'). apply Z.ltb_irrefl.
  - cbn [pred]. rewrite seq_S, fmap_app. cbn [fmap list_fmap Nat.add].
    rewrite py_sorted_snoc_small.
    + rewrite fmap_cons. by rewrite <- list_fmap_compose.
    + apply Forall_forall. intros y Hy. rewrite (Hfull y Hy). cbn [snd].
      rewrite slice_length. apply Z.ltb_lt. nia.
    + intros y z Hy Hz'. rewrite (Hfull y Hy), (Hfull z Hz'). apply Z.ltb_irrefl.
Qed.

(** X11.  What SJF does to the chunks of a file.  All chunks but the last
    have the same size, so that after the registration of the chunks of a
    file of [len] bytes cut with a positive chunk size [n], a fresh SJF
    scheduler returns them in file order when [n] divides [len], and
    otherwise the short last chunk first, followed by the others in file
    order. *)
Theorem sjf_serves_a_short_last_chunk_first
    (fuel : nat) (w : World) (chunk_size : Z) (data : bytes) :
  algorithm (sched w) = "SJF" ->
  tasks (sched w) = [] ->
  0 < chunk_size ->
  exists chunks entries w',
    read_chunks chunk_size data = Ok chunks /\
    (register_chunks chunks ;;; schedule_tasks fuel) w = (Ok entries, w') /\
    entry_task_id <$> entries = sjf_chunk_order (length data) (Z.to_nat chunk_size).
Proof.
  intros Halg Hfresh Hcs.
  destruct (read_chunks_spec chunk_size data Hcs) as (chunks & Hread & _).
  exists chunks. unfold bind. rewrite register_chunks_eq.
  rewrite schedule_tasks_sjf, schedule_sjf_eq by done.
  do 2 eexists; split; [done|]. split; [done|].
  rewrite plain_entries_ids. cbn [sched set_sched set_ticks with_tasks tasks].
  rewrite Hfresh, app_nil_l, <- (sjf_split_order chunk_size data chunks Hcs Hread).
  rewrite <- (chunk_tasks_sizes (clock w) (ticks w)).
  rewrite <- (py_sorted_map (fun a b => size a <? size b) _ (fun t => (task_id t, size t)))
    by done.
  by rewrite <- list_fmap_compose.
Qed.

(** ** What scheduling leaves alone *)

Lemma plain_entries_pairs alg clk t0 l :
  (fun e => (entry_task_id e, entry_size e)) <$> plain_entries alg clk t0 l =
  (fun t => (task_id t, size t)) <$> l.
Proof.
  unfold plain_entries. rewrite fmap_imap.
  rewrite (imap_ext _ (const (fun t => (task_id t, size t)))) by done.
  by rewrite imap_const.
Qed.

Lemma plain_entries_algorithm alg clk t0 l :
  Forall (fun e => entry_algorithm e = alg) (plain_entries alg clk t0 l).
Proof.
  unfold plain_entries. apply Forall_lookup. intros k e Hk.
  apply list_lookup_imap_Some in Hk as (t & _ & ->). done.
Qed.

(** X12.  FCFS and SJF only read the scheduler.  [schedule_tasks] returns one
    entry for every registered task, with the id and the size of the task
    and the name of the policy; it leaves the scheduler and the files as
    they are and only reads the clock, once for every task; a second call
    returns the same ids and sizes in the same order. *)
Theorem fcfs_and_sjf_only_read_the_tasks (fuel fuel' : nat) (w : World) :
  plain_policy (sched w) ->
  exists first second w1 w2,
    schedule_tasks fuel w = (Ok first, w1) /\
    schedule_tasks fuel' w1 = (Ok second, w2) /\
    sched w1 = sched w /\ sched w2 = sched w /\ fs w2 = fs w /\
    ticks w2 = (ticks w + 2 * length (tasks (sched w)))%nat /\
    (fun e => (entry_task_id e, entry_size e)) <$> first ≡ₚ
      (fun t => (task_id t, size t)) <$> tasks (sched w) /\
    (fun e => (entry_task_id e, entry_size e)) <$> second =
      (fun e => (entry_task_id e, entry_size e)) <$> first /\
    Forall (fun e => entry_algorithm e = algorithm (sched w)) first.
Proof.
  intros [Halg|Halg].
  - rewrite (schedule_tasks_fcfs _ _ Halg), schedule_fcfs_eq.
    eexists _, _, _, _. split; [done|].
    rewrite schedule_tasks_fcfs, schedule_fcfs_eq by done.
    split; [done|]. do 3 (split; [done|]).
    split; [cbn [ticks set_ticks sched]; lia|].
    rewrite !plain_entries_pairs. split; [by rewrite py_sorted_perm|].
    split; [done|]. rewrite Halg. apply plain_entries_algorithm.
  - rewrite (schedule_tasks_sjf _ _ Halg), schedule_sjf_eq.
    eexists _, _, _, _. split; [done|].
    rewrite schedule_tasks_sjf, schedule_sjf_eq by done.
    split; [done|]. do 3 (split; [done|]).
    split; [cbn [ticks set_ticks sched]; lia|].
    rewrite !plain_entries_pairs. split; [by rewrite py_sorted_perm|].
    split; [done|]. rewrite Halg. apply plain_entries_algorithm.
Qed.

(** What identifies a registered task: all its fields but
    [remaining_time]. *)
Definition task_identity (t : Task) : Z * Z * float * option float * option float :=
  (task_id t, size t, arrival_time t, start_time t, end_time t).

(** Between [w] and [w'] no file changed and no task was added, removed,
    renamed or resized. *)
Definition same_tasks (w w' : World) : Prop :=
  fs w' = fs w /\
  algorithm (sched w') = algorithm (sched w) /\
  time_quantum (sched w') = time_quantum (sched w) /\
  completed_tasks (sched w') = completed_tasks (sched w) /\
  task_identity <$> tasks (sched w') = task_identity <$> tasks (sched w).

Lemma same_tasks_trans w1 w2 w3 :
  same_tasks w1 w2 -> same_tasks w2 w3 -> same_tasks w1 w3.
Proof. intros (?&?&?&?&?) (?&?&?&?&?). repeat split; congruence. Qed.

Lemma task_identity_alter (x : pynum) (r : nat) (l : list Task) :
  task_identity <$> alter (fun t => mkTask (task_id t) (size t) (arrival_time t)
                                      (start_time t) (end_time t) x) r l =
  task_identity <$> l.
Proof.
  revert r. induction l as [|t l IH]; intros [|r]; csimpl; [done..|].
  by rewrite IH.
Qed.

Lemma task_id_alter (x : pynum) (r : nat) (l : list Task) :
  task_id <$> alter (fun t => mkTask (task_id t) (size t) (arrival_time t)
                                (start_time t) (end_time t) x) r l =
  task_id <$> l.
Proof.
  revert r. induction l as [|t l IH]; intros [|r]; csimpl; [done..|].
  by rewrite IH.
Qed.

Lemma round_robin_loop_same_tasks (fuel : nat) (quantum : Z) (ready_queue : list nat)
    (scheduled_tasks : list Entry) (current_time : float) (w : World) :
  same_tasks w (round_robin_loop fuel quantum ready_queue scheduled_tasks current_time w).2.
Proof.
  revert ready_queue scheduled_tasks current_time w.
  induction fuel as [|fuel IH]; intros [|r rest] acc now w; try done.
  cbn [round_robin_loop]. unfold bind at 1, deref_task, bind at 1, get_sched.
  destruct (tasks (sched w) !! r) as [task|]; [|done].
  cbv beta iota. unfold ret at 1. unfold bind at 1, lift.
  destruct (py_float quantum) as [quantum_|e|s]; [|done..].
  unfold bind at 1.
  destruct (pynum_to_float (remaining_time task)) as [remaining_|e|s]; [|done..].
  unfold bind at 1.
  destruct (int_of_float _) as [sz|e|s]; [|done..].
  unfold bind at 1, time_time. unfold bind at 1.
  unfold set_remaining_time, bind at 1, get_sched, put_sched.
  eapply same_tasks_trans; [|apply IH].
  repeat split. simpl. apply task_identity_alter.
Qed.

Lemma schedule_tasks_same_tasks (fuel : nat) (w : World) :
  same_tasks w (schedule_tasks fuel w).2.
Proof.
  unfold schedule_tasks, bind at 1, get_sched.
  destruct (String.eqb (algorithm (sched w)) "FCFS").
  { by rewrite schedule_fcfs_eq. }
  destruct (String.eqb (algorithm (sched w)) "SJF").
  { by rewrite schedule_sjf_eq. }
  destruct (String.eqb (algorithm (sched w)) "Round Robin"); [|done].
  unfold _schedule_round_robin, bind at 1, get_sched.
  destruct (time_quantum (sched w)) as [[|q|q]|]; try done;
    apply round_robin_loop_same_tasks.
Qed.

(** X13.  Whatever the policy and however it ends (a schedule, a
    [ValueError], or a Round Robin that is still looping when the fuel of
    the model runs out), [schedule_tasks] never adds, removes, renames or
    resizes a task and never touches a file or the configuration of the
    scheduler: the only field of a registered task that can change is
    [remaining_time]. *)
Theorem scheduling_keeps_the_registered_tasks (fuel : nat) (w : World) :
  fs (schedule_tasks fuel w).2 = fs w /\
  algorithm (sched (schedule_tasks fuel w).2) = algorithm (sched w) /\
  time_quantum (sched (schedule_tasks fuel w).2) = time_quantum (sched w) /\
  task_identity <$> tasks (sched (schedule_tasks fuel w).2) =
    task_identity <$> tasks (sched w).
Proof.
  by destruct (schedule_tasks_same_tasks fuel w) as (?&?&?&?&?).
Qed.

(** ** The simulated execution *)

(** The slots follow each other without a gap from the time [now] on. *)
Fixpoint gapless (now : float) (timeline : list Slot) : Prop :=
  match timeline with
  | [] => True
  | slot :: rest =>
      slot_start_time slot = now /\
      slot_end_time slot = PrimFloat.add now (slot_duration slot) /\
      gapless (slot_end_time slot) rest
  end.

(** The size of a task can be converted to a float. *)
Definition float_fits (z : Z) : Prop := PrimFloat.is_infinity (float_of_Z z) = false.

Lemma first_with_id_Some (ts : list Task) (tid : Z) :
  tid ∈ task_id <$> ts ->
  exists t, first_with_id ts tid = Some t /\ t ∈ ts /\ task_id t = tid.
Proof.
  unfold first_with_id.
  induction ts as [|t ts IH]; csimpl; intros Hin; [by apply elem_of_nil in Hin|].
  destruct (Z.eqb_spec (task_id t) tid) as [Heq|Hne].
  - exists t. split; [done|]. split; [by left|done].
  - apply elem_of_cons in Hin as [Hin|Hin]; [done|].
    destruct (IH Hin) as (t' & Hfind & Hel & Hid). exists t'.
    split; [done|]. split; [by right|done].
Qed.

(** Tasks that differ in [remaining_time] only are found alike. *)
Lemma first_with_id_same (ts ts' : list Task) (tid : Z) (t' : Task) :
  task_identity <$> ts' = task_identity <$> ts ->
  first_with_id ts' tid = Some t' ->
  exists t, first_with_id ts tid = Some t /\ size t = size t'.
Proof.
  unfold first_with_id. revert ts.
  induction ts' as [|a ts' IH]; intros [|b ts] Heq Hfind; simplify_eq/=.
  assert (task_id a = task_id b /\ size a = size b) as [Hid Hsz].
  { unfold task_identity in *. by simplify_eq. }
  rewrite <- Hid. destruct (task_id a =? tid).
  - simplify_eq. by exists b.
  - by apply IH.
Qed.

Lemma simulate_loop_spec (s : TaskScheduler) (entries : list Entry) (now : float) :
  Forall (fun e => entry_task_id e ∈ task_id <$> tasks s) entries ->
  Forall (fun t => float_fits (size t)) (tasks s) ->
  exists timeline,
    simulate_loop s entries now = Ok (Returned timeline) /\
    slot_task_id <$> timeline = entry_task_id <$> entries /\
    gapless now timeline /\
    Forall (fun slot =>
              exists t, first_with_id (tasks s) (slot_task_id slot) = Some t /\
                        slot_size slot = size t /\
                        slot_duration slot = PrimFloat.div (float_of_Z (size t)) 1000%float /\
                        slot_algorithm slot = algorithm s)
      timeline.
Proof.
  intros Hids Hfit. revert now.
  induction Hids as [|e entries He _ IH]; intros now.
  { exists []. by repeat split. }
  destruct (first_with_id_Some _ _ He) as (t & Hfind & Ht & Hid).
  cbn [simulate_loop]. cbv zeta. rewrite Hfind.
  rewrite Forall_forall in Hfit. specialize (Hfit t Ht).
  unfold py_float. rewrite Hfit.
  destruct (IH (PrimFloat.add now (PrimFloat.div (float_of_Z (size t)) 1000%float)))
    as (timeline & -> & Hslots & Hgap & Hall).
  eexists. split; [done|]. csimpl. split; [by rewrite Hslots|].
  split; [done|]. constructor; [|done]. exists t.
  cbn [slot_task_id slot_size slot_duration slot_algorithm]. by rewrite Hfind.
Qed.

(** Every entry of a schedule names a registered task. *)
Definition names_registered_tasks (r : outcome (list Entry) * World) : Prop :=
  match r.1 with
  | Ok entries =>
      Forall (fun e => entry_task_id e ∈ task_id <$> tasks (sched r.2)) entries
  | _ => True
  end.

Lemma round_robin_loop_names (fuel : nat) (quantum : Z) (ready_queue : list nat)
    (scheduled_tasks : list Entry) (current_time : float) (w : World) :
  Forall (fun e => entry_task_id e ∈ task_id <$> tasks (sched w)) scheduled_tasks ->
  names_registered_tasks
    (round_robin_loop fuel quantum ready_queue scheduled_tasks current_time w).
Proof.
  revert ready_queue scheduled_tasks current_time w.
  induction fuel as [|fuel IH]; intros [|r rest] acc now w Hacc; try done.
  cbn [round_robin_loop]. unfold bind at 1, deref_task, bind at 1, get_sched.
  destruct (tasks (sched w) !! r) as [task|] eqn:Hr; [|done].
  cbv beta iota. unfold ret at 1. unfold bind at 1, lift.
  destruct (py_float quantum) as [quantum_|e|s]; [|done..].
  unfold bind at 1.
  destruct (pynum_to_float (remaining_time task)) as [remaining_|e|s]; [|done..].
  unfold bind at 1.
  destruct (int_of_float _) as [sz|e|s]; [|done..].
  unfold bind at 1, time_time. unfold bind at 1.
  unfold set_remaining_time, bind at 1, get_sched, put_sched.
  apply IH. cbn [sched set_sched set_ticks tasks]. rewrite task_id_alter.
  apply Forall_app. split; [done|]. constructor; [|done].
  cbn [entry_task_id]. apply list_elem_of_fmap_2. by eapply list_elem_of_lookup_2.
Qed.

Lemma schedule_tasks_names (fuel : nat) (w : World) :
  names_registered_tasks (schedule_tasks fuel w).
Proof.
  unfold schedule_tasks, bind at 1, get_sched.
  destruct (String.eqb (algorithm (sched w)) "FCFS").
  { rewrite schedule_fcfs_eq. unfold names_registered_tasks. cbn [fst snd sched set_ticks].
    apply Forall_forall. intros e He.
    apply (list_elem_of_fmap_2 entry_task_id) in He.
    by rewrite plain_entries_ids, py_sorted_perm in He. }
  destruct (String.eqb (algorithm (sched w)) "SJF").
  { rewrite schedule_sjf_eq. unfold names_registered_tasks. cbn [fst snd sched set_ticks].
    apply Forall_forall. intros e He.
    apply (list_elem_of_fmap_2 entry_task_id) in He.
    by rewrite plain_entries_ids, py_sorted_perm in He. }
  destruct (String.eqb (algorithm (sched w)) "Round Robin"); [|done].
  unfold _schedule_round_robin, bind at 1, get_sched.
  destruct (time_quantum (sched w)) as [[|q|q]|]; try done;
    by apply round_robin_loop_names.
Qed.

(** X14.  [simulate_execution] under any policy.  Whenever [schedule_tasks]
    returns a schedule, and the task sizes are within the range of the
    floats, the simulation returns a timeline with one slot for every entry
    of the schedule, in schedule order; [next(...)] always finds the task of
    an entry and never raises [StopIteration].  The first slot starts at
    0.0, every slot ends at its start plus its duration, and every other
    slot starts exactly where the slot before it ends.  The duration of a
    slot is the whole size of its task divided by 1000.0 (the first
    registered task that has the id), also for the several slices that Round
    Robin schedules for one task. *)
Theorem simulated_timeline_is_gapless (fuel : nat) (w : World) (entries : list Entry) :
  (schedule_tasks fuel w).1 = Ok entries ->
  Forall (fun t => float_fits (size t)) (tasks (sched w)) ->
  exists timeline,
    simulate_execution fuel w = (Ok (Returned timeline), (schedule_tasks fuel w).2) /\
    slot_task_id <$> timeline = entry_task_id <$> entries /\
    gapless 0 timeline /\
    Forall (fun slot =>
              exists t, first_with_id (tasks (sched w)) (slot_task_id slot) = Some t /\
                        slot_size slot = size t /\
                        slot_duration slot =
                          PrimFloat.div (float_of_Z (size t)) 1000%float)
      timeline.
Proof.
  intros Hsched Hfit.
  pose proof (schedule_tasks_names fuel w) as Hnames.
  pose proof (schedule_tasks_same_tasks fuel w) as (_ & _ & _ & _ & Hsame).
  unfold names_registered_tasks in Hnames. rewrite Hsched in Hnames.
  destruct (schedule_tasks fuel w) as [o w1] eqn:Hrun. cbn [fst snd] in *. subst o.
  destruct (simulate_loop_spec (sched w1) entries 0%float Hnames)
    as (timeline & Hloop & Hids & Hgap & Hall).
  { assert (size <$> tasks (sched w1) = size <$> tasks (sched w)) as Hsizes.
    { apply (f_equal (fmap (fun p : Z * Z * float * option float * option float =>
                              p.1.1.1.2))) in Hsame.
      by rewrite <- !list_fmap_compose in Hsame. }
    apply Forall_forall. intros t1 Ht1.
    apply (list_elem_of_fmap_2 size) in Ht1. rewrite Hsizes in Ht1.
    apply list_elem_of_fmap in Ht1 as (t & -> & Ht).
    rewrite Forall_forall in Hfit. by apply Hfit. }
  exists timeline. split; [|split; [done|split; [done|]]].
  - unfold simulate_execution, bind, get_sched, lift. by rewrite Hrun, Hloop.
  - eapply Forall_impl; [exact Hall|]. intros slot (t1 & Hfind & Hsz & Hdur & _).
    destruct (first_with_id_same _ _ _ _ Hsame Hfind) as (t & Hfind0 & Hsize).
    exists t. rewrite Hsize. done.
Qed.

(** ** The metrics of a timeline *)

Lemma calculate_metrics_zero_end (timeline : list Slot) (last_exec : Slot) :
  last timeline = Some last_exec ->
  PrimFloat.eqb (slot_end_time last_exec) 0%float = true ->
  calculate_metrics timeline = inl ZeroDivisionError.
Proof.
  intros Hlast Hzero. unfold calculate_metrics. rewrite Hlast.
  destruct (metrics_totals timeline) as [[a b] c].
  unfold py_truediv. rewrite Hzero.
  by destruct (PrimFloat.eqb (float_of_Z _) 0).
Qed.

(** A timeline of tasks of size 0 never leaves time 0. *)
Lemma gapless_zero (timeline : list Slot) :
  gapless 0 timeline ->
  Forall (fun slot => slot_duration slot =
                        PrimFloat.div (float_of_Z 0) 1000%float) timeline ->
  Forall (fun slot => slot_end_time slot = 0%float) timeline.
Proof.
  intros Hgap Hall. induction Hall as [|slot rest Hd _ IH]; [constructor|].
  destruct Hgap as (Hstart & Hend & Hrest). rewrite Hd in Hend.
  change (PrimFloat.add 0 (PrimFloat.div (float_of_Z 0) 1000)) with 0%float in Hend.
  constructor; [done|]. apply IH. by rewrite Hend in Hrest.
Qed.

(** X15.  [calculate_metrics] on the edge.  An empty timeline gives the
    empty dictionary.  A timeline whose last slot ends at time 0.0 raises
    [ZeroDivisionError], from the throughput [num_tasks / end_time]; and
    this is what happens to the timeline that [simulate_execution] returns
    for a FCFS or SJF scheduler all of whose tasks have size 0 (the tasks
    that a decryption registers for empty frames, for instance): the
    simulation returns one slot for every task, and the metrics of this
    timeline cannot be computed. *)
Theorem metrics_of_a_timeline :
  calculate_metrics [] = inr None /\
  (forall (timeline : list Slot) (last_exec : Slot),
     last timeline = Some last_exec ->
     PrimFloat.eqb (slot_end_time last_exec) 0%float = true ->
     calculate_metrics timeline = inl ZeroDivisionError) /\
  (forall (fuel : nat) (w : World),
     plain_policy (sched w) ->
     tasks (sched w) <> [] ->
     Forall (fun t => size t = 0) (tasks (sched w)) ->
     exists timeline,
       (simulate_execution fuel w).1 = Ok (Returned timeline) /\
       length timeline = length (tasks (sched w)) /\
       calculate_metrics timeline = inl ZeroDivisionError).
Proof.
  split; [done|]. split; [apply calculate_metrics_zero_end|].
  intros fuel w Halg Hne Hzero.
  destruct (schedule_tasks_plain_frame fuel w Halg) as (entries & Hsched & Hperm).
  pose proof (schedule_tasks_names fuel w) as Hnames.
  unfold names_registered_tasks in Hnames. rewrite Hsched in Hnames.
  cbn [fst snd sched set_ticks] in Hnames.
  destruct (simulate_loop_spec (sched w) entries 0%float Hnames)
    as (timeline & Hloop & Hids & Hgap & Hall).
  { eapply Forall_impl; [exact Hzero|]. intros t ->. reflexivity. }
  exists timeline.
  assert (length timeline = length (tasks (sched w))) as Hlen.
  { rewrite <- (length_fmap slot_task_id), Hids, Hperm. by rewrite length_fmap. }
  split; [|split; [done|]].
  - unfold simulate_execution, bind, get_sched, lift. rewrite Hsched.
    cbn [sched set_ticks]. by rewrite Hloop.
  - assert (Forall (fun slot => slot_end_time slot = 0%float) timeline) as Hends.
    { apply gapless_zero; [done|]. eapply Forall_impl; [exact Hall|].
      intros slot (t & Hfind & _ & Hdur & _).
      assert (t ∈ tasks (sched w)) as Ht.
      { unfold first_with_id in Hfind. apply find_some in Hfind as [Ht _].
        by apply list_elem_of_In. }
      rewrite Forall_forall in Hzero. by rewrite (Hzero t Ht) in Hdur. }
    destruct (last timeline) as [last_exec|] eqn:Hlast.
    + apply (calculate_metrics_zero_end _ last_exec Hlast).
      rewrite Forall_forall in Hends. rewrite (Hends last_exec); [reflexivity|].
      rewrite last_lookup in Hlast. by eapply list_elem_of_lookup_2.
    + apply last_None in Hlast. subst timeline.
      destruct (tasks (sched w)); [done|]. simpl in Hlen. lia.
Qed.

(** ** utils.py: the chunks of a file, by arithmetic *)

Lemma chunk_file_info_eq (file_size chunk_size : Z) :
  chunk_size <> 0 ->
  chunk_file_info file_size chunk_size =
    inr {| total_chunks := (file_size + chunk_size - 1) / chunk_size;
           info_chunk_size := chunk_size;
           last_chunk_size := if negb (file_size mod chunk_size =? 0)
                              then file_size mod chunk_size else chunk_size;
           total_size := file_size;
           estimated_memory_usage := (file_size + chunk_size - 1) / chunk_size * chunk_size * 2;
           chunks_per_worker := if 4 <=? (file_size + chunk_size - 1) / chunk_size
                                then (file_size + chunk_size - 1) / chunk_size / 4 else 1 |}.
Proof.
  intros Hcs. unfold chunk_file_info, py_floordiv, py_mod.
  destruct (Z.eqb_spec chunk_size 0); [done|]. simpl.
  by destruct (4 <=? _).
Qed.

(** X16.  [chunk_file_info] agrees with the split that the encryption
    performs.  For a non-empty file and a positive chunk size,
    ['total_chunks'] is the number of chunks that [encrypt_file_parallel]
    reads, ['last_chunk_size'] is the length of the last of them, and
    ['estimated_memory_usage'] is at least twice the file size.  A chunk
    size of 0 raises [ZeroDivisionError].  For an empty file the function
    reports 0 chunks and yet a last chunk of a full [chunk_size] bytes. *)
Theorem chunk_file_info_agrees_with_split :
  (forall (chunk_size : Z) (data : bytes),
     0 < chunk_size -> data <> [] ->
     exists chunks info last_chunk,
       read_chunks chunk_size data = Ok chunks /\
       chunk_file_info (Z.of_nat (length data)) chunk_size = inr info /\
       last chunks = Some last_chunk /\
       total_chunks info = Z.of_nat (length chunks) /\
       last_chunk_size info = Z.of_nat (length last_chunk.2) /\
       2 * Z.of_nat (length data) <= estimated_memory_usage info) /\
  (forall file_size : Z, chunk_file_info file_size 0 = inl ZeroDivisionError) /\
  (forall chunk_size : Z,
     0 < chunk_size ->
     exists info,
       chunk_file_info 0 chunk_size = inr info /\
       total_chunks info = 0 /\ last_chunk_size info = chunk_size).
Proof.
  split; [|split].
  - intros chunk_size data Hcs Hne.
    set (n := Z.to_nat chunk_size). assert (1 <= n)%nat as Hn by lia.
    assert (Z.of_nat n = chunk_size) as Hnz by lia.
    assert (1 <= length data)%nat as Hlen by (destruct data; [done|simpl; lia]).
    pose proof (Nat.div_mod_eq (length data) n) as Hdm.
    pose proof (Nat.mod_upper_bound (length data) n ltac:(lia)) as Hr.
    pose proof (slices_div_mod (length data) n Hn) as Hslices.
    assert ((Z.of_nat (length data) + chunk_size - 1) / chunk_size =
            Z.of_nat (slices (length data) n)) as Htotal.
    { unfold slices. rewrite Nat2Z.inj_div, Nat2Z.inj_sub, Nat2Z.inj_add by lia.
      by rewrite Hnz. }
    assert (Z.of_nat (length data) mod chunk_size = Z.of_nat (length data mod n)) as Hmod.
    { by rewrite Nat2Z.inj_mod, Hnz. }
    rewrite chunk_file_info_eq by lia.
    exists ((fun k => (Z.of_nat k, slice n data k)) <$> seq 0 (slices (length data) n)).
    rewrite read_chunks_slices by done. fold n.
    rewrite last_lookup, length_fmap, length_seq, list_lookup_fmap.
    rewrite (proj2 (lookup_seq 0 (slices (length data) n) _ (pred (slices (length data) n))));
      [|split; [done|]; case_decide; [|lia];
        assert (1 <= length data / n)%nat by (destruct (length data / n)%nat; lia); lia].
    eexists _, _. split; [done|]. split; [done|]. split; [done|].
    cbn [total_chunks last_chunk_size
      estimated_memory_usage snd fmap option_fmap option_map].
    split; [done|]. split.
    + rewrite slice_length, Hmod, Hslices.
      destruct (Z.eqb_spec (Z.of_nat (length data mod n)) 0) as [Hz|Hnz'];
        case_decide; try lia; cbn [negb].
      * assert (1 <= length data / n)%nat by (destruct (length data / n)%nat; lia). nia.
      * simpl. nia.
    + rewrite Htotal, Hslices. case_decide; nia.
  - intros file_size. done.
  - intros chunk_size Hcs. rewrite chunk_file_info_eq by lia.
    eexists. split; [done|]. cbn [total_chunks last_chunk_size].
    rewrite Z.mod_0_l by lia. split; [|done].
    apply Z.div_small. lia.
Qed.

(** ** utils.py: the strength of a password *)

(** Every check adds one point or one line of feedback. *)
Lemma score_check_score (passed : bool) (message : string) (acc : Z * list string) :
  (score_check passed message acc).1 = acc.1 + Z.b2z passed.
Proof. destruct passed; simpl; lia. Qed.

Lemma score_check_total (passed : bool) (message : string) (acc : Z * list string) :
  (score_check passed message acc).1 + Z.of_nat (length (score_check passed message acc).2) =
  acc.1 + Z.of_nat (length acc.2) + 1.
Proof. destruct passed; simpl; [lia|]. rewrite length_app. simpl. lia. Qed.

Section password_facts.
Variables (islower isupper isdigit : Ascii.ascii -> bool).

(** X17.  The verdict of [validate_password_strength], whatever characters
    [islower], [isupper] and [isdigit] accept.  The score is between 0 and
    5 and the feedback has one line for every point that is missing;
    [is_valid] holds exactly when the strength is not "Weak", and the
    strength is "Very Strong" exactly when there is no feedback.  A password
    of fewer than 8 characters is never "Very Strong", but the length is not
    required: a password with a lowercase letter, an uppercase letter and a
    digit is valid whatever its length. *)
Theorem password_strength_scores (password : string) :
  let r := validate_password_strength islower isupper isdigit password in
  0 <= score r <= 5 /\
  score r + Z.of_nat (length (feedback r)) = 5 /\
  (is_valid r = true <-> strength r <> "Weak") /\
  (strength r = "Very Strong" <-> feedback r = []) /\
  ((String.length password < 8)%nat -> strength r <> "Very Strong") /\
  (py_any islower password = true -> py_any isupper password = true ->
   py_any isdigit password = true -> is_valid r = true).
Proof.
  unfold validate_password_strength.
  set (long := (8 <=? String.length password)%nat).
  set (has_lower := py_any islower password).
  set (has_upper := py_any isupper password).
  set (has_digit := py_any isdigit password).
  set (has_special := py_any is_special password).
  match goal with |- context [score_check has_special ?m ?a] =>
    set (acc := score_check has_special m a) end.
  cbv zeta. cbn [score feedback is_valid strength].
  assert (acc.1 = Z.b2z long + Z.b2z has_lower + Z.b2z has_upper + Z.b2z has_digit +
                  Z.b2z has_special) as Hscore.
  { subst acc. rewrite !score_check_score. simpl. lia. }
  assert (acc.1 + Z.of_nat (length acc.2) = 5) as Htotal.
  { subst acc. rewrite !score_check_total. simpl. lia. }
  assert ((String.length password < 8)%nat -> long = false) as Hshort.
  { intros Hlen. apply Nat.leb_gt. lia. }
  assert (acc.2 = [] <-> length acc.2 = 0%nat) as Hnil.
  { by destruct acc.2. }
  clearbody acc long has_lower has_upper has_digit has_special.
  split; [destruct long, has_lower, has_upper, has_digit, has_special; simpl in Hscore; lia|].
  split; [done|].
  assert (acc.1 <= 2 \/ acc.1 = 3 \/ acc.1 = 4 \/ acc.1 = 5) as Hcases.
  { destruct long, has_lower, has_upper, has_digit, has_special; simpl in Hscore; lia. }
  split; [|split; [|split]].
  - destruct Hcases as [Hc|[Hc|[Hc|Hc]]].
    + replace (acc.1 <=? 2) with true by (symmetry; apply Z.leb_le; lia).
      replace (3 <=? acc.1) with false by (symmetry; apply Z.leb_gt; lia). split; done.
    + rewrite Hc. by split.
    + rewrite Hc. by split.
    + rewrite Hc. by split.
  - rewrite Hnil. destruct Hcases as [Hc|[Hc|[Hc|Hc]]].
    + replace (acc.1 <=? 2) with true by (symmetry; apply Z.leb_le; lia).
      split; [done|lia].
    + rewrite Hc. split; [done|lia].
    + rewrite Hc. split; [done|lia].
    + rewrite Hc. split; [lia|done].
  - intros ->%Hshort. destruct Hcases as [Hc|[Hc|[Hc|Hc]]].
    + by replace (acc.1 <=? 2) with true by (symmetry; apply Z.leb_le; lia).
    + by rewrite Hc.
    + by rewrite Hc.
    + destruct has_lower, has_upper, has_digit, has_special; simpl in Hscore; lia.
  - intros -> -> ->. apply Z.leb_le.
    destruct long, has_special; simpl in Hscore; lia.
Qed.
End password_facts.

(** ** utils.py: file names *)

Lemma str_replace_not_old (old new : Ascii.ascii) (s : chars) :
  old <> new -> old ∉ str_replace old new s.
Proof.
  intros Hne [c [Hc _]]%list_elem_of_fmap.
  destruct (Ascii.eqb_spec c old); congruence.
Qed.

Lemma str_replace_keeps_out (old new x : Ascii.ascii) (s : chars) :
  x <> new -> x ∉ s -> x ∉ str_replace old new s.
Proof.
  intros Hne Hx [c [Hc Hin]]%list_elem_of_fmap.
  destruct (Ascii.eqb_spec c old); [done|]. by subst.
Qed.

(** After the replacements none of the replaced characters is left. *)
Lemma replaced_all (bad : chars) (s : chars) :
  underscore ∉ bad ->
  Forall (fun c => c ∉ foldl (fun f char => str_replace char underscore f) s bad) bad.
Proof.
  intros Hbad. revert s. induction bad as [|b bad IH]; intros s; [constructor|].
  apply not_elem_of_cons in Hbad as [Hb Hbad]. cbn [foldl]. constructor.
  - generalize (str_replace_not_old b underscore s ltac:(done)).
    generalize (str_replace b underscore s). clear IH. intros s'.
    revert s'. induction bad as [|b' bad IH']; intros s' Hs'; [done|].
    cbn [foldl]. apply not_elem_of_cons in Hbad as [Hb' Hbad].
    apply IH'; [done|]. apply str_replace_keeps_out; [|done]. congruence.
  - by apply IH.
Qed.

Lemma str_lstrip_elem (set s : chars) (x : Ascii.ascii) :
  x ∈ str_lstrip set s -> x ∈ s.
Proof.
  induction s as [|c s IH]; [done|]. simpl. case_bool_decide; [|done].
  intros Hx. right. by apply IH.
Qed.

Lemma str_strip_elem (set s : chars) (x : Ascii.ascii) :
  x ∈ str_strip set s -> x ∈ s.
Proof.
  unfold str_strip, str_rstrip. rewrite elem_of_reverse.
  intros Hx%str_lstrip_elem. rewrite elem_of_reverse in Hx.
  by apply str_lstrip_elem in Hx.
Qed.

Lemma cleaned_filename_valid (filename : chars) :
  cleaned_filename filename <> [] /\
  Forall (fun c => c ∉ invalid_chars) (cleaned_filename filename).
Proof.
  unfold cleaned_filename.
  pose proof (replaced_all invalid_chars filename) as Hrep.
  destruct (str_strip _ _) as [|c s] eqn:Hs.
  - split; [done|]. refine (bool_decide_unpack _ _). by vm_compute.
  - split; [done|]. rewrite <- Hs. apply Forall_forall. intros x Hx%str_strip_elem Hbad.
    rewrite Forall_forall in Hrep.
    refine (Hrep _ x Hbad Hx). refine (bool_decide_unpack _ _). by vm_compute.
Qed.

Lemma slice_to_elem {A} (l : list A) (stop : Z) (x : A) : x ∈ slice_to l stop -> x ∈ l.
Proof.
  unfold slice_to. destruct (stop <? 0); intros Hx;
    by apply list_elem_of_lookup in Hx as [i [Hi _]%lookup_take_Some];
       eapply list_elem_of_lookup_2.
Qed.

Section sanitize_filename_facts.
(** [os.path.splitext], of which the code uses that [root + ext == path]. *)
Variable splitext : chars -> chars * chars.
Hypothesis splitext_concat : forall p, (splitext p).1 ++ (splitext p).2 = p.

(** X18.  The name that [sanitize_filename] returns is never empty and
    contains none of the nine characters it replaces.  A cleaned name of at
    most 255 characters is returned as it is.  A longer one is cut to at
    most 255 characters when the extension that [os.path.splitext] finds has
    at most 255 characters; when the extension itself is longer, the name
    returned still exceeds 255 characters. *)
Theorem sanitized_filename (filename : chars) :
  sanitize_filename splitext filename <> [] /\
  Forall (fun c => c ∉ invalid_chars) (sanitize_filename splitext filename) /\
  ((length (cleaned_filename filename) <= 255)%nat ->
   sanitize_filename splitext filename = cleaned_filename filename) /\
  ((length (splitext (cleaned_filename filename)).2 <= 255)%nat ->
   (length (sanitize_filename splitext filename) <= 255)%nat) /\
  ((255 < length (splitext (cleaned_filename filename)).2)%nat ->
   (255 < length (sanitize_filename splitext filename))%nat).
Proof.
  destruct (cleaned_filename_valid filename) as [Hne Hvalid].
  pose proof (splitext_concat (cleaned_filename filename)) as Hcat.
  unfold sanitize_filename.
  destruct (splitext (cleaned_filename filename)) as [name ext].
  cbn [fst snd] in *.
  assert (length (cleaned_filename filename) = (length name + length ext)%nat) as Hlen.
  { by rewrite <- Hcat, length_app. }
  destruct (Nat.ltb_spec 255 (length (cleaned_filename filename))) as [Hlong|Hshort].
  - split; [|split; [|split; [|split]]].
    + destruct ext as [|c ext]; [|by destruct (slice_to name _)].
      rewrite app_nil_r. simpl in Hlen. unfold slice_to. cbn [length].
      change (255 - Z.of_nat 0 <? 0) with false. cbv iota.
      destruct name as [|c name]; [simpl in *; lia|done].
    + rewrite <- Hcat in Hvalid. apply Forall_app in Hvalid as [Hname Hext].
      apply Forall_app. split; [|done].
      rewrite Forall_forall in Hname. apply Forall_forall.
      intros x Hx%slice_to_elem. by apply Hname.
    + lia.
    + intros Hext. rewrite length_app. unfold slice_to.
      destruct (Z.ltb_spec (255 - Z.of_nat (length ext)) 0); [lia|].
      rewrite length_take. lia.
    + intros Hext. rewrite length_app. lia.
  - split; [done|]. split; [done|]. split; [done|]. split; intros; lia.
Qed.
End sanitize_filename_facts.

(** ** Instances of the further properties on concrete inputs *)

(** A world with the file "f" of eight bytes and a fresh scheduler. *)
Definition eight_bytes_world (alg : string) (choices : list nat) : World :=
  demo_world alg None {["f" := eight_bytes]} choices.

(** Two tasks for the chunks "A" and "B". *)
Definition two_tasks : list QTask := [mkQTask 0 [x41] 0%float; mkQTask 1 [x42] 0%float].

(** The schedule of the Round-Robin scenario with quantum 200 and the sizes
    300 and 500. *)
Definition slices_300_500 : list Entry :=
  match (schedule_tasks 5 registered_300_500).1 with
  | Ok entries => entries
  | _ => []
  end.

(** A SJF scheduler with two tasks of size 0. *)
Definition two_empty_tasks : World :=
  ((add_task 0 0 ;;; add_task 1 0) (demo_world "SJF" None ∅ [])).2.

(** The characters that [islower], [isupper] and [isdigit] accept among the
    first 128. *)
Definition ascii_islower (c : Ascii.ascii) : bool :=
  (97 <=? Ascii.nat_of_ascii c)%nat && (Ascii.nat_of_ascii c <=? 122)%nat.
Definition ascii_isupper (c : Ascii.ascii) : bool :=
  (65 <=? Ascii.nat_of_ascii c)%nat && (Ascii.nat_of_ascii c <=? 90)%nat.
Definition ascii_isdigit (c : Ascii.ascii) : bool :=
  (48 <=? Ascii.nat_of_ascii c)%nat && (Ascii.nat_of_ascii c <=? 57)%nat.

(** [os.path.splitext] on a name without directory separators and
    without leading dots: the extension starts at the last dot. *)
Fixpoint split_at_last_dot (p : chars) : option (chars * chars) :=
  match p with
  | [] => None
  | c :: p' =>
      match split_at_last_dot p' with
      | Some (root, ext) => Some (c :: root, ext)
      | None => if Ascii.eqb c (Ascii.ascii_of_nat 46) then Some ([], c :: p') else None
      end
  end.
Definition splitext_plain (p : chars) : chars * chars :=
  match split_at_last_dot p with
  | Some (root, ext) => (root, ext)
  | None => (p, [])
  end.

Lemma splitext_plain_concat (p : chars) :
  (splitext_plain p).1 ++ (splitext_plain p).2 = p.
Proof.
  unfold splitext_plain.
  assert (forall root ext, split_at_last_dot p = Some (root, ext) -> root ++ ext = p) as Hsplit.
  { induction p as [|c p IH]; intros root ext Hp; [done|]. cbn [split_at_last_dot] in Hp.
    destruct (split_at_last_dot p) as [[root' ext']|].
    - simplify_eq. simpl. f_equal. by apply IH.
    - destruct (Ascii.eqb c _); by simplify_eq. }
  destruct (split_at_last_dot p) as [[root ext]|]; simpl.
  - by apply Hsplit.
  - apply app_nil_r.
Qed.

(** X1, on eight bytes cut in chunks of five. *)
Lemma input_is_split_into_slices_witness :
  exists chunks,
    read_chunks 5 eight_bytes = Ok chunks /\
    chunks = (fun k => (Z.of_nat k, slice (Z.to_nat 5) eight_bytes k))
               <$> seq 0 (slices (length eight_bytes) (Z.to_nat 5)) /\
    concat chunks.*2 = eight_bytes.
Proof. apply (proj1 input_is_split_into_slices 5 eight_bytes). lia. Defined.

(** X2, on a chunk of eight bytes. *)
Lemma encrypted_chunk_size_witness :
  exists frame w',
    _encrypt_chunk eight_bytes demo_key (eight_bytes_world "FCFS" []) = (Ok frame, w') /\
    take 16 frame = next_iv (eight_bytes_world "FCFS" []) /\
    length frame = (16 * (length eight_bytes / 16) + 32)%nat /\
    (length eight_bytes + 17 <= length frame <= length eight_bytes + 32)%nat /\
    fs w' = fs (eight_bytes_world "FCFS" []) /\
    sched w' = sched (eight_bytes_world "FCFS" []) /\
    draws w' = S (draws (eight_bytes_world "FCFS" [])).
Proof. apply (encrypted_chunk_size eight_bytes demo_key). reflexivity. Defined.

(** X3, on the frame of 17 bytes. *)
Lemma decrypt_chunk_outcomes_witness :
  exists o,
    _decrypt_chunk torn_frame demo_key (eight_bytes_world "FCFS" []) =
      (o, eight_bytes_world "FCFS" []) /\
    ((length torn_frame < 16)%nat -> exists msg, o = Raise (ValueError msg)) /\
    ((length torn_frame mod 16 <> 0)%nat -> exists msg, o = Raise (ValueError msg)) /\
    (length torn_frame = 16%nat -> exists msg, o = Raise (IndexError msg)) /\
    ((32 <= length torn_frame)%nat -> (length torn_frame mod 16 = 0)%nat ->
     exists plain, o = Ok plain /\ (length plain < length torn_frame - 16)%nat /\
                   plain `prefix_of` aes_cbc_decrypt demo_key (take 16 torn_frame)
                                       (drop 16 torn_frame)).
Proof. apply (decrypt_chunk_outcomes torn_frame demo_key). reflexivity. Defined.

(** X5, on two tasks, two workers and the interleaving 1, 0, 1. *)
Lemma every_queued_task_is_answered_once_witness :
  exists p' w',
    run_workers "encrypt" demo_key (mkPool (Some <$> two_tasks) [] (replicate 2 Waiting))
      (eight_bytes_world "FCFS" [1; 0; 1]%nat) = (Ok p', w') /\
    result_chunk_id <$> result_queue p' ≡ₚ q_chunk_id <$> two_tasks /\
    Forall (fun r => (result_worker_id r < 2)%nat) (result_queue p') /\
    workers p' = replicate 2 Waiting /\
    fs w' = fs (eight_bytes_world "FCFS" [1; 0; 1]%nat) /\
    sched w' = sched (eight_bytes_world "FCFS" [1; 0; 1]%nat).
Proof. apply (every_queued_task_is_answered_once "encrypt" demo_key two_tasks 2). lia. Defined.

(** X6, on an encryption with [max_workers = 0]. *)
Lemma without_workers_the_run_blocks_witness :
  exists w',
    encrypt_file_parallel 0 "f" "pw" 5 0 (eight_bytes_world "SJF" []) =
      (Stuck BlockedForever, w') /\
    fs w' = fs (eight_bytes_world "SJF" []).
Proof.
  apply (proj1 without_workers_the_run_blocks 0%nat "f" "pw" 5 0 eight_bytes).
  - reflexivity.
  - discriminate.
  - lia.
  - right. reflexivity.
  - reflexivity.
  - lia.
Defined.





(** X11, on eight bytes cut in chunks of five: chunk 1, of three bytes, is
    served first. *)
Lemma sjf_serves_a_short_last_chunk_first_witness :
  exists chunks entries w',
    read_chunks 5 eight_bytes = Ok chunks /\
    (register_chunks chunks ;;; schedule_tasks 0)
      (demo_world "SJF" None ∅ []) = (Ok entries, w') /\
    entry_task_id <$> entries = sjf_chunk_order (length eight_bytes) (Z.to_nat 5).
Proof.
  apply (sjf_serves_a_short_last_chunk_first 0 (demo_world "SJF" None ∅ []) 5 eight_bytes).
  - reflexivity.
  - reflexivity.
  - lia.
Defined.

(** X12, on a SJF scheduler with two tasks. *)
Lemma fcfs_and_sjf_only_read_the_tasks_witness :
  exists first second w1 w2,
    schedule_tasks 0 two_empty_tasks = (Ok first, w1) /\
    schedule_tasks 0 w1 = (Ok second, w2) /\
    sched w1 = sched two_empty_tasks /\ sched w2 = sched two_empty_tasks /\
    fs w2 = fs two_empty_tasks /\
    ticks w2 = (ticks two_empty_tasks + 2 * length (tasks (sched two_empty_tasks)))%nat /\
    (fun e => (entry_task_id e, entry_size e)) <$> first ≡ₚ
      (fun t => (task_id t, size t)) <$> tasks (sched two_empty_tasks) /\
    (fun e => (entry_task_id e, entry_size e)) <$> second =
      (fun e => (entry_task_id e, entry_size e)) <$> first /\
    Forall (fun e => entry_algorithm e = algorithm (sched two_empty_tasks)) first.
Proof.
  apply (fcfs_and_sjf_only_read_the_tasks 0 0 two_empty_tasks).
  right. reflexivity.
Defined.

(** X14, on the Round-Robin schedule of five slices. *)
Lemma simulated_timeline_is_gapless_witness :
  exists timeline,
    simulate_execution 5 registered_300_500 =
      (Ok (Returned timeline), (schedule_tasks 5 registered_300_500).2) /\
    slot_task_id <$> timeline = entry_task_id <$> slices_300_500 /\
    gapless 0 timeline /\
    Forall (fun slot =>
              exists t, first_with_id (tasks (sched registered_300_500))
                          (slot_task_id slot) = Some t /\
                        slot_size slot = size t /\
                        slot_duration slot =
                          PrimFloat.div (float_of_Z (size t)) 1000%float)
      timeline.
Proof.
  apply (simulated_timeline_is_gapless 5 registered_300_500 slices_300_500).
  - vm_compute. reflexivity.
  - repeat (constructor; [reflexivity|]). constructor.
Defined.

(** X15, on the scheduler with two tasks of size 0. *)
Lemma metrics_of_a_timeline_witness :
  exists timeline,
    (simulate_execution 0 two_empty_tasks).1 = Ok (Returned timeline) /\
    length timeline = length (tasks (sched two_empty_tasks)) /\
    calculate_metrics timeline = inl ZeroDivisionError.
Proof.
  apply (proj2 (proj2 metrics_of_a_timeline) 0%nat two_empty_tasks).
  - right. reflexivity.
  - discriminate.
  - repeat (constructor; [reflexivity|]). constructor.
Defined.

(** X16, on eight bytes and chunks of five. *)
Lemma chunk_file_info_agrees_with_split_witness :
  exists chunks info last_chunk,
    read_chunks 5 eight_bytes = Ok chunks /\
    chunk_file_info (Z.of_nat (length eight_bytes)) 5 = inr info /\
    last chunks = Some last_chunk /\
    total_chunks info = Z.of_nat (length chunks) /\
    last_chunk_size info = Z.of_nat (length last_chunk.2) /\
    2 * Z.of_nat (length eight_bytes) <= estimated_memory_usage info.
Proof.
  apply (proj1 chunk_file_info_agrees_with_split 5 eight_bytes).
  - lia.
  - discriminate.
Defined.

(** X17, on the password "aA1". *)
Lemma password_strength_scores_witness :
  is_valid (validate_password_strength ascii_islower ascii_isupper ascii_isdigit "aA1") = true.
Proof.
  apply (password_strength_scores ascii_islower ascii_isupper ascii_isdigit "aA1").
  - reflexivity.
  - reflexivity.
  - reflexivity.
Defined.

(** X18, on the name " a<b.txt ". *)
Lemma sanitized_filename_witness :
  sanitize_filename splitext_plain (String.list_ascii_of_string " a<b.txt ") <> [] /\
  Forall (fun c => c ∉ invalid_chars)
    (sanitize_filename splitext_plain (String.list_ascii_of_string " a<b.txt ")) /\
  ((length (cleaned_filename (String.list_ascii_of_string " a<b.txt ")) <= 255)%nat ->
   sanitize_filename splitext_plain (String.list_ascii_of_string " a<b.txt ") =
     cleaned_filename (String.list_ascii_of_string " a<b.txt ")) /\
  ((length (splitext_plain
              (cleaned_filename (String.list_ascii_of_string " a<b.txt "))).2 <= 255)%nat ->
   (length (sanitize_filename splitext_plain
              (String.list_ascii_of_string " a<b.txt ")) <= 255)%nat) /\
  ((255 < length (splitext_plain
                    (cleaned_filename (String.list_ascii_of_string " a<b.txt "))).2)%nat ->
   (255 < length (sanitize_filename splitext_plain
                    (String.list_ascii_of_string " a<b.txt ")))%nat).
Proof.
  apply (sanitized_filename splitext_plain splitext_plain_concat).
Defined.



